(** * OpenSlide: the generic TIFF / BigTIFF directory reader

    A shallow embedding of [openslide-decode-tifflike.c]: the header parser,
    the directory walker with its loop detector, the tag value decoder, the
    typed accessors, the quickhash of a level, the properties of a directory
    and the printer; and of the read loop of [openslide-file.c].  The open
    file is a list of bytes with a cursor, the heap is a ledger of live
    blocks, a directory is a finite map from tag ids to items, and 64-bit
    integers are [Z] with the wrap-around of the C conversions written
    out. *)

From Stdlib Require Import ZArith Lia Floats Strings.Byte.
From stdpp Require Import base gmap list sorting strings pretty.

Open Scope Z_scope.

(** ** Bytes and machine integers *)

#[global] Instance byte_eq_dec : EqDecision byte := Byte.byte_eq_dec.

Definition byte_val (b : byte) : Z := Z.of_N (Byte.to_N b).

(** The byte with a given value (used to write files down). *)
Definition byte_of (z : Z) : byte :=
  match Byte.of_N (Z.to_N z) with Some b => b | None => Byte.x00 end.

Fixpoint le_val (bs : list byte) : Z :=
  match bs with
  | [] => 0
  | b :: bs' => byte_val b + 256 * le_val bs'
  end.

Definition be_val (bs : list byte) : Z := le_val (rev bs).

(** Conversion of an integer to [int64_t] (two's complement wrap). *)
Definition to_int64 (z : Z) : Z := (z + 2 ^ 63) mod 2 ^ 64 - 2 ^ 63.

(** Arithmetic in [uint64_t]. *)
Definition to_uint64 (z : Z) : Z := z mod 2 ^ 64.

(** Sign extension of a [w]-byte two's complement value. *)
Definition sign_extend (w : Z) (z : Z) : Z :=
  if z <? 2 ^ (8 * w - 1) then z else z - 2 ^ (8 * w).

(** [SSIZE_MAX] of <limits.h> on an LP64 platform. *)
Definition SSIZE_MAX : Z := 2 ^ 63 - 1.

(** ** Constants of <tiff.h> *)

Abbreviation TIFF_BIGENDIAN := 0x4d4d (only parsing).
Abbreviation TIFF_LITTLEENDIAN := 0x4949 (only parsing).
Abbreviation TIFF_VERSION_CLASSIC := 42 (only parsing).
Abbreviation TIFF_VERSION_BIG := 43 (only parsing).

Abbreviation TIFF_BYTE := 1 (only parsing).
Abbreviation TIFF_ASCII := 2 (only parsing).
Abbreviation TIFF_SHORT := 3 (only parsing).
Abbreviation TIFF_LONG := 4 (only parsing).
Abbreviation TIFF_RATIONAL := 5 (only parsing).
Abbreviation TIFF_SBYTE := 6 (only parsing).
Abbreviation TIFF_UNDEFINED := 7 (only parsing).
Abbreviation TIFF_SSHORT := 8 (only parsing).
Abbreviation TIFF_SLONG := 9 (only parsing).
Abbreviation TIFF_SRATIONAL := 10 (only parsing).
Abbreviation TIFF_FLOAT := 11 (only parsing).
Abbreviation TIFF_DOUBLE := 12 (only parsing).
Abbreviation TIFF_IFD := 13 (only parsing).
Abbreviation TIFF_LONG8 := 16 (only parsing).
Abbreviation TIFF_SLONG8 := 17 (only parsing).
Abbreviation TIFF_IFD8 := 18 (only parsing).

Abbreviation TIFFTAG_STRIPOFFSETS := 273 (only parsing).
Abbreviation TIFFTAG_STRIPBYTECOUNTS := 279 (only parsing).
Abbreviation TIFFTAG_TILEOFFSETS := 324 (only parsing).
Abbreviation TIFFTAG_TILEBYTECOUNTS := 325 (only parsing).

Abbreviation TIFFTAG_DOCUMENTNAME := 269 (only parsing).
Abbreviation TIFFTAG_IMAGEDESCRIPTION := 270 (only parsing).
Abbreviation TIFFTAG_MAKE := 271 (only parsing).
Abbreviation TIFFTAG_MODEL := 272 (only parsing).
Abbreviation TIFFTAG_XRESOLUTION := 282 (only parsing).
Abbreviation TIFFTAG_YRESOLUTION := 283 (only parsing).
Abbreviation TIFFTAG_XPOSITION := 286 (only parsing).
Abbreviation TIFFTAG_YPOSITION := 287 (only parsing).
Abbreviation TIFFTAG_RESOLUTIONUNIT := 296 (only parsing).
Abbreviation TIFFTAG_SOFTWARE := 305 (only parsing).
Abbreviation TIFFTAG_DATETIME := 306 (only parsing).
Abbreviation TIFFTAG_ARTIST := 315 (only parsing).
Abbreviation TIFFTAG_HOSTCOMPUTER := 316 (only parsing).
Abbreviation TIFFTAG_COPYRIGHT := 33432 (only parsing).

Abbreviation RESUNIT_NONE := 1 (only parsing).
Abbreviation RESUNIT_INCH := 2 (only parsing).
Abbreviation RESUNIT_CENTIMETER := 3 (only parsing).

(** ** Errors *)

Inductive OpenSlideError :=
  | OPENSLIDE_ERROR_FORMAT_NOT_SUPPORTED
  | OPENSLIDE_ERROR_BAD_DATA
  | OPENSLIDE_ERROR_IO.

Record GError := g_set_error { code : OpenSlideError; message : string }.

(** Modelled from the spec: [_openslide_io_error] lives in a file that is
    not part of the sources at hand; the spec's error taxonomy gives it the
    kind [IOError] ("source-level read/seek/open failure"). *)
Definition _openslide_io_error (msg : string) : GError :=
  g_set_error OPENSLIDE_ERROR_IO msg.

(** [g_prefix_error]: the prefix goes in front of the message. *)
Definition g_prefix_error (prefix : string) (e : GError) : GError :=
  g_set_error (code e) (prefix +:+ message e).

(** ** The open file and the heap *)

(** The calls made on the stream, in order. *)
Inductive io_call :=
  | fseeko_call (offset : Z)
  | fread_call (size : Z).

Record state := mkState {
  f_bytes : list byte;     (* contents of the file behind [FILE *f] *)
  f_pos : Z;               (* its position indicator *)
  f_log : list io_call;    (* the calls made on it so far *)
  heap_live : Z            (* number of heap blocks currently allocated *)
}.

Definition f_size (st : state) : Z := Z.of_nat (length (f_bytes st)).

(** The [len] bytes found at index [pos] of a buffer. *)
Definition slice (bs : list byte) (pos len : Z) : list byte :=
  take (Z.to_nat len) (drop (Z.to_nat pos) bs).

(** [fread(buf, size, 1, f)]: one item of [size] bytes, or a short read that
    leaves the cursor at the end of the file. *)
Definition fread (size : Z) (st : state) : option (list byte) * state :=
  let log := f_log st ++ [fread_call size] in
  if (0 <? size) && (0 <=? f_pos st) && (f_pos st + size <=? f_size st) then
    (Some (slice (f_bytes st) (f_pos st) size),
     mkState (f_bytes st) (f_pos st + size) log (heap_live st))
  else
    (None,
     mkState (f_bytes st) (Z.max (f_pos st) (f_size st)) log (heap_live st)).

(** [fseeko(f, offset, SEEK_SET)]: 0, or -1 for a negative offset.  The
    stream accepts every other offset, also one beyond the end of the file;
    the largest offset that a file system accepts is not modelled. *)
Definition fseeko (offset : Z) (st : state) : Z * state :=
  let log := f_log st ++ [fseeko_call offset] in
  if offset <? 0 then
    (-1, mkState (f_bytes st) (f_pos st) log (heap_live st))
  else
    (0, mkState (f_bytes st) offset log (heap_live st)).

Definition ftello (st : state) : Z := f_pos st.

(** [g_slice_new], [g_hash_table_new_full], [g_ptr_array_new]: one more block. *)
Definition g_new (st : state) : state :=
  mkState (f_bytes st) (f_pos st) (f_log st) (heap_live st + 1).

(** [g_free], [g_slice_free] and the like, for [n] blocks. *)
Definition g_release (n : Z) (st : state) : state :=
  mkState (f_bytes st) (f_pos st) (f_log st) (heap_live st - n).

(** ** The parsed model *)

Record tiff_item := mk_item {
  type : Z;            (* uint16_t *)
  count : Z;           (* int64_t *)
  value : list byte    (* the block behind [void *value], in host order *)
}.

Record _openslide_tifflike := mk_tifflike {
  directories : list (gmap Z tiff_item)
}.

(** [tiff_item_destroy]: the value buffer and the item itself. *)
Definition tiff_item_destroy (st : state) : state := g_release 2 st.

(** [g_hash_table_unref] of a directory table: the value destroy function
    runs on every item, then the table goes. *)
Definition g_hash_table_unref_items (ht : gmap Z tiff_item) (st : state) : state :=
  g_release (1 + 2 * Z.of_nat (size ht)) st.

(** [g_hash_table_insert] into a directory table: an item already stored
    under the same key is destroyed and replaced. *)
Definition g_hash_table_insert_item (ht : gmap Z tiff_item) (tag : Z)
    (item : tiff_item) (st : state) : gmap Z tiff_item * state :=
  (<[tag := item]> ht,
   match ht !! tag with
   | Some _ => tiff_item_destroy st
   | None => st
   end).

(** [g_hash_table_unref] of the loop detector: every key is freed with
    [_openslide_int64_free], then the table. *)
Definition g_hash_table_unref_keys (ht : gset Z) (st : state) : state :=
  g_release (1 + Z.of_nat (size ht)) st.

Section Platform.

(** Byte order of the machine the library runs on. *)
Variable host_big_endian : bool.

(** Largest request [g_try_malloc] grants. *)
Variable alloc_limit : Z.

(** [GUINTn_FROM_BE] and [GUINTn_FROM_LE] on the bytes of one element. *)
Definition GUINT_FROM_BE (elem : list byte) : list byte :=
  if host_big_endian then elem else rev elem.

Definition GUINT_FROM_LE (elem : list byte) : list byte :=
  if host_big_endian then rev elem else elem.

(** The value of an unsigned integer variable holding these bytes. *)
Definition host_val (elem : list byte) : Z :=
  if host_big_endian then be_val elem else le_val elem.

Fixpoint fix_byte_order_loop (size count : nat) (big_endian : bool)
    (data : list byte) : list byte :=
  match count with
  | O => data
  | S count' =>
      (if big_endian then GUINT_FROM_BE (take size data)
       else GUINT_FROM_LE (take size data))
      ++ fix_byte_order_loop size count' big_endian (drop size data)
  end.

Definition fix_byte_order (data : list byte) (size count : Z)
    (big_endian : bool) : list byte :=
  match size with
  | 1 => data
  | 2 | 4 | 8 =>
      fix_byte_order_loop (Z.to_nat size) (Z.to_nat count) big_endian data
  | _ => data (* g_assert_not_reached *)
  end.

(** [read_uint]: the value, and the flag [*ok], cleared on failure only. *)
Definition read_uint (size : Z) (big_endian : bool) (ok : bool) (st : state)
    : Z * bool * state :=
  match fread size st with
  | (None, st) => (0, false, st)
  | (Some buf, st) =>
      (host_val (fix_byte_order buf size 1 big_endian), ok, st)
  end.

Definition g_try_malloc (len : Z) (st : state) : bool * state :=
  if len <=? alloc_limit then (true, g_new st) else (false, st).

(** [read_tiff_value]: the decoded buffer, or [None] for [NULL]. *)
Definition read_tiff_value (size count offset : Z) (value : list byte)
    (value_len : Z) (big_endian : bool) (st : state)
    : option (list byte) * state :=
  if (size <=? 0) || (count <=? 0) || (count >? SSIZE_MAX ÷ size) then
    (None, st)
  else
    let len := size * count in
    match g_try_malloc len st with
    | (false, st) => (None, st)
    | (true, st) =>
        if len <=? value_len then
          (* inline *)
          let result := slice value 0 len in
          (Some (fix_byte_order result size count big_endian), st)
        else
          let old_off := ftello st in
          match fseeko offset st with
          | (0, st) =>
              match fread len st with
              | (Some result, st) =>
                  let st := snd (fseeko old_off st) in
                  (Some (fix_byte_order result size count big_endian), st)
              | (None, st) => (None, g_release 1 st)
              end
          | (_, st) => (None, g_release 1 st)
          end
    end.

(** The [switch (type)] of [read_directory]: the element width and the
    count of raw elements, or [None] for the default case. *)
Definition value_size_and_count (type count : Z) : option (Z * Z) :=
  match type with
  | TIFF_BYTE | TIFF_ASCII | TIFF_SBYTE | TIFF_UNDEFINED => Some (1, count)
  | TIFF_SHORT | TIFF_SSHORT => Some (2, count)
  | TIFF_LONG | TIFF_SLONG | TIFF_FLOAT | TIFF_IFD => Some (4, count)
  | TIFF_RATIONAL | TIFF_SRATIONAL => Some (4, to_uint64 (count * 2))
  | TIFF_DOUBLE | TIFF_LONG8 | TIFF_SLONG8 | TIFF_IFD8 => Some (8, count)
  | _ => None
  end.

Definition bad_data (msg : string) : GError :=
  g_set_error OPENSLIDE_ERROR_BAD_DATA msg.

(** One turn of the entry loop of [read_directory], up to the insertion:
    the tag and its item, or the error the turn leaves through [FAIL] with. *)
Definition read_entry (bigtiff big_endian ok : bool) (st : state)
    : (GError + Z * tiff_item) * state :=
  let '(tag, ok, st) := read_uint 2 big_endian ok st in
  let '(type, ok, st) := read_uint 2 big_endian ok st in
  let '(count, ok, st) := read_uint (if bigtiff then 8 else 4) big_endian ok st in
  if negb ok then
    (inl (bad_data "Cannot read tag, type, and count"), st)
  else
    (* read in the value/offset *)
    let value_len := if bigtiff then 8 else 4 in
    match fread value_len st with
    | (None, st) => (inl (bad_data "Cannot read value/offset"), st)
    | (Some value, st) =>
        let offset := host_val (fix_byte_order value value_len 1 big_endian) in
        (* allocate the item *)
        let st := g_new st in
        let item_count := to_int64 count in
        (* load the value *)
        match value_size_and_count type count with
        | None =>
            (inl (bad_data ("Unknown type encountered: " +:+ pretty type)), st)
        | Some (value_size, count) =>
            match read_tiff_value value_size (to_int64 count) (to_int64 offset)
                    value value_len big_endian st with
            | (None, st) => (inl (bad_data "Cannot read value"), st)
            | (Some v, st) => (inr (tag, mk_item type item_count v), st)
            end
        end
    end.

(** The entry loop [for (n = 0; n < dircount; n++)].  A failing turn frees
    the table under construction ([FAIL]).  [None] only when [fuel] runs
    out. *)
Fixpoint read_entries (fuel : nat) (n dircount : Z) (bigtiff big_endian ok : bool)
    (result : gmap Z tiff_item) (st : state)
    : option ((GError + gmap Z tiff_item) * state) :=
  match fuel with
  | O => None
  | S fuel' =>
      if n <? dircount then
        match read_entry bigtiff big_endian ok st with
        | (inl e, st) => Some (inl e, g_hash_table_unref_items result st)
        | (inr (tag, item), st) =>
            (* add this tag to the hashtable *)
            let '(result, st) := g_hash_table_insert_item result tag item st in
            read_entries fuel' (n + 1) dircount bigtiff big_endian ok result st
        end
      else Some (inr result, st)
  end.

(** [read_directory]: the table or the error, the new [*diroff], the loop
    detector and the state. *)
Definition read_directory (diroff : Z) (loop_detector : gset Z)
    (bigtiff big_endian : bool) (st : state)
    : option ((GError + gmap Z tiff_item) * Z * gset Z * state) :=
  let off := diroff in
  let diroff := 0 in
  let ok := true in
  if off <=? 0 then
    Some (inl (bad_data "Bad offset"), diroff, loop_detector, st)
  else if decide (off ∈ loop_detector) then
    (* loop *)
    Some (inl (bad_data "Loop detected"), diroff, loop_detector, st)
  else
    let st := g_new st in
    let loop_detector := {[off]} ∪ loop_detector in
    (* no loop, let's seek *)
    match fseeko off st with
    | (0, st) =>
        (* read directory count *)
        let '(dircount, ok, st) :=
          read_uint (if bigtiff then 8 else 2) big_endian ok st in
        if negb ok then
          Some (inl (bad_data "Cannot read dircount"), diroff, loop_detector, st)
        else
          (* initial checks passed, initialize the hashtable *)
          let st := g_new st in
          (* read all directory entries *)
          match read_entries (S (length (f_bytes st))) 0 dircount
                  bigtiff big_endian ok ∅ st with
          | None => None
          | Some (inl e, st) => Some (inl e, diroff, loop_detector, st)
          | Some (inr result, st) =>
              (* read the next dir offset *)
              let '(nextdiroff, ok, st) :=
                read_uint (if bigtiff then 8 else 4) big_endian ok st in
              if negb ok then
                Some (inl (bad_data "Cannot read next directory offset"),
                      diroff, loop_detector,
                      g_hash_table_unref_items result st)
              else
                Some (inr result, to_int64 nextdiroff, loop_detector, st)
          end
    | (_, st) =>
        Some (inl (_openslide_io_error "Cannot seek to offset"),
              diroff, loop_detector, st)
    end.

(** The loop [while (diroff != 0)] of [_openslide_tifflike_create]: the
    error of the directory that failed, if one did, and the array
    [tl->directories] as it stands when the loop is left. *)
Fixpoint read_directories (fuel : nat) (diroff : Z) (loop_detector : gset Z)
    (bigtiff big_endian : bool) (dirs : list (gmap Z tiff_item)) (st : state)
    : option (option GError * list (gmap Z tiff_item) * gset Z * state) :=
  match fuel with
  | O => None
  | S fuel' =>
      if diroff =? 0 then Some (None, dirs, loop_detector, st)
      else
        (* read a directory *)
        match read_directory diroff loop_detector bigtiff big_endian st with
        | None => None
        | Some (inl e, _, loop_detector, st) =>
            Some (Some e, dirs, loop_detector, st)
        | Some (inr ht, diroff, loop_detector, st) =>
            (* add result to array *)
            read_directories fuel' diroff loop_detector bigtiff big_endian
              (dirs ++ [ht]) st
        end
  end.

(** [_openslide_tifflike_destroy]. *)
Definition _openslide_tifflike_destroy (dirs : list (gmap Z tiff_item))
    (st : state) : state :=
  let st := foldl (fun st ht => g_hash_table_unref_items ht st) st dirs in
  g_release 2 st.

Definition format_not_supported (msg : string) : GError :=
  g_set_error OPENSLIDE_ERROR_FORMAT_NOT_SUPPORTED msg.

(** The first part of [_openslide_tifflike_create], up to "validate":
    [bigtiff], [big_endian] and [diroff], or the error returned. *)
Definition read_header (st : state) : (GError + bool * bool * Z) * state :=
  (* read and check magic *)
  let st := snd (fseeko 0 st) in
  match fread 2 st with
  | (None, st) =>
      (inl (format_not_supported "Can't read TIFF magic number"), st)
  | (Some buf, st) =>
      let magic := host_val buf in
      if negb (magic =? TIFF_BIGENDIAN) && negb (magic =? TIFF_LITTLEENDIAN) then
        (inl (format_not_supported "Unrecognized TIFF magic number"), st)
      else
        let big_endian := magic =? TIFF_BIGENDIAN in
        (* read rest of header *)
        let ok := true in
        let '(version, ok, st) := read_uint 2 big_endian ok st in
        let bigtiff := version =? TIFF_VERSION_BIG in
        let '(offset_size, pad, ok, st) :=
          if bigtiff then
            let '(offset_size, ok, st) := read_uint 2 big_endian ok st in
            let '(pad, ok, st) := read_uint 2 big_endian ok st in
            (offset_size, pad, ok, st)
          else (0, 0, ok, st) in
        let '(diroff, ok, st) :=
          read_uint (if bigtiff then 8 else 4) big_endian ok st in
        let diroff := to_int64 diroff in
        if negb ok then
          (inl (format_not_supported "Can't read TIFF header"), st)
        (* validate *)
        else if version =? TIFF_VERSION_BIG then
          if negb (offset_size =? 8) || negb (pad =? 0) then
            (inl (format_not_supported "Unexpected value in BigTIFF header"), st)
          else (inr (bigtiff, big_endian, diroff), st)
        else if negb (version =? TIFF_VERSION_CLASSIC) then
          (inl (format_not_supported "Unrecognized TIFF version"), st)
        else (inr (bigtiff, big_endian, diroff), st)
  end.

(** [_openslide_tifflike_create]: the model or the error.  [None] only when
    one of the loops runs out of fuel. *)
Definition _openslide_tifflike_create (st : state)
    : option ((GError + _openslide_tifflike) * state) :=
  match read_header st with
  | (inl e, st) => Some (inl e, st)
  | (inr (bigtiff, big_endian, diroff), st) =>
      (* allocate struct, directory array and loop detector *)
      let st := g_new (g_new (g_new st)) in
      (* read all the directories *)
      match read_directories (S (length (f_bytes st))) diroff ∅
              bigtiff big_endian [] st with
      | None => None
      | Some (Some e, dirs, loop_detector, st) =>
          let st := _openslide_tifflike_destroy dirs st in
          Some (inl e, g_hash_table_unref_keys loop_detector st)
      | Some (None, dirs, loop_detector, st) =>
          (* ensure there are directories *)
          if Z.of_nat (length dirs) =? 0 then
            let st := _openslide_tifflike_destroy dirs st in
            Some (inl (bad_data "TIFF contains no directories"),
                  g_hash_table_unref_keys loop_detector st)
          else
            Some (inr (mk_tifflike dirs),
                  g_hash_table_unref_keys loop_detector st)
      end
  end.

(** ** Accessors *)

Definition get_item (tl : _openslide_tifflike) (dir tag : Z) : option tiff_item :=
  if (dir <? 0) || (dir >=? Z.of_nat (length (directories tl))) then None
  else
    match directories tl !! Z.to_nat dir with
    | Some ht => ht !! tag
    | None => None
    end.

Definition _openslide_tifflike_get_directory_count (tl : _openslide_tifflike) : Z :=
  Z.of_nat (length (directories tl)).

Definition _openslide_tifflike_get_value_count (tl : _openslide_tifflike)
    (dir tag : Z) : Z :=
  match get_item tl dir tag with
  | None => 0
  | Some item => count item
  end.

(** The flag behind [bool *ok]: [None] is a [NULL] pointer.  The accessors
    only ever clear it. *)
Definition clear_ok (ok : option bool) : option bool :=
  match ok with
  | Some _ => Some false
  | None => None
  end.

Definition get_and_check_item (tl : _openslide_tifflike) (dir tag i : Z)
    (ok : option bool) : option tiff_item * option bool :=
  match get_item tl dir tag with
  | None => (None, clear_ok ok)
  | Some item =>
      if (i <? 0) || (i >=? count item) then (None, clear_ok ok)
      else (Some item, ok)
  end.

(** The bytes of [((uintN_t * ) value)[i]] for elements of [w] bytes. *)
Definition elem_bytes (w : Z) (value : list byte) (i : Z) : list byte :=
  slice value (w * i) w.

Definition load_uint (w : Z) (value : list byte) (i : Z) : Z :=
  host_val (elem_bytes w value i).

Definition load_sint (w : Z) (value : list byte) (i : Z) : Z :=
  sign_extend w (load_uint w value i).

Definition _openslide_tifflike_get_uint (tl : _openslide_tifflike)
    (dir tag i : Z) (ok : option bool) : Z * option bool :=
  match get_and_check_item tl dir tag i ok with
  | (None, ok) => (0, ok)
  | (Some item, ok) =>
      match type item with
      | TIFF_BYTE => (load_uint 1 (value item) i, ok)
      | TIFF_SHORT => (load_uint 2 (value item) i, ok)
      | TIFF_LONG | TIFF_IFD => (load_uint 4 (value item) i, ok)
      | TIFF_LONG8 | TIFF_IFD8 => (load_uint 8 (value item) i, ok)
      | _ => (0, clear_ok ok)
      end
  end.

Definition _openslide_tifflike_get_sint (tl : _openslide_tifflike)
    (dir tag i : Z) (ok : option bool) : Z * option bool :=
  match get_and_check_item tl dir tag i ok with
  | (None, ok) => (0, ok)
  | (Some item, ok) =>
      match type item with
      | TIFF_SBYTE => (load_sint 1 (value item) i, ok)
      | TIFF_SSHORT => (load_sint 2 (value item) i, ok)
      | TIFF_SLONG => (load_sint 4 (value item) i, ok)
      | TIFF_SLONG8 => (load_sint 8 (value item) i, ok)
      | _ => (0, clear_ok ok)
      end
  end.

(** The IEEE 754 number with the given bit pattern, for a format with
    [mbits] mantissa bits and [ebits] exponent bits, as a [double] (both
    binary32 and binary64 numbers are doubles). *)
Definition float_of_bits (mbits ebits : Z) (x : Z) : float :=
  let s := Z.testbit x (mbits + ebits) in
  let e := (x / 2 ^ mbits) mod 2 ^ ebits in
  let m := x mod 2 ^ mbits in
  let bias := 2 ^ (ebits - 1) - 1 in
  SF2Prim
    (if e =? 0 then
       if m =? 0 then S754_zero s
       else S754_finite s (Z.to_pos m) (1 - bias - mbits)
     else if e =? 2 ^ ebits - 1 then
       if m =? 0 then S754_infinity s else S754_nan
     else S754_finite s (Z.to_pos (m + 2 ^ mbits)) (e - bias - mbits)).

(** [(double) x] for a [uint32_t] and for an [int32_t] (given by its bits). *)
Definition double_of_uint32 (x : Z) : float :=
  PrimFloat.of_uint63 (Uint63.of_Z x).

Definition double_of_int32 (x : Z) : float :=
  let v := sign_extend 4 x in
  if v <? 0 then PrimFloat.opp (PrimFloat.of_uint63 (Uint63.of_Z (- v)))
  else PrimFloat.of_uint63 (Uint63.of_Z v).

Definition NAN : float := PrimFloat.nan.

Definition _openslide_tifflike_get_float (tl : _openslide_tifflike)
    (dir tag i : Z) (ok : option bool) : float * option bool :=
  match get_and_check_item tl dir tag i ok with
  | (None, ok) => (NAN, ok)
  | (Some item, ok) =>
      match type item with
      | TIFF_FLOAT => (float_of_bits 23 8 (load_uint 4 (value item) i), ok)
      | TIFF_DOUBLE => (float_of_bits 52 11 (load_uint 8 (value item) i), ok)
      | TIFF_RATIONAL =>
          (* convert 2 longs into rational *)
          (PrimFloat.div (double_of_uint32 (load_uint 4 (value item) (i * 2)))
             (double_of_uint32 (load_uint 4 (value item) (i * 2 + 1))), ok)
      | TIFF_SRATIONAL =>
          (* convert 2 slongs into rational *)
          (PrimFloat.div (double_of_int32 (load_uint 4 (value item) (i * 2)))
             (double_of_int32 (load_uint 4 (value item) (i * 2 + 1))), ok)
      | _ => (NAN, clear_ok ok)
      end
  end.

Definition _openslide_tifflike_get_buffer (tl : _openslide_tifflike)
    (dir tag : Z) : option (list byte) :=
  match get_item tl dir tag with
  | None => None
  | Some item =>
      match type item with
      | TIFF_ASCII | TIFF_UNDEFINED => Some (value item)
      | _ => None
      end
  end.

(** ** The quickhash of one level *)

Section Quickhash.

(** The accumulator [struct _openslide_hash] and the two operations of
    [openslide-hash.c] that [hash_tiff_level] calls are not part of the
    sources at hand: they are parameters.  [_openslide_hash_file_part hash
    offset length] stands for the call on the file named [filename]; it
    gives the error, if it fails, and the accumulator it leaves. *)
Variable _openslide_hash : Type.
Variable _openslide_hash_disable : _openslide_hash -> _openslide_hash.
Variable _openslide_hash_file_part :
  _openslide_hash -> Z -> Z -> option GError * _openslide_hash.

(** The loop "check total size": [true] when the ceiling was passed, and the
    flag [ok] as the calls of [get_uint] leave it. *)
Fixpoint check_total_size (todo : nat) (i : Z) (tl : _openslide_tifflike)
    (dir length_tag : Z) (ok : option bool) (total : Z) : bool * option bool :=
  match todo with
  | O => (false, ok)
  | S todo' =>
      let '(v, ok) := _openslide_tifflike_get_uint tl dir length_tag i ok in
      let total := to_int64 (total + v) in
      if total >? 5 * 2 ^ 20 then (true, ok)
      else check_total_size todo' (i + 1) tl dir length_tag ok total
  end.

(** The loop "hash raw data of each tile/strip". *)
Fixpoint hash_tiles (todo : nat) (i : Z) (tl : _openslide_tifflike)
    (dir offset_tag length_tag : Z) (ok : option bool) (hash : _openslide_hash)
    : option GError * _openslide_hash :=
  match todo with
  | O => (None, hash)
  | S todo' =>
      let '(offset, ok) := _openslide_tifflike_get_uint tl dir offset_tag i ok in
      let '(length, ok) := _openslide_tifflike_get_uint tl dir length_tag i ok in
      match ok with
      | Some false =>
          (Some (bad_data ("Invalid tile/strip offset/length for directory "
                           +:+ pretty dir)), hash)
      | _ =>
          match _openslide_hash_file_part hash (to_int64 offset) (to_int64 length) with
          | (Some e, hash) => (Some e, hash)
          | (None, hash) =>
              hash_tiles todo' (i + 1) tl dir offset_tag length_tag ok hash
          end
      end
  end.

(** [hash_tiff_level]: [None] for [true], the error for [false]; and the
    accumulator. *)
Definition hash_tiff_level (hash : _openslide_hash) (tl : _openslide_tifflike)
    (dir : Z) : option GError * _openslide_hash :=
  (* determine layout *)
  let layout :=
    if negb (_openslide_tifflike_get_value_count tl dir TIFFTAG_TILEOFFSETS =? 0)
    then Some (TIFFTAG_TILEOFFSETS, TIFFTAG_TILEBYTECOUNTS)
    else if negb (_openslide_tifflike_get_value_count tl dir TIFFTAG_STRIPOFFSETS =? 0)
    then Some (TIFFTAG_STRIPOFFSETS, TIFFTAG_STRIPBYTECOUNTS)
    else None in
  match layout with
  | None =>
      (Some (bad_data ("Directory " +:+ pretty dir
                       +:+ " is neither tiled nor stripped")), hash)
  | Some (offset_tag, length_tag) =>
      (* get tile/strip count *)
      let count := _openslide_tifflike_get_value_count tl dir offset_tag in
      if (count =? 0)
         || negb (count =? _openslide_tifflike_get_value_count tl dir length_tag)
      then
        (Some (bad_data ("Invalid tile/strip counts for directory "
                         +:+ pretty dir)), hash)
      else
        (* check total size *)
        let ok := Some true in
        match check_total_size (Z.to_nat count) 0 tl dir length_tag ok 0 with
        | (true, _) => (None, _openslide_hash_disable hash)
        | (false, ok) =>
            hash_tiles (Z.to_nat count) 0 tl dir offset_tag length_tag ok hash
        end
  end.

(** Hashing parts of the file one after the other, each given by its offset
    and its length, up to the first one that fails. *)
Fixpoint hash_parts (parts : list (Z * Z)) (hash : _openslide_hash)
    : option GError * _openslide_hash :=
  match parts with
  | [] => (None, hash)
  | (offset, length) :: parts' =>
      match _openslide_hash_file_part hash offset length with
      | (Some e, hash) => (Some e, hash)
      | (None, hash) => hash_parts parts' hash
      end
  end.

End Quickhash.

(** ** Properties *)

(** [g_strdup] of the C string that starts a heap block: the characters
    before the first NUL.  [None] when the block holds no NUL, in which case
    the copy would run past the end of the block. *)
Fixpoint g_strdup (buf : list byte) : option string :=
  match buf with
  | [] => None
  | b :: buf' =>
      if decide (b = Byte.x00) then Some EmptyString
      else String (Ascii.ascii_of_byte b) <$> g_strdup buf'
  end.

Section Properties.

(** [_openslide_hash_string] and the two other operations on the
    accumulator, [_openslide_format_double] of [openslide-util.c] and the
    property name [OPENSLIDE_PROPERTY_NAME_COMMENT] of [openslide.h] are not
    part of the sources at hand: they are parameters.  A [NULL] string is
    [None].  The property table maps names to values; of the handle
    [openslide_t] only its property table is used, so a handle is its table,
    and [None] is the [NULL] handle.  The functions give [None] when a
    [g_strdup] has no result. *)
Variable _openslide_hash : Type.
Variable _openslide_hash_string : _openslide_hash -> option string -> _openslide_hash.
Variable _openslide_hash_disable : _openslide_hash -> _openslide_hash.
Variable _openslide_hash_file_part :
  _openslide_hash -> Z -> Z -> option GError * _openslide_hash.
Variable _openslide_format_double : float -> string.
Variable OPENSLIDE_PROPERTY_NAME_COMMENT : string.

(** [store_string_property]: the value stored, [None] for [NULL], and the
    table. *)
Definition store_string_property (tl : _openslide_tifflike) (dir : Z)
    (ht : gmap string string) (name : string) (tag : Z)
    : option (option string * gmap string string) :=
  match _openslide_tifflike_get_buffer tl dir tag with
  | None => Some (None, ht)
  | Some buf =>
      value ← g_strdup buf;
      Some (Some value, <[name := value]> ht)
  end.

Definition store_and_hash_string_property (tl : _openslide_tifflike) (dir : Z)
    (ht : gmap string string) (quickhash1 : _openslide_hash) (name : string)
    (tag : Z) : option (gmap string string * _openslide_hash) :=
  let quickhash1 := _openslide_hash_string quickhash1 (Some name) in
  '(value, ht) ← store_string_property tl dir ht name tag;
  Some (ht, _openslide_hash_string quickhash1 value).

Definition store_float_property (tl : _openslide_tifflike) (dir : Z)
    (ht : gmap string string) (name : string) (tag : Z) : gmap string string :=
  let ok := Some true in
  let '(value, ok) := _openslide_tifflike_get_float tl dir tag 0 ok in
  match ok with
  | Some true => <[name := _openslide_format_double value]> ht
  | _ => ht
  end.

Definition store_and_hash_properties (tl : _openslide_tifflike) (dir : Z)
    (ht : gmap string string) (quickhash1 : _openslide_hash)
    : option (gmap string string * _openslide_hash) :=
  (* strings *)
  '(_, ht) ← store_string_property tl dir ht OPENSLIDE_PROPERTY_NAME_COMMENT
               TIFFTAG_IMAGEDESCRIPTION;
  (* strings to store and hash *)
  '(ht, quickhash1) ← store_and_hash_string_property tl dir ht quickhash1
                        "tiff.ImageDescription" TIFFTAG_IMAGEDESCRIPTION;
  '(ht, quickhash1) ← store_and_hash_string_property tl dir ht quickhash1
                        "tiff.Make" TIFFTAG_MAKE;
  '(ht, quickhash1) ← store_and_hash_string_property tl dir ht quickhash1
                        "tiff.Model" TIFFTAG_MODEL;
  '(ht, quickhash1) ← store_and_hash_string_property tl dir ht quickhash1
                        "tiff.Software" TIFFTAG_SOFTWARE;
  '(ht, quickhash1) ← store_and_hash_string_property tl dir ht quickhash1
                        "tiff.DateTime" TIFFTAG_DATETIME;
  '(ht, quickhash1) ← store_and_hash_string_property tl dir ht quickhash1
                        "tiff.Artist" TIFFTAG_ARTIST;
  '(ht, quickhash1) ← store_and_hash_string_property tl dir ht quickhash1
                        "tiff.HostComputer" TIFFTAG_HOSTCOMPUTER;
  '(ht, quickhash1) ← store_and_hash_string_property tl dir ht quickhash1
                        "tiff.Copyright" TIFFTAG_COPYRIGHT;
  '(ht, quickhash1) ← store_and_hash_string_property tl dir ht quickhash1
                        "tiff.DocumentName" TIFFTAG_DOCUMENTNAME;
  (* don't hash floats, they might be unstable over time *)
  let ht := store_float_property tl dir ht "tiff.XResolution" TIFFTAG_XRESOLUTION in
  let ht := store_float_property tl dir ht "tiff.YResolution" TIFFTAG_YRESOLUTION in
  let ht := store_float_property tl dir ht "tiff.XPosition" TIFFTAG_XPOSITION in
  let ht := store_float_property tl dir ht "tiff.YPosition" TIFFTAG_YPOSITION in
  (* special *)
  let ok := Some true in
  let '(resolution_unit, ok) :=
    _openslide_tifflike_get_uint tl dir TIFFTAG_RESOLUTIONUNIT 0 ok in
  let resolution_unit := to_int64 resolution_unit in
  let resolution_unit :=
    match ok with
    | Some true => resolution_unit
    | _ => RESUNIT_INCH (* default *)
    end in
  let result :=
    match resolution_unit with
    | RESUNIT_NONE => "none"
    | RESUNIT_INCH => "inch"
    | RESUNIT_CENTIMETER => "centimeter"
    | _ => "unknown"
    end in
  Some (<["tiff.ResolutionUnit" := result]> ht, quickhash1).

(** [_openslide_tifflike_init_properties_and_hash]: [None] for [true] or
    the error for [false], the handle and the accumulator. *)
Definition _openslide_tifflike_init_properties_and_hash
    (osr : option (gmap string string)) (tl : _openslide_tifflike)
    (quickhash1 : _openslide_hash) (lowest_resolution_level property_dir : Z)
    : option (option GError * option (gmap string string) * _openslide_hash) :=
  match osr with
  | None => Some (None, osr, quickhash1)
  | Some properties =>
      (* generate hash of the smallest level *)
      match hash_tiff_level _openslide_hash _openslide_hash_disable
              _openslide_hash_file_part quickhash1 tl lowest_resolution_level with
      | (Some e, quickhash1) =>
          Some (Some (g_prefix_error "Cannot hash TIFF tiles: " e), osr, quickhash1)
      | (None, quickhash1) =>
          (* load TIFF properties *)
          '(properties, quickhash1) ←
            store_and_hash_properties tl property_dir properties quickhash1;
          Some (None, Some properties, quickhash1)
      end
  end.

(** Storing a value in the table when there is one. *)
Definition maybe_insert (name : string) (value : option string)
    (ht : gmap string string) : gmap string string :=
  match value with
  | Some v => <[name := v]> ht
  | None => ht
  end.

(** The string found under a tag, when the tag has a buffer with a NUL in
    it; and the tags whose buffer, if they have one, has a NUL in it. *)
Definition prop_value (tl : _openslide_tifflike) (dir tag : Z) : option string :=
  _openslide_tifflike_get_buffer tl dir tag ≫= g_strdup.

Definition prop_defined (tl : _openslide_tifflike) (dir tag : Z) : Prop :=
  forall buf, _openslide_tifflike_get_buffer tl dir tag = Some buf -> Byte.x00 ∈ buf.

(** The formatted number found under a tag, when [get_float] succeeds at
    index 0. *)
Definition float_value (tl : _openslide_tifflike) (dir tag : Z) : option string :=
  match _openslide_tifflike_get_float tl dir tag 0 (Some true) with
  | (v, Some true) => Some (_openslide_format_double v)
  | _ => None
  end.

(** The properties that [store_and_hash_properties] stores and hashes, in
    order, and the ones it stores without hashing. *)
Definition tiff_string_properties : list (string * Z) :=
  [("tiff.ImageDescription", TIFFTAG_IMAGEDESCRIPTION);
   ("tiff.Make", TIFFTAG_MAKE);
   ("tiff.Model", TIFFTAG_MODEL);
   ("tiff.Software", TIFFTAG_SOFTWARE);
   ("tiff.DateTime", TIFFTAG_DATETIME);
   ("tiff.Artist", TIFFTAG_ARTIST);
   ("tiff.HostComputer", TIFFTAG_HOSTCOMPUTER);
   ("tiff.Copyright", TIFFTAG_COPYRIGHT);
   ("tiff.DocumentName", TIFFTAG_DOCUMENTNAME)].

Definition tiff_float_properties : list (string * Z) :=
  [("tiff.XResolution", TIFFTAG_XRESOLUTION);
   ("tiff.YResolution", TIFFTAG_YRESOLUTION);
   ("tiff.XPosition", TIFFTAG_XPOSITION);
   ("tiff.YPosition", TIFFTAG_YPOSITION)].

(** The name of the resolution unit stored for a directory. *)
Definition resolution_unit_name (tl : _openslide_tifflike) (dir : Z) : string :=
  match _openslide_tifflike_get_uint tl dir TIFFTAG_RESOLUTIONUNIT 0 (Some true) with
  | (v, Some true) =>
      if decide (v = 1) then "none"
      else if decide (v = 2) then "inch"
      else if decide (v = 3) then "centimeter"
      else "unknown"
  | _ => "inch"
  end.

(** The table and the accumulator that [store_and_hash_properties] leaves,
    written out. *)
Definition stored_properties (tl : _openslide_tifflike) (dir : Z)
    (ht : gmap string string) : gmap string string :=
  let ht := maybe_insert OPENSLIDE_PROPERTY_NAME_COMMENT
              (prop_value tl dir TIFFTAG_IMAGEDESCRIPTION) ht in
  let ht := foldl (fun ht p => maybe_insert p.1 (prop_value tl dir p.2) ht)
              ht tiff_string_properties in
  let ht := foldl (fun ht p => maybe_insert p.1 (float_value tl dir p.2) ht)
              ht tiff_float_properties in
  <["tiff.ResolutionUnit" := resolution_unit_name tl dir]> ht.

Definition hashed_properties (tl : _openslide_tifflike) (dir : Z)
    (quickhash1 : _openslide_hash) : _openslide_hash :=
  foldl (fun h p => _openslide_hash_string (_openslide_hash_string h (Some p.1))
                      (prop_value tl dir p.2))
    quickhash1 tiff_string_properties.

End Properties.

(** ** Printing a model *)

(** What reaches the outside: the calls of [printf] with their arguments,
    and the warning of [g_return_if_reached]. *)
Inductive printf_arg :=
  | arg_int (z : Z)
  | arg_uint (z : Z)
  | arg_string (s : string)
  | arg_double (x : float).

Inductive out_event :=
  | printf_call (format : string) (args : list printf_arg)
  | g_return_if_reached_call.

(** What stops the program or leaves the language: a failed [g_assert], a
    read outside a buffer or an array. *)
Inductive fault :=
  | assertion_failed
  | out_of_bounds.

Definition printf (format : string) (args : list printf_arg)
    (out : list out_event) : list out_event :=
  out ++ [printf_call format args].

(** The string that a backslash n stands for. *)
Definition nl : string :=
  Eval cbv in String (Ascii.ascii_of_nat 10) EmptyString.

(** [GPOINTER_TO_INT]: the low 32 bits, as an [int]. *)
Definition GPOINTER_TO_INT (p : Z) : Z := sign_extend 4 (p mod 2 ^ 32).

Definition tag_compare (a b : Z) : Z :=
  let aa := GPOINTER_TO_INT a in
  let bb := GPOINTER_TO_INT b in
  if aa <? bb then -1
  else if aa >? bb then 1
  else 0.

(** The order that [g_list_sort] sorts the keys in. *)
Definition tag_before (a b : Z) : Prop := tag_compare a b <= 0.

#[global] Instance tag_before_dec a b : Decision (tag_before a b).
Proof. unfold tag_before. apply _. Defined.

Section Print.

(** The format macros of [glibconfig.h], which depend on the platform. *)
Variables G_GINT64_FORMAT G_GUINT64_FORMAT G_GINT64_MODIFIER : string.

(** The loop over an Undefined value of [print_tag]. *)
Fixpoint print_bytes (todo : nat) (i : Z) (data : list byte)
    (out : list out_event) : fault + list out_event :=
  match todo with
  | O => inr out
  | S todo' =>
      match data !! Z.to_nat i with
      | None => inl out_of_bounds
      | Some b =>
          print_bytes todo' (i + 1) data (printf " %u" [arg_uint (byte_val b)] out)
      end
  end.

(** The loop over the elements of a number of [print_tag]: [false] when
    [g_return_if_reached] left the function. *)
Fixpoint print_elements (todo : nat) (i : Z) (tl : _openslide_tifflike)
    (dir tag type : Z) (out : list out_event) : bool * list out_event :=
  match todo with
  | O => (true, out)
  | S todo' =>
      match type with
      | TIFF_BYTE | TIFF_SHORT | TIFF_LONG | TIFF_LONG8 =>
          print_elements todo' (i + 1) tl dir tag type
            (printf (" %" +:+ G_GUINT64_FORMAT)
               [arg_uint (fst (_openslide_tifflike_get_uint tl dir tag i None))] out)
      | TIFF_IFD | TIFF_IFD8 =>
          print_elements todo' (i + 1) tl dir tag type
            (printf (" %.16" +:+ G_GINT64_MODIFIER +:+ "x")
               [arg_uint (fst (_openslide_tifflike_get_uint tl dir tag i None))] out)
      | TIFF_SBYTE | TIFF_SSHORT | TIFF_SLONG | TIFF_SLONG8 =>
          print_elements todo' (i + 1) tl dir tag type
            (printf (" %" +:+ G_GINT64_FORMAT)
               [arg_int (fst (_openslide_tifflike_get_sint tl dir tag i None))] out)
      | TIFF_FLOAT | TIFF_DOUBLE | TIFF_RATIONAL | TIFF_SRATIONAL =>
          print_elements todo' (i + 1) tl dir tag type
            (printf " %g"
               [arg_double (fst (_openslide_tifflike_get_float tl dir tag i None))] out)
      | _ => (false, out ++ [g_return_if_reached_call])
      end
  end.

Definition print_tag (tl : _openslide_tifflike) (dir tag : Z)
    (out : list out_event) : fault + list out_event :=
  match get_item tl dir tag with
  | None => inl assertion_failed
  | Some item =>
      let out :=
        printf (" %d: type: %d, count: %" +:+ G_GINT64_FORMAT +:+ nl +:+ " ")
          [arg_int tag; arg_int (type item); arg_int (count item)] out in
      if type item =? TIFF_ASCII then
        (* will only print first string if there are multiple *)
        match _openslide_tifflike_get_buffer tl dir tag with
        | None => inl out_of_bounds
        | Some str =>
            if count item - 1 <? 0 then inl out_of_bounds
            else
              match str !! Z.to_nat (count item - 1) with
              | None => inl out_of_bounds
              | Some c =>
                  (* "%s" prints the characters before the first NUL *)
                  match (if decide (c = Byte.x00) then g_strdup str
                         else Some "<not null-terminated>") with
                  | None => inl out_of_bounds
                  | Some s => inr (printf nl [] (printf " %s" [arg_string s] out))
                  end
              end
        end
      else if type item =? TIFF_UNDEFINED then
        match _openslide_tifflike_get_buffer tl dir tag with
        | None => inl out_of_bounds
        | Some data =>
            match print_bytes (Z.to_nat (count item)) 0 data out with
            | inl f => inl f
            | inr out => inr (printf nl [] out)
            end
        end
      else
        match print_elements (Z.to_nat (count item)) 0 tl dir tag (type item) out with
        | (false, out) => inr out
        | (true, out) => inr (printf nl [] out)
        end
  end.

(** The loop of [print_directory] over the sorted keys. *)
Fixpoint print_tags (tl : _openslide_tifflike) (dir : Z) (keys : list Z)
    (out : list out_event) : fault + list out_event :=
  match keys with
  | [] => inr out
  | el :: keys' =>
      match print_tag tl dir (GPOINTER_TO_INT el) out with
      | inl f => inl f
      | inr out => print_tags tl dir keys' out
      end
  end.

(** [print_directory].  [g_hash_table_get_keys] gives the keys in an order
    of its own; [g_list_sort] puts [a] before [b] when [tag_compare a b] is
    not positive. *)
Definition print_directory (tl : _openslide_tifflike) (dir : Z)
    (out : list out_event) : fault + list out_event :=
  if dir <? 0 then inl out_of_bounds
  else
    match directories tl !! Z.to_nat dir with
    | None => inl out_of_bounds
    | Some ht =>
        let keys := (map_to_list ht).*1 in
        let keys := merge_sort tag_before keys in
        match print_tags tl dir keys out with
        | inl f => inl f
        | inr out => inr (printf nl [] out)
        end
    end.

Fixpoint print_directories (todo : nat) (n : Z) (tl : _openslide_tifflike)
    (out : list out_event) : fault + list out_event :=
  match todo with
  | O => inr out
  | S todo' =>
      let out := printf ("Directory %u" +:+ nl) [arg_uint n] out in
      match print_directory tl n out with
      | inl f => inl f
      | inr out => print_directories todo' (n + 1) tl out
      end
  end.

Definition _openslide_tifflike_print (tl : _openslide_tifflike)
    (out : list out_event) : fault + list out_event :=
  print_directories (length (directories tl)) 0 tl out.

End Print.

(** ** The accessors as reads of memory *)

(** The accessors above give the values that the C functions return.  The
    definitions below follow the same functions and keep the reads that they
    make in view: the array [tl->directories->pdata] has one slot for each
    directory of the model, and the block behind [item->value] has the
    length of the value buffer.  A read outside the array or outside the
    block leaves the language: it is a fault. *)

(** [tl->directories->pdata[dir]]. *)
Definition pdata_read (tl : _openslide_tifflike) (dir : Z)
    : fault + gmap Z tiff_item :=
  if dir <? 0 then inl out_of_bounds
  else
    match directories tl !! Z.to_nat dir with
    | None => inl out_of_bounds
    | Some ht => inr ht
    end.

(** [get_item]: [g_hash_table_lookup] in the table read from the array. *)
Definition get_item_mem (tl : _openslide_tifflike) (dir tag : Z)
    : fault + option tiff_item :=
  if (dir <? 0) || (dir >=? Z.of_nat (length (directories tl))) then inr None
  else
    match pdata_read tl dir with
    | inl f => inl f
    | inr ht => inr (ht !! tag)
    end.

Definition _openslide_tifflike_get_value_count_mem (tl : _openslide_tifflike)
    (dir tag : Z) : fault + Z :=
  match get_item_mem tl dir tag with
  | inl f => inl f
  | inr None => inr 0
  | inr (Some item) => inr (count item)
  end.

Definition get_and_check_item_mem (tl : _openslide_tifflike) (dir tag i : Z)
    (ok : option bool) : fault + option tiff_item * option bool :=
  match get_item_mem tl dir tag with
  | inl f => inl f
  | inr None => inr (None, clear_ok ok)
  | inr (Some item) =>
      if (i <? 0) || (i >=? count item) then inr (None, clear_ok ok)
      else inr (Some item, ok)
  end.

(** [((uintN_t * ) value)[i]] for elements of [w] bytes: the element has to
    lie inside the block. *)
Definition load_uint_mem (w : Z) (value : list byte) (i : Z) : fault + Z :=
  if (0 <=? w * i) && (w * i + w <=? Z.of_nat (length value)) then
    inr (load_uint w value i)
  else inl out_of_bounds.

Definition load_sint_mem (w : Z) (value : list byte) (i : Z) : fault + Z :=
  sum_map id (sign_extend w) (load_uint_mem w value i).

Definition _openslide_tifflike_get_uint_mem (tl : _openslide_tifflike)
    (dir tag i : Z) (ok : option bool) : fault + Z * option bool :=
  match get_and_check_item_mem tl dir tag i ok with
  | inl f => inl f
  | inr (None, ok) => inr (0, ok)
  | inr (Some item, ok) =>
      match type item with
      | TIFF_BYTE => sum_map id (fun v => (v, ok)) (load_uint_mem 1 (value item) i)
      | TIFF_SHORT => sum_map id (fun v => (v, ok)) (load_uint_mem 2 (value item) i)
      | TIFF_LONG | TIFF_IFD =>
          sum_map id (fun v => (v, ok)) (load_uint_mem 4 (value item) i)
      | TIFF_LONG8 | TIFF_IFD8 =>
          sum_map id (fun v => (v, ok)) (load_uint_mem 8 (value item) i)
      | _ => inr (0, clear_ok ok)
      end
  end.

Definition _openslide_tifflike_get_sint_mem (tl : _openslide_tifflike)
    (dir tag i : Z) (ok : option bool) : fault + Z * option bool :=
  match get_and_check_item_mem tl dir tag i ok with
  | inl f => inl f
  | inr (None, ok) => inr (0, ok)
  | inr (Some item, ok) =>
      match type item with
      | TIFF_SBYTE => sum_map id (fun v => (v, ok)) (load_sint_mem 1 (value item) i)
      | TIFF_SSHORT => sum_map id (fun v => (v, ok)) (load_sint_mem 2 (value item) i)
      | TIFF_SLONG => sum_map id (fun v => (v, ok)) (load_sint_mem 4 (value item) i)
      | TIFF_SLONG8 => sum_map id (fun v => (v, ok)) (load_sint_mem 8 (value item) i)
      | _ => inr (0, clear_ok ok)
      end
  end.

Definition _openslide_tifflike_get_float_mem (tl : _openslide_tifflike)
    (dir tag i : Z) (ok : option bool) : fault + float * option bool :=
  match get_and_check_item_mem tl dir tag i ok with
  | inl f => inl f
  | inr (None, ok) => inr (NAN, ok)
  | inr (Some item, ok) =>
      match type item with
      | TIFF_FLOAT =>
          sum_map id (fun v => (float_of_bits 23 8 v, ok))
            (load_uint_mem 4 (value item) i)
      | TIFF_DOUBLE =>
          sum_map id (fun v => (float_of_bits 52 11 v, ok))
            (load_uint_mem 8 (value item) i)
      | TIFF_RATIONAL =>
          match load_uint_mem 4 (value item) (i * 2),
                load_uint_mem 4 (value item) (i * 2 + 1) with
          | inr num, inr den =>
              inr (PrimFloat.div (double_of_uint32 num) (double_of_uint32 den), ok)
          | inl f, _ | _, inl f => inl f
          end
      | TIFF_SRATIONAL =>
          match load_uint_mem 4 (value item) (i * 2),
                load_uint_mem 4 (value item) (i * 2 + 1) with
          | inr num, inr den =>
              inr (PrimFloat.div (double_of_int32 num) (double_of_int32 den), ok)
          | inl f, _ | _, inl f => inl f
          end
      | _ => inr (NAN, clear_ok ok)
      end
  end.

(** [_openslide_tifflike_get_buffer] returns the pointer [item->value] and
    reads nothing behind it. *)
Definition _openslide_tifflike_get_buffer_mem (tl : _openslide_tifflike)
    (dir tag : Z) : fault + option (list byte) :=
  match get_item_mem tl dir tag with
  | inl f => inl f
  | inr None => inr None
  | inr (Some item) =>
      match type item with
      | TIFF_ASCII | TIFF_UNDEFINED => inr (Some (value item))
      | _ => inr None
      end
  end.

(** ** The stream wrapper of [openslide-file.c] *)

Section File.

(** The streams of the C library are not part of the sources: [FILE] and
    [fread] are parameters.  [libc_fread n fp] stands for
    [fread(ptr, 1, n, fp)]: the bytes it stores, as many as it returns, and
    the stream it leaves. *)
Variable FILE : Type.
Variable libc_fread : Z -> FILE -> list byte * FILE.

(** The loop of [_openslide_fread]; [buf] holds the [total] bytes read so
    far.  [None] only when [fuel] runs out. *)
Fixpoint _openslide_fread_loop (fuel : nat) (size : Z) (buf : list byte)
    (fp : FILE) : option (list byte * FILE) :=
  match fuel with
  | O => None
  | S fuel' =>
      let total := Z.of_nat (length buf) in
      if total <? size then
        let '(chunk, fp) := libc_fread (size - total) fp in
        let count := Z.of_nat (length chunk) in
        if count =? 0 then Some (buf, fp)
        else _openslide_fread_loop fuel' size (buf ++ chunk) fp
      else Some (buf, fp)
  end.

(** [_openslide_fread]: the bytes stored in the buffer, as many as the call
    returns, and the stream. *)
Definition _openslide_fread (fp : FILE) (size : Z) : option (list byte * FILE) :=
  _openslide_fread_loop (S (Z.to_nat size)) size [] fp.

End File.

(** ** Proof-side vocabulary *)

(** The value of an integer field as the file writes it. *)
Definition file_val (big_endian : bool) (elem : list byte) : Z :=
  if big_endian then be_val elem else le_val elem.

(** The byte swap that [fix_byte_order] applies to one element. *)
Definition swap_elem (big_endian : bool) (elem : list byte) : list byte :=
  if big_endian then GUINT_FROM_BE elem else GUINT_FROM_LE elem.

(** The widths of the integer and floating-point types of the format. *)
Definition int_size (size : Z) : Prop :=
  size = 1 \/ size = 2 \/ size = 4 \/ size = 8.

(** [size] bytes can be read at the cursor. *)
Definition readable (size : Z) (st : state) : Prop :=
  0 <= f_pos st /\ f_pos st + size <= f_size st.

(** The layout of a directory entry: tag (2 bytes), type (2 bytes), count
    and value/offset field (4 bytes each, 8 in BigTIFF). *)
Definition field_len (bigtiff : bool) : Z := if bigtiff then 8 else 4.
Definition entry_size (bigtiff : bool) : Z := 4 + 2 * field_len bigtiff.

Definition entry_tag (big_endian : bool) (st : state) : Z :=
  file_val big_endian (slice (f_bytes st) (f_pos st) 2).
Definition entry_type (big_endian : bool) (st : state) : Z :=
  file_val big_endian (slice (f_bytes st) (f_pos st + 2) 2).
Definition entry_count (bigtiff big_endian : bool) (st : state) : Z :=
  file_val big_endian (slice (f_bytes st) (f_pos st + 4) (field_len bigtiff)).
Definition entry_inline (bigtiff : bool) (st : state) : list byte :=
  slice (f_bytes st) (f_pos st + 4 + field_len bigtiff) (field_len bigtiff).

(** The state once the four fields of an entry are read and its item is
    allocated. *)
Definition after_entry_fields (bigtiff : bool) (st : state) : state :=
  mkState (f_bytes st) (f_pos st + entry_size bigtiff)
    (f_log st ++ [fread_call 2; fread_call 2; fread_call (field_len bigtiff);
                  fread_call (field_len bigtiff)])
    (heap_live st + 1).

Fixpoint starts_with (p s : string) : bool :=
  match p, s with
  | EmptyString, _ => true
  | String a p', String b s' => Ascii.eqb a b && starts_with p' s'
  | String _ _, EmptyString => false
  end.

(** Errors raised while an entry's item is allocated but not yet stored in
    the table: the item record is still live when [FAIL] is reached. *)
Definition item_in_flight (e : GError) : Z :=
  if starts_with "Unknown type encountered: " (message e)
     || String.eqb (message e) "Cannot read value"
  then 1 else 0.

(** The entry found at index [pos] of the file, as [read_entry] decodes it. *)
Definition entry_at (bigtiff big_endian : bool) (bytes : list byte) (pos : Z)
    : GError + Z * tiff_item :=
  fst (read_entry bigtiff big_endian true (mkState bytes pos [] 0)).

(** The first [k] entries from index [pos] on, in file order, up to the
    first one that does not decode. *)
Fixpoint dir_entries (bigtiff big_endian : bool) (bytes : list byte) (k : nat)
    (pos : Z) : list (Z * tiff_item) :=
  match k with
  | O => []
  | S k' =>
      match entry_at bigtiff big_endian bytes pos with
      | inr e => e :: dir_entries bigtiff big_endian bytes k' (pos + entry_size bigtiff)
      | inl _ => []
      end
  end.

(** Storing entries in a table one after the other. *)
Definition insert_entries (ht : gmap Z tiff_item) (es : list (Z * tiff_item))
    : gmap Z tiff_item :=
  foldl (fun m e => <[e.1 := e.2]> m) ht es.

(** The invariant of a stored item: a known type, and a buffer that holds
    exactly the raw elements counted by [read_tiff_value]. *)
Definition item_wf (it : tiff_item) : Prop :=
  exists sz c,
    value_size_and_count (type it) (count it mod 2 ^ 64) = Some (sz, c)
    /\ 0 < to_int64 c
    /\ Z.of_nat (length (value it)) = sz * to_int64 c
    /\ - 2 ^ 63 <= count it < 2 ^ 63.

(** The element width of a known type. *)
Definition type_width (type : Z) : option Z :=
  match value_size_and_count type 0 with
  | Some (sz, _) => Some sz
  | None => None
  end.

(** The number of raw elements of an entry, after the doubling of
    Rational and SRational counts, as an integer (no wrap-around). *)
Definition elem_count (type raw : Z) : Z :=
  match type with
  | TIFF_RATIONAL | TIFF_SRATIONAL => raw * 2
  | _ => raw
  end.

(** Rational and SRational: two raw elements per logical element. *)
Definition is_rational (type : Z) : Prop :=
  type = TIFF_RATIONAL \/ type = TIFF_SRATIONAL.

(** The ceiling of the quickhash, [5 << 20]. *)
Definition hash_ceiling : Z := 5 * 2 ^ 20.

(** The byte count that the pre-scan of [hash_tiff_level] adds for index
    [k]: what [get_uint] returns for it. *)
Definition byte_count (tl : _openslide_tifflike) (dir length_tag k : Z) : Z :=
  fst (_openslide_tifflike_get_uint tl dir length_tag k None).

(** The sum of the [n] byte counts from index [k] on, as an integer. *)
Fixpoint sum_counts (tl : _openslide_tifflike) (dir length_tag : Z) (n : nat)
    (k : Z) : Z :=
  match n with
  | O => 0
  | S n' => byte_count tl dir length_tag k + sum_counts tl dir length_tag n' (k + 1)
  end.

(** The layout that [hash_tiff_level] settles on: tiles when the directory
    has tile offsets, else strips when it has strip offsets. *)
Definition tile_layout (tl : _openslide_tifflike) (dir offset_tag length_tag : Z)
    : Prop :=
  (_openslide_tifflike_get_value_count tl dir TIFFTAG_TILEOFFSETS <> 0
   /\ offset_tag = TIFFTAG_TILEOFFSETS /\ length_tag = TIFFTAG_TILEBYTECOUNTS)
  \/ (_openslide_tifflike_get_value_count tl dir TIFFTAG_TILEOFFSETS = 0
      /\ _openslide_tifflike_get_value_count tl dir TIFFTAG_STRIPOFFSETS <> 0
      /\ offset_tag = TIFFTAG_STRIPOFFSETS /\ length_tag = TIFFTAG_STRIPBYTECOUNTS).

(** The tiles or strips of a directory, in index order: for each of the
    first [n] indices, the offset and the byte count that [get_uint] returns,
    as the [int64_t] variables of [hash_tiff_level] hold them. *)
Definition tile_parts (tl : _openslide_tifflike) (dir offset_tag length_tag : Z)
    (n : Z) : list (Z * Z) :=
  map (fun i => (to_int64 (byte_count tl dir offset_tag i),
                 to_int64 (byte_count tl dir length_tag i))) (seqZ 0 n).

(** The width of a directory's count field. *)
Definition count_len (bigtiff : bool) : Z := if bigtiff then 8 else 2.

(** The fields of the directory found at index [off] of the file. *)
Definition dir_count (bigtiff big_endian : bool) (bytes : list byte) (off : Z) : Z :=
  file_val big_endian (slice bytes off (count_len bigtiff)).

Definition dir_entry_list (bigtiff big_endian : bool) (bytes : list byte) (off : Z)
    : list (Z * tiff_item) :=
  dir_entries bigtiff big_endian bytes
    (Z.to_nat (dir_count bigtiff big_endian bytes off)) (off + count_len bigtiff).

Definition dir_next_pos (bigtiff big_endian : bool) (bytes : list byte) (off : Z) : Z :=
  off + count_len bigtiff + entry_size bigtiff * dir_count bigtiff big_endian bytes off.

Definition dir_next (bigtiff big_endian : bool) (bytes : list byte) (off : Z) : Z :=
  to_int64 (file_val big_endian
              (slice bytes (dir_next_pos bigtiff big_endian bytes off) (field_len bigtiff))).

(** The directory at [off] is complete: its count field, every one of its
    entries and its next-offset field can be read and decoded. *)
Definition dir_complete (bigtiff big_endian : bool) (bytes : list byte) (off : Z) : Prop :=
  off + count_len bigtiff <= Z.of_nat (length bytes)
  /\ length (dir_entry_list bigtiff big_endian bytes off)
     = Z.to_nat (dir_count bigtiff big_endian bytes off)
  /\ dir_next_pos bigtiff big_endian bytes off + field_len bigtiff
     <= Z.of_nat (length bytes).

(** The directory walk as a relation: from the offset, the loop detector,
    the array and the state at the head of the loop, to what the loop leaves
    (the error of the directory that failed, if one did). *)
Inductive walk (bigtiff big_endian : bool)
    : Z -> gset Z -> list (gmap Z tiff_item) -> state ->
      option GError -> list (gmap Z tiff_item) -> gset Z -> state -> Prop :=
  | walk_done ld dirs st :
      walk bigtiff big_endian 0 ld dirs st None dirs ld st
  | walk_fail diroff ld dirs st e next ld' st' :
      diroff <> 0 ->
      read_directory diroff ld bigtiff big_endian st = Some (inl e, next, ld', st') ->
      walk bigtiff big_endian diroff ld dirs st (Some e) dirs ld' st'
  | walk_next diroff ld dirs st ht next ld1 st1 err dirs' ld' st' :
      diroff <> 0 ->
      read_directory diroff ld bigtiff big_endian st = Some (inr ht, next, ld1, st1) ->
      walk bigtiff big_endian next ld1 (dirs ++ [ht]) st1 err dirs' ld' st' ->
      walk bigtiff big_endian diroff ld dirs st err dirs' ld' st'.

(** The walk so far: from one head of the loop to a later one, through
    directories that were all read successfully, at the offsets [offs]. *)
Inductive walk_reaches (bigtiff big_endian : bool)
    : Z -> gset Z -> list (gmap Z tiff_item) -> state -> list Z ->
      Z -> gset Z -> list (gmap Z tiff_item) -> state -> Prop :=
  | reaches_here diroff ld dirs st :
      walk_reaches bigtiff big_endian diroff ld dirs st [] diroff ld dirs st
  | reaches_next diroff ld dirs st ht next ld1 st1 offs diroff' ld' dirs' st' :
      diroff <> 0 ->
      read_directory diroff ld bigtiff big_endian st = Some (inr ht, next, ld1, st1) ->
      walk_reaches bigtiff big_endian next ld1 (dirs ++ [ht]) st1 offs diroff' ld' dirs' st' ->
      walk_reaches bigtiff big_endian diroff ld dirs st (diroff :: offs) diroff' ld' dirs' st'.

(** The state in which [_openslide_tifflike_create] enters its loop: the
    header is read, and the struct, the directory array and the loop
    detector are allocated. *)
Definition walk_start (st : state) : state :=
  g_new (g_new (g_new (snd (read_header st)))).

(** What [_openslide_tifflike_create] returns for a given outcome of its
    loop. *)
Definition create_result (err : option GError) (dirs : list (gmap Z tiff_item))
    : GError + _openslide_tifflike :=
  match err with
  | Some e => inl e
  | None =>
      if decide (dirs = []) then inl (bad_data "TIFF contains no directories")
      else inr (mk_tifflike dirs)
  end.

(** The heap blocks owned by an array of directory tables: each table and,
    for each of its items, the item and its value buffer. *)
Definition dirs_blocks (dirs : list (gmap Z tiff_item)) : Z :=
  foldr (fun ht n => 1 + 2 * Z.of_nat (size ht) + n) 0 dirs.

Definition in_flight (err : option GError) : Z :=
  match err with
  | Some e => item_in_flight e
  | None => 0
  end.

(** Every item of the model satisfies the invariant of stored items. *)
Definition tifflike_wf (tl : _openslide_tifflike) : Prop :=
  Forall (map_Forall (fun _ => item_wf)) (directories tl).

(** The table that [read_directory] builds for the directory at [off]. *)
Definition dir_table (bigtiff big_endian : bool) (bytes : list byte) (off : Z)
    : gmap Z tiff_item :=
  insert_entries ∅ (dir_entry_list bigtiff big_endian bytes off).

(** The chain of directories that starts at an offset: each one complete,
    each one found at the next-offset of the one before, up to a
    next-offset of 0. *)
Inductive dir_chain (bigtiff big_endian : bool) (bytes : list byte)
    : Z -> list Z -> Prop :=
  | chain_end : dir_chain bigtiff big_endian bytes 0 []
  | chain_next off offs :
      0 < off ->
      dir_complete bigtiff big_endian bytes off ->
      dir_chain bigtiff big_endian bytes (dir_next bigtiff big_endian bytes off) offs ->
      dir_chain bigtiff big_endian bytes off (off :: offs).

(** The types that each accessor serves. *)
Definition uint_type (type : Z) : bool :=
  bool_decide (type ∈ [TIFF_BYTE; TIFF_SHORT; TIFF_LONG; TIFF_IFD; TIFF_LONG8; TIFF_IFD8]).
Definition sint_type (type : Z) : bool :=
  bool_decide (type ∈ [TIFF_SBYTE; TIFF_SSHORT; TIFF_SLONG; TIFF_SLONG8]).
Definition float_type (type : Z) : bool :=
  bool_decide (type ∈ [TIFF_FLOAT; TIFF_DOUBLE; TIFF_RATIONAL; TIFF_SRATIONAL]).
Definition buffer_type (type : Z) : bool :=
  bool_decide (type ∈ [TIFF_ASCII; TIFF_UNDEFINED]).

(** The content of an item whatever the host: its type, its count, and its
    value buffer put back into the byte order of the file. *)
Definition item_raw (big_endian : bool) (it : tiff_item) : Z * Z * list byte :=
  (type it, count it,
   match value_size_and_count (type it) (count it mod 2 ^ 64) with
   | Some (sz, c) => fix_byte_order (value it) sz (to_int64 c) big_endian
   | None => value it
   end).

Definition model_raw (big_endian : bool) (dirs : list (gmap Z tiff_item))
    : list (gmap Z (Z * Z * list byte)) :=
  (fun ht : gmap Z tiff_item => item_raw big_endian <$> ht) <$> dirs.

(** The header as the file spells it: the byte order announced by the
    magic number, and the fields that follow it. *)
Definition hdr_endian (bytes : list byte) : option bool :=
  if decide (slice bytes 0 2 = [Byte.x4d; Byte.x4d]) then Some true
  else if decide (slice bytes 0 2 = [Byte.x49; Byte.x49]) then Some false
  else None.

Definition hdr_version (big_endian : bool) (bytes : list byte) : Z :=
  file_val big_endian (slice bytes 2 2).
Definition hdr_offset_size (big_endian : bool) (bytes : list byte) : Z :=
  file_val big_endian (slice bytes 4 2).
Definition hdr_reserved (big_endian : bool) (bytes : list byte) : Z :=
  file_val big_endian (slice bytes 6 2).

(** A header of one of the two recognised shapes, whole: [bigtiff],
    [big_endian] and the offset of the first directory. *)
Definition header_shape (bytes : list byte) : option (bool * bool * Z) :=
  match hdr_endian bytes with
  | None => None
  | Some be =>
      let n := Z.of_nat (length bytes) in
      if (hdr_version be bytes =? TIFF_VERSION_BIG) && (4 <=? n) then
        if (16 <=? n) && (hdr_offset_size be bytes =? 8) && (hdr_reserved be bytes =? 0)
        then Some (true, be, to_int64 (file_val be (slice bytes 8 8)))
        else None
      else if (hdr_version be bytes =? TIFF_VERSION_CLASSIC) && (8 <=? n) then
        Some (false, be, to_int64 (file_val be (slice bytes 4 4)))
      else None
  end.

(** ** Example files and models *)

Definition bytes_of (l : list Z) : list byte := map byte_of l.

(** A classic little-endian file with one directory: an inline Short and an
    Ascii string stored at offset 38. *)
Definition one_dir_file : list byte := bytes_of
  [0x49; 0x49; 0x2A; 0; 8; 0; 0; 0;
   2; 0;
   0; 1; 3; 0; 1; 0; 0; 0; 5; 0; 0; 0;
   0x0E; 1; 2; 0; 6; 0; 0; 0; 38; 0; 0; 0;
   0; 0; 0; 0;
   104; 101; 108; 108; 111; 0].

(** A classic big-endian file whose directory at 8 points to the one at 26,
    which points back to 8. *)
Definition cycle_file : list byte := bytes_of
  [0x4D; 0x4D; 0; 0x2A; 0; 0; 0; 8;
   0; 1;
   1; 0; 0; 3; 0; 0; 0; 1; 0; 5; 0; 0;
   0; 0; 0; 26;
   0; 1;
   1; 1; 0; 3; 0; 0; 0; 1; 0; 7; 0; 0;
   0; 0; 0; 8].

(** A file whose second directory holds an entry of the unknown type 99. *)
Definition broken_chain_file : list byte := bytes_of
  [0x49; 0x49; 0x2A; 0; 8; 0; 0; 0;
   1; 0;
   0; 1; 3; 0; 1; 0; 0; 0; 5; 0; 0; 0;
   26; 0; 0; 0;
   1; 0;
   1; 1; 99; 0; 1; 0; 0; 0; 0; 0; 0; 0;
   0; 0; 0; 0].

(** A directory at 8 with two entries for tag 256: the Short 5, then the
    Short 7. *)
Definition dup_tag_file : list byte := bytes_of
  [0x49; 0x49; 0x2A; 0; 8; 0; 0; 0;
   2; 0;
   0; 1; 3; 0; 1; 0; 0; 0; 5; 0; 0; 0;
   0; 1; 3; 0; 1; 0; 0; 0; 7; 0; 0; 0;
   0; 0; 0; 0].

(** A classic header whose first directory offset is 0. *)
Definition empty_chain_file : list byte := bytes_of
  [0x49; 0x49; 0x2A; 0; 0; 0; 0; 0].

(** A BigTIFF header whose first directory offset is 2^64 - 1, that is -1
    as an [int64_t]. *)
Definition negative_offset_file : list byte := bytes_of
  [0x49; 0x49; 0x2B; 0; 8; 0; 0; 0;
   0xFF; 0xFF; 0xFF; 0xFF; 0xFF; 0xFF; 0xFF; 0xFF].

(** Not a TIFF file. *)
Definition bad_magic_file : list byte := bytes_of
  [0x50; 0x4B; 3; 4; 0; 0; 0; 0].

(** One classic little-endian entry: tag 256, Short, count 1, value 5; and
    one of type Byte with count 0. *)
Definition short_entry : list byte := bytes_of
  [0; 1; 3; 0; 1; 0; 0; 0; 5; 0; 0; 0].

Definition empty_entry : list byte := bytes_of
  [0; 1; 1; 0; 0; 0; 0; 0; 0; 0; 0; 0].

(** One BigTIFF little-endian entry: tag 282, Rational, count 2^63 + 1,
    and eight bytes in its inline field. *)
Definition wrapping_entry : list byte := bytes_of
  [0x1A; 1; 5; 0; 1; 0; 0; 0; 0; 0; 0; 0x80; 1; 0; 0; 0; 2; 0; 0; 0].

(** Models as a little-endian host holds them: a Rational 1/2 followed by
    1/0; one tile of 6 MiB; one tile offset but two byte counts of 3 MiB;
    one tile whose Long8 byte count is 2^63. *)
Definition rational_model : _openslide_tifflike :=
  mk_tifflike
    [{[ 282 := mk_item TIFF_RATIONAL 2
                 (bytes_of [1; 0; 0; 0; 2; 0; 0; 0; 1; 0; 0; 0; 0; 0; 0; 0]) ]}].

Definition big_tile_model : _openslide_tifflike :=
  mk_tifflike
    [{[ TIFFTAG_TILEOFFSETS := mk_item TIFF_LONG 1 (bytes_of [8; 0; 0; 0]);
        TIFFTAG_TILEBYTECOUNTS := mk_item TIFF_LONG 1 (bytes_of [0; 0; 0x60; 0]) ]}].


Definition wrapping_tile_model : _openslide_tifflike :=
  mk_tifflike
    [{[ TIFFTAG_TILEOFFSETS := mk_item TIFF_LONG 1 (bytes_of [8; 0; 0; 0]);
        TIFFTAG_TILEBYTECOUNTS :=
          mk_item TIFF_LONG8 1 (bytes_of [0; 0; 0; 0; 0; 0; 0; 0x80]) ]}].


(** Two tiles of 10 and 20 bytes at offsets 8 and 100. *)
Definition small_tile_model : _openslide_tifflike :=
  mk_tifflike
    [{[ TIFFTAG_TILEOFFSETS := mk_item TIFF_LONG 2 (bytes_of [8; 0; 0; 0; 100; 0; 0; 0]);
        TIFFTAG_TILEBYTECOUNTS := mk_item TIFF_LONG 2 (bytes_of [10; 0; 0; 0; 20; 0; 0; 0]) ]}].

(** A directory with the description "hi", an X resolution of 1/2 and the
    resolution unit 3. *)
Definition properties_model : _openslide_tifflike :=
  mk_tifflike
    [{[ TIFFTAG_IMAGEDESCRIPTION := mk_item TIFF_ASCII 3 (bytes_of [104; 105; 0]);
        TIFFTAG_XRESOLUTION :=
          mk_item TIFF_RATIONAL 1 (bytes_of [1; 0; 0; 0; 2; 0; 0; 0]);
        TIFFTAG_RESOLUTIONUNIT := mk_item TIFF_SHORT 1 (bytes_of [3; 0]) ]}].

(** An accumulator that records the strings it is fed, and a way to write
    doubles that tells one half from the rest. *)
Definition log_string (h : list (option string)) (s : option string)
    : list (option string) :=
  h ++ [s].

Definition show_half (x : float) : string :=
  if PrimFloat.eqb x 0.5 then "0.5" else "?".

(** A stream that is a list of bytes and hands out one byte per call. *)
Definition fread_one_byte (n : Z) (fp : list byte) : list byte * list byte :=
  if 0 <? n then (take 1 fp, drop 1 fp) else ([], fp).

(** An accumulator that records the calls made on it. *)
Inductive hash_call :=
  | HashDisable
  | HashFilePart (offset length : Z).

Definition log_disable (h : list hash_call) : list hash_call :=
  h ++ [HashDisable].

Definition log_file_part (h : list hash_call) (offset length : Z)
    : option GError * list hash_call :=
  (None, h ++ [HashFilePart offset length]).

(** * Bytes and integers *)

Lemma byte_val_range b : 0 <= byte_val b < 256.
Proof.
  unfold byte_val. pose proof (Byte.to_N_bounded b). lia.
Qed.

Lemma le_val_range bs : 0 <= le_val bs < 2 ^ (8 * Z.of_nat (length bs)).
Proof.
  induction bs as [|b bs IH]; simpl le_val; simpl length.
  - simpl. lia.
  - pose proof (byte_val_range b).
    replace (8 * Z.of_nat (S (length bs))) with (8 + 8 * Z.of_nat (length bs)) by lia.
    rewrite Z.pow_add_r by lia. change (2 ^ 8) with 256. nia.
Qed.

Lemma be_val_range bs : 0 <= be_val bs < 2 ^ (8 * Z.of_nat (length bs)).
Proof.
  unfold be_val. pose proof (le_val_range (rev bs)) as H.
  by rewrite length_rev in H.
Qed.

Lemma file_val_range be bs : 0 <= file_val be bs < 2 ^ (8 * Z.of_nat (length bs)).
Proof. destruct be; [apply be_val_range | apply le_val_range]. Qed.

Lemma host_val_range bs : 0 <= host_val bs < 2 ^ (8 * Z.of_nat (length bs)).
Proof. unfold host_val. destruct host_big_endian; [apply be_val_range | apply le_val_range]. Qed.

Lemma host_val_swap be elem : host_val (swap_elem be elem) = file_val be elem.
Proof.
  unfold host_val, swap_elem, GUINT_FROM_BE, GUINT_FROM_LE, file_val, be_val.
  destruct be, host_big_endian; try reflexivity; by rewrite rev_involutive.
Qed.

Lemma length_swap_elem be elem : length (swap_elem be elem) = length elem.
Proof.
  unfold swap_elem, GUINT_FROM_BE, GUINT_FROM_LE.
  destruct be, host_big_endian; try reflexivity; apply length_rev.
Qed.

Lemma swap_elem_single be b : swap_elem be [b] = [b].
Proof.
  unfold swap_elem, GUINT_FROM_BE, GUINT_FROM_LE.
  by destruct be, host_big_endian.
Qed.

Lemma length_slice bs pos len :
  0 <= pos -> 0 <= len -> pos + len <= Z.of_nat (length bs) ->
  Z.of_nat (length (slice bs pos len)) = len.
Proof.
  intros. unfold slice. rewrite length_take, length_drop. lia.
Qed.

Lemma length_slice_le bs pos len : 0 <= len -> Z.of_nat (length (slice bs pos len)) <= len.
Proof. intros. unfold slice. rewrite length_take. lia. Qed.

Lemma to_int64_small z : 0 <= z < 2 ^ 63 -> to_int64 z = z.
Proof.
  intros. unfold to_int64. rewrite Z.mod_small; lia.
Qed.

Lemma to_int64_range z : - 2 ^ 63 <= to_int64 z < 2 ^ 63.
Proof.
  unfold to_int64. pose proof (Z.mod_pos_bound (z + 2 ^ 63) (2 ^ 64)). lia.
Qed.

Lemma to_int64_neg z : 2 ^ 63 <= z < 2 ^ 64 -> to_int64 z = z - 2 ^ 64.
Proof.
  intros. unfold to_int64.
  replace (z + 2 ^ 63) with ((z - 2 ^ 63) + 1 * 2 ^ 64) by lia.
  rewrite Z.mod_add by lia. rewrite Z.mod_small; lia.
Qed.

(** * The byte swap of a buffer *)

Lemma length_fix_byte_order_loop size count be data :
  length (fix_byte_order_loop size count be data) = length data.
Proof.
  revert data. induction count as [|c IH]; intros data; simpl; [done|].
  rewrite length_app, IH. fold (swap_elem be (take size data)).
  rewrite length_swap_elem, length_take, length_drop. lia.
Qed.

Lemma length_fix_byte_order data size count be :
  length (fix_byte_order data size count be) = length data.
Proof.
  unfold fix_byte_order.
  repeat match goal with
         | |- context [match ?x with _ => _ end] => destruct x
         end; try reflexivity; apply length_fix_byte_order_loop.
Qed.

(** Element [k] of the swapped buffer is the swap of element [k]. *)
Lemma fix_byte_order_loop_elem size count be data k :
  (k < count)%nat -> (size * count <= length data)%nat ->
  take size (drop (size * k) (fix_byte_order_loop size count be data))
  = swap_elem be (take size (drop (size * k) data)).
Proof.
  revert data k. induction count as [|c IH]; intros data k Hk Hlen; [lia|].
  simpl. fold (swap_elem be (take size data)).
  assert (Hl : length (swap_elem be (take size data)) = size).
  { rewrite length_swap_elem, length_take. nia. }
  destruct k as [|k].
  - rewrite Nat.mul_0_r, !drop_0.
    rewrite take_app_le by lia. rewrite take_ge by lia. done.
  - replace (size * S k)%nat with (length (swap_elem be (take size data)) + size * k)%nat by lia.
    rewrite drop_app_add. rewrite IH; [|lia|rewrite length_drop; nia].
    rewrite drop_drop. rewrite Hl. done.
Qed.

Lemma slice_0_all bs len : Z.of_nat (length bs) = len -> slice bs 0 len = bs.
Proof.
  intros. unfold slice. rewrite drop_0. apply take_ge. lia.
Qed.

Lemma fix_byte_order_elem data size count be i :
  int_size size -> 0 <= i < count -> size * count <= Z.of_nat (length data) ->
  elem_bytes size (fix_byte_order data size count be) i
  = swap_elem be (elem_bytes size data i).
Proof.
  intros Hsz Hi Hlen. unfold elem_bytes, slice.
  assert (Hcases : size = 1 \/ (size <> 1 /\ fix_byte_order data size count be
            = fix_byte_order_loop (Z.to_nat size) (Z.to_nat count) be data)).
  { destruct Hsz as [-> | [-> | [-> | ->]]]; [by left | right; done..]. }
  destruct Hcases as [->|[Hne ->]].
  - change (fix_byte_order data 1 count be) with data.
    destruct (take (Z.to_nat 1) (drop (Z.to_nat (1 * i)) data)) as [|b [|b' l]] eqn:E.
    + apply (f_equal length) in E. rewrite length_take, length_drop in E.
      cbn [length] in E. lia.
    + by rewrite swap_elem_single.
    + apply (f_equal length) in E. rewrite length_take in E.
      cbn [length] in E. lia.
  - assert (0 < size) by (unfold int_size in Hsz; lia).
    replace (Z.to_nat (size * i)) with (Z.to_nat size * Z.to_nat i)%nat by nia.
    apply fix_byte_order_loop_elem; nia.
Qed.

Lemma load_uint_fix_byte_order data size count be i :
  int_size size -> 0 <= i < count -> size * count <= Z.of_nat (length data) ->
  load_uint size (fix_byte_order data size count be) i
  = file_val be (elem_bytes size data i).
Proof.
  intros. unfold load_uint. rewrite fix_byte_order_elem by done.
  apply host_val_swap.
Qed.

Lemma host_val_fix_byte_order_one buf size be :
  int_size size -> Z.of_nat (length buf) = size ->
  host_val (fix_byte_order buf size 1 be) = file_val be buf.
Proof.
  intros Hsz Hlen.
  pose proof (load_uint_fix_byte_order buf size 1 be 0 Hsz) as H.
  unfold load_uint, elem_bytes in H. rewrite Z.mul_0_r in H.
  rewrite !slice_0_all in H; [apply H; lia|done|].
  by rewrite length_fix_byte_order.
Qed.

(** * The stream *)

Lemma fread_ok size st :
  0 < size -> readable size st ->
  fread size st
  = (Some (slice (f_bytes st) (f_pos st) size),
     mkState (f_bytes st) (f_pos st + size) (f_log st ++ [fread_call size]) (heap_live st)).
Proof.
  intros Hs [H1 H2]. unfold fread.
  destruct (0 <? size) eqn:E1; [|lia].
  destruct (0 <=? f_pos st) eqn:E2; [|lia].
  destruct (f_pos st + size <=? f_size st) eqn:E3; [|lia]. done.
Qed.

Lemma fread_fail size st :
  ~ readable size st ->
  fread size st
  = (None, mkState (f_bytes st) (Z.max (f_pos st) (f_size st))
             (f_log st ++ [fread_call size]) (heap_live st)).
Proof.
  intros Hn. unfold fread, readable in *.
  destruct (0 <? size); [|done].
  destruct (0 <=? f_pos st) eqn:E2; [|done].
  destruct (f_pos st + size <=? f_size st) eqn:E3; [|done]. lia.
Qed.

#[local] Instance readable_dec size st : Decision (readable size st).
Proof. unfold readable. apply _. Qed.

Lemma fseeko_ok offset st :
  0 <= offset ->
  fseeko offset st
  = (0, mkState (f_bytes st) offset (f_log st ++ [fseeko_call offset]) (heap_live st)).
Proof. intros. unfold fseeko. destruct (offset <? 0) eqn:E; [lia|done]. Qed.

Lemma fseeko_fail offset st :
  offset < 0 ->
  fseeko offset st
  = (-1, mkState (f_bytes st) (f_pos st) (f_log st ++ [fseeko_call offset]) (heap_live st)).
Proof. intros. unfold fseeko. destruct (offset <? 0) eqn:E; [done|lia]. Qed.

Lemma read_uint_ok size be ok st :
  int_size size -> readable size st ->
  read_uint size be ok st
  = (file_val be (slice (f_bytes st) (f_pos st) size), ok,
     mkState (f_bytes st) (f_pos st + size) (f_log st ++ [fread_call size]) (heap_live st)).
Proof.
  intros Hsz Hr. unfold read_uint. rewrite fread_ok; [|unfold int_size in Hsz; lia|done].
  rewrite host_val_fix_byte_order_one; [done..|].
  destruct Hr. apply length_slice; unfold int_size, f_size in *; lia.
Qed.

Lemma read_uint_fail size be ok st :
  ~ readable size st ->
  read_uint size be ok st
  = (0, false, mkState (f_bytes st) (Z.max (f_pos st) (f_size st))
                 (f_log st ++ [fread_call size]) (heap_live st)).
Proof. intros. unfold read_uint. by rewrite fread_fail. Qed.

(** * The tag value decoder *)

Lemma read_tiff_value_spec size count offset value value_len be st :
  int_size size -> 0 <= f_pos st ->
  read_tiff_value size count offset value value_len be st =
    if decide (0 < count /\ count <= SSIZE_MAX ÷ size /\ size * count <= alloc_limit) then
      if decide (size * count <= value_len) then
        (Some (fix_byte_order (slice value 0 (size * count)) size count be), g_new st)
      else if decide (0 <= offset) then
        if decide (offset + size * count <= f_size st) then
          (Some (fix_byte_order (slice (f_bytes st) offset (size * count)) size count be),
           mkState (f_bytes st) (f_pos st)
             (f_log st ++ [fseeko_call offset; fread_call (size * count);
                           fseeko_call (f_pos st)])
             (heap_live st + 1))
        else
          (None, mkState (f_bytes st) (Z.max offset (f_size st))
                   (f_log st ++ [fseeko_call offset; fread_call (size * count)])
                   (heap_live st))
      else
        (None, mkState (f_bytes st) (f_pos st)
                 (f_log st ++ [fseeko_call offset]) (heap_live st))
    else (None, st).
Proof.
  intros Hsz Hpos. unfold read_tiff_value, g_try_malloc.
  assert (0 < size) by (unfold int_size in Hsz; lia).
  destruct (size <=? 0) eqn:E0; [lia|].
  destruct (count <=? 0) eqn:E1.
  { rewrite decide_False by lia. done. }
  destruct (count >? SSIZE_MAX ÷ size) eqn:E2.
  { rewrite decide_False by lia. done. }
  simpl orb. cbv iota.
  destruct (size * count <=? alloc_limit) eqn:E3.
  2:{ rewrite decide_False by lia. destruct st; done. }
  rewrite decide_True by lia.
  destruct (size * count <=? value_len) eqn:E4.
  { rewrite decide_True by lia. done. }
  rewrite decide_False by lia.
  assert (0 < size * count) by nia.
  destruct (decide (0 <= offset)) as [Ho|Ho].
  - rewrite fseeko_ok by done.
    destruct (decide (offset + size * count <= f_size st)) as [Hl|Hl].
    + rewrite fread_ok; [|done|split; simpl; [done|apply Hl]].
      simpl. unfold ftello, fseeko. simpl.
      destruct (f_pos st <? 0) eqn:E5; [lia|]. simpl.
      rewrite <- !app_assoc. done.
    + rewrite fread_fail; [|unfold readable; simpl; unfold f_size in *; simpl; lia].
      simpl. unfold g_release. simpl. rewrite <- !app_assoc. simpl.
      do 2 f_equal. unfold f_size. simpl. lia.
  - rewrite fseeko_fail by lia. unfold g_release. simpl.
    do 2 f_equal. lia.
Qed.

(** * One directory entry *)

Lemma field_len_range bt : 4 <= field_len bt <= 8.
Proof. unfold field_len. destruct bt; lia. Qed.

Ltac rd_solve :=
  unfold after_entry_fields, g_new, g_release, readable, f_size, entry_size in *;
  cbn [f_bytes f_pos f_log heap_live] in *;
  repeat match goal with
         | |- context [field_len ?b] =>
             lazymatch goal with
             | _ : 4 <= field_len b <= 8 |- _ => fail
             | _ => pose proof (field_len_range b)
             end
         | _ : context [field_len ?b] |- _ =>
             lazymatch goal with
             | _ : 4 <= field_len b <= 8 |- _ => fail
             | _ => pose proof (field_len_range b)
             end
         end;
  lia.

Lemma int_size_field_len bt : int_size (field_len bt).
Proof. unfold int_size, field_len. destruct bt; lia. Qed.

Lemma read_entry_readable bt be st :
  readable (entry_size bt) st ->
  read_entry bt be true st =
    let st4 := after_entry_fields bt st in
    match value_size_and_count (entry_type be st) (entry_count bt be st) with
    | None =>
        (inl (bad_data ("Unknown type encountered: " +:+ pretty (entry_type be st))), st4)
    | Some (sz, c) =>
        match read_tiff_value sz (to_int64 c)
                (to_int64 (file_val be (entry_inline bt st)))
                (entry_inline bt st) (field_len bt) be st4 with
        | (None, st5) => (inl (bad_data "Cannot read value"), st5)
        | (Some v, st5) =>
            (inr (entry_tag be st,
                  mk_item (entry_type be st) (to_int64 (entry_count bt be st)) v), st5)
        end
    end.
Proof.
  intros Hr. unfold read_entry.
  assert (Hfl : 4 <= field_len bt <= 8) by (unfold field_len; destruct bt; lia).
  rewrite read_uint_ok; [|unfold int_size; lia|rd_solve].
  rewrite read_uint_ok; [|unfold int_size; lia|rd_solve].
  fold (field_len bt).
  rewrite read_uint_ok; [|apply int_size_field_len|rd_solve].
  simpl negb. cbv iota.
  rewrite fread_ok; [|lia|rd_solve].
  rewrite host_val_fix_byte_order_one;
    [|apply int_size_field_len|apply length_slice; rd_solve].
  unfold g_new. simpl.
  replace (f_pos st + 2 + 2) with (f_pos st + 4) by lia.
  replace (f_pos st + 4 + field_len bt + field_len bt)
    with (f_pos st + entry_size bt) by (unfold entry_size; lia).
  rewrite <- !app_assoc. simpl.
  fold (entry_tag be st) (entry_type be st) (entry_count bt be st) (entry_inline bt st).
  fold (after_entry_fields bt st). done.
Qed.

Lemma read_entry_unreadable bt be st :
  ~ readable (entry_size bt) st ->
  exists st',
    read_entry bt be true st
    = (inl (bad_data (if decide (readable (4 + field_len bt) st)
                      then "Cannot read value/offset"
                      else "Cannot read tag, type, and count")), st')
    /\ f_bytes st' = f_bytes st /\ heap_live st' = heap_live st.
Proof.
  intros Hn. unfold read_entry. fold (field_len bt).
  assert (Hfl : 4 <= field_len bt <= 8) by (unfold field_len; destruct bt; lia).
  destruct (decide (readable (4 + field_len bt) st)) as [Hr|Hr].
  - rewrite read_uint_ok; [|unfold int_size; lia|rd_solve].
    rewrite read_uint_ok; [|unfold int_size; lia|rd_solve].
    rewrite read_uint_ok; [|apply int_size_field_len|rd_solve].
    simpl negb. cbv iota.
    rewrite fread_fail; [|rd_solve].
    eexists. split; [reflexivity|]. done.
  - destruct (decide (readable 2 st)) as [Hr2|Hr2].
    + rewrite read_uint_ok; [|unfold int_size; lia|rd_solve].
      destruct (decide (f_pos st + 4 <= f_size st)) as [H3|H3].
      * rewrite read_uint_ok; [|unfold int_size; lia|rd_solve].
        rewrite read_uint_fail; [|rd_solve].
        simpl. eexists. split; [reflexivity|]. done.
      * rewrite read_uint_fail; [|rd_solve].
        rewrite read_uint_fail; [|rd_solve].
        simpl. eexists. split; [reflexivity|]. done.
    + rewrite read_uint_fail by done.
      rewrite read_uint_fail;
        [|rd_solve].
      rewrite read_uint_fail; [|rd_solve].
      simpl. eexists. split; [reflexivity|]. done.
Qed.

Lemma value_size_and_count_Some t c sz c' :
  value_size_and_count t c = Some (sz, c') ->
  int_size sz /\ 1 <= t <= 18
  /\ (((t = 5 \/ t = 10) /\ sz = 4 /\ c' = to_uint64 (c * 2))
      \/ (t <> 5 /\ t <> 10 /\ c' = c)).
Proof.
  unfold value_size_and_count, int_size.
  repeat match goal with
         | |- context [match ?x with _ => _ end] => destruct x
         end; intros [= <- <-] || discriminate; lia.
Qed.

Lemma to_int64_mod z : 0 <= z < 2 ^ 64 -> to_int64 z mod 2 ^ 64 = z.
Proof.
  intros. destruct (decide (z < 2 ^ 63)).
  - rewrite to_int64_small by lia. apply Z.mod_small. lia.
  - rewrite to_int64_neg by lia.
    replace (z - 2 ^ 64) with (z + (-1) * 2 ^ 64) by lia.
    rewrite Z.mod_add by lia. apply Z.mod_small. lia.
Qed.

Lemma entry_count_range bt be st :
  readable (entry_size bt) st -> 0 <= entry_count bt be st < 2 ^ 64.
Proof.
  intros Hr. unfold entry_count.
  pose proof (file_val_range be (slice (f_bytes st) (f_pos st + 4) (field_len bt))) as H.
  assert (Hfl : 4 <= field_len bt <= 8) by (unfold field_len; destruct bt; lia).
  rewrite length_slice in H by rd_solve.
  assert (2 ^ (8 * field_len bt) <= 2 ^ 64) by (apply Z.pow_le_mono_r; lia).
  lia.
Qed.

Lemma length_entry_inline bt st :
  readable (entry_size bt) st ->
  Z.of_nat (length (entry_inline bt st)) = field_len bt.
Proof.
  intros Hr. unfold entry_inline.
  assert (Hfl : 4 <= field_len bt <= 8) by (unfold field_len; destruct bt; lia).
  apply length_slice; rd_solve.
Qed.

(** What a successful turn of the entry loop leaves behind. *)
Lemma read_entry_inr bt be st tag item st' :
  read_entry bt be true st = (inr (tag, item), st') ->
  readable (entry_size bt) st
  /\ f_bytes st' = f_bytes st
  /\ f_pos st' = f_pos st + entry_size bt
  /\ heap_live st' = heap_live st + 2
  /\ item_wf item.
Proof.
  intros H. destruct (decide (readable (entry_size bt) st)) as [Hr|Hr].
  2:{ destruct (read_entry_unreadable bt be st Hr) as (st2 & E & _). congruence. }
  split; [done|]. rewrite read_entry_readable in H by done. cbv zeta in H.
  destruct (value_size_and_count (entry_type be st) (entry_count bt be st))
    as [[sz c]|] eqn:Ev; [|discriminate].
  pose proof (value_size_and_count_Some _ _ _ _ Ev) as (Hsz & _ & _).
  rewrite read_tiff_value_spec in H by (done || rd_solve).
  pose proof (length_entry_inline bt st Hr) as Hil.
  pose proof (entry_count_range bt be st Hr) as Hcr.
  assert (0 < sz) by (unfold int_size in Hsz; lia).
  destruct (decide _) as [(Hc1 & Hc2 & Hc3)|]; [|discriminate].
  assert (Hwf : forall v, Z.of_nat (length v) = sz * to_int64 c ->
            item_wf (mk_item (entry_type be st) (to_int64 (entry_count bt be st)) v)).
  { intros v Hv. exists sz, c. cbn [type count value].
    rewrite to_int64_mod by done. repeat split; try done; apply to_int64_range. }
  destruct (decide (sz * to_int64 c <= field_len bt)).
  - injection H as <- <- <-. cbn [f_bytes f_pos heap_live g_new after_entry_fields].
    repeat split; try lia. apply Hwf.
    rewrite length_fix_byte_order. apply length_slice; nia.
  - destruct (decide (0 <= _)); [|discriminate].
    destruct (decide (_ <= f_size _)) as [Hl|]; [|discriminate].
    injection H as <- <- <-. cbn [f_bytes f_pos heap_live after_entry_fields].
    repeat split; try lia. apply Hwf.
    rewrite length_fix_byte_order. apply length_slice; [lia|nia|rd_solve].
Qed.

Lemma item_in_flight_unknown_type s :
  item_in_flight (bad_data ("Unknown type encountered: " +:+ s)) = 1.
Proof. reflexivity. Qed.

(** What a failing turn leaves behind: the item record, if the failure came
    after its allocation. *)
Lemma read_entry_inl bt be st e st' :
  read_entry bt be true st = (inl e, st') ->
  f_bytes st' = f_bytes st
  /\ heap_live st' = heap_live st + item_in_flight e
  /\ code e = OPENSLIDE_ERROR_BAD_DATA.
Proof.
  intros H. destruct (decide (readable (entry_size bt) st)) as [Hr|Hr].
  2:{ destruct (read_entry_unreadable bt be st Hr) as (st2 & E & Hb & Hh).
      rewrite E in H. injection H as <- <-.
      destruct (decide _); (split; [done|split; [|done]]);
        cbn; lia. }
  rewrite read_entry_readable in H by done. cbv zeta in H.
  destruct (value_size_and_count (entry_type be st) (entry_count bt be st))
    as [[sz c]|] eqn:Ev.
  2:{ injection H as <- <-. split; [done|]. split; [|done].
      rewrite item_in_flight_unknown_type. done. }
  pose proof (value_size_and_count_Some _ _ _ _ Ev) as (Hsz & _ & _).
  rewrite read_tiff_value_spec in H by (done || rd_solve).
  repeat (destruct (decide _) in H); try discriminate;
    injection H as <- <-; cbn; repeat split; try done; lia.
Qed.

(** The outcome of a turn depends on the file and the cursor only. *)
Lemma read_entry_fst bt be st :
  fst (read_entry bt be true st) = entry_at bt be (f_bytes st) (f_pos st).
Proof.
  unfold entry_at.
  destruct (decide (readable (entry_size bt) st)) as [Hr|Hr].
  - rewrite !read_entry_readable by (done || rd_solve). cbv zeta.
    unfold entry_type, entry_count, entry_inline, entry_tag. cbn [f_bytes f_pos].
    destruct (value_size_and_count _ _) as [[sz c]|] eqn:Ev; [|done].
    pose proof (value_size_and_count_Some _ _ _ _ Ev) as (Hsz & _ & _).
    rewrite !read_tiff_value_spec by (done || rd_solve).
    unfold after_entry_fields, f_size. cbn [f_bytes f_pos].
    repeat case_decide; done.
  - assert (Hr0 : ~ readable (entry_size bt) (mkState (f_bytes st) (f_pos st) [] 0))
      by (intros Hr0; apply Hr; rd_solve).
    destruct (read_entry_unreadable bt be _ Hr) as (? & -> & _).
    destruct (read_entry_unreadable bt be _ Hr0) as (? & -> & _).
    cbn [fst]. repeat case_decide; try done; exfalso; rd_solve.
Qed.

(** * The entry loop *)

Lemma insert_entries_cons ht e es :
  insert_entries ht (e :: es) = insert_entries (<[e.1 := e.2]> ht) es.
Proof. reflexivity. Qed.

Lemma read_entries_spec bt be dircount fuel : forall n result st,
  0 <= f_pos st ->
  Z.of_nat fuel * entry_size bt + f_pos st > f_size st ->
  (0 < fuel)%nat ->
  exists r st',
    read_entries fuel n dircount bt be true result st = Some (r, st')
    /\ f_bytes st' = f_bytes st
    /\ let k := Z.to_nat (dircount - n) in
       let es := dir_entries bt be (f_bytes st) k (f_pos st) in
       match r with
       | inr result' =>
           length es = k
           /\ result' = insert_entries result es
           /\ f_pos st' = f_pos st + entry_size bt * Z.of_nat k
           /\ heap_live st'
              = heap_live st + 2 * (Z.of_nat (size result') - Z.of_nat (size result))
           /\ (map_Forall (fun _ => item_wf) result -> map_Forall (fun _ => item_wf) result')
       | inl e =>
           (length es < k)%nat
           /\ entry_at bt be (f_bytes st)
                (f_pos st + entry_size bt * Z.of_nat (length es)) = inl e
           /\ code e = OPENSLIDE_ERROR_BAD_DATA
           /\ heap_live st'
              = heap_live st - 1 - 2 * Z.of_nat (size result) + item_in_flight e
       end.
Proof.
  induction fuel as [|fuel IH]; intros n result st Hpos Hfuel Hf; [lia|].
  cbn [read_entries]. destruct (n <? dircount) eqn:En.
  2:{ exists (inr result), st. split; [done|]. split; [done|].
      replace (Z.to_nat (dircount - n)) with 0%nat by lia. cbn.
      repeat split; try done; lia. }
  replace (Z.to_nat (dircount - n)) with (S (Z.to_nat (dircount - (n + 1)))) by lia.
  cbn [dir_entries].
  pose proof (read_entry_fst bt be st) as Hfst. rewrite <- Hfst.
  destruct (read_entry bt be true st) as [[e|[tag item]] st1] eqn:E; cbn [fst] in *.
  - apply read_entry_inl in E as (Hb & Hh & Hc).
    eexists _, _. split; [reflexivity|]. split; [done|]. cbn [length].
    rewrite Z.mul_0_r, Z.add_0_r. split; [lia|]. split; [done|]. split; [done|].
    unfold g_hash_table_unref_items, g_release. cbn [heap_live]. lia.
  - apply read_entry_inr in E as (Hr & Hb & Hp & Hh & Hwf).
    unfold g_hash_table_insert_item.
    set (st2 := match result !! tag with
                | Some _ => tiff_item_destroy st1
                | None => st1
                end).
    assert (Hst2 : f_bytes st2 = f_bytes st /\ f_pos st2 = f_pos st + entry_size bt
                   /\ heap_live st2
                      = heap_live st + 2 * (Z.of_nat (size (<[tag:=item]> result))
                                            - Z.of_nat (size result))).
    { subst st2. rewrite map_size_insert.
      destruct (result !! tag); unfold tiff_item_destroy, g_release;
        cbn [f_bytes f_pos heap_live id]; repeat split; try done; lia. }
    destruct Hst2 as (Hb2 & Hp2 & Hh2).
    assert (0 < entry_size bt) by rd_solve.
    destruct (IH (n + 1) (<[tag:=item]> result) st2) as (r & st' & Hrun & Hb' & Hres).
    { lia. }
    { unfold f_size in *. rewrite Hb2, Hp2. lia. }
    { destruct fuel; [|lia]. exfalso. unfold readable, f_size in *. lia. }
    exists r, st'. split; [done|]. split; [congruence|].
    cbv zeta in Hres. rewrite Hb2, Hp2 in Hres.
    destruct r as [e|result'].
    + destruct Hres as (Hl & Hat & Hc & Hh').
      cbn [length]. split; [lia|]. split; [|split; [done|lia]].
      rewrite <- Hat. f_equal. lia.
    + destruct Hres as (Hl & Hins & Hp' & Hh' & Hwf').
      cbn [length]. split; [lia|]. split; [done|]. split; [lia|]. split; [lia|].
      intros Hall. apply Hwf'. by apply map_Forall_insert_2.
Qed.

(** * One directory *)

Lemma read_directory_bad_offset off ld bt be st :
  off <= 0 ->
  read_directory off ld bt be st = Some (inl (bad_data "Bad offset"), 0, ld, st).
Proof.
  intros. unfold read_directory. destruct (off <=? 0) eqn:E; [done|lia].
Qed.

Lemma read_directory_loop off ld bt be st :
  0 < off -> off ∈ ld ->
  read_directory off ld bt be st = Some (inl (bad_data "Loop detected"), 0, ld, st).
Proof.
  intros. unfold read_directory. destruct (off <=? 0) eqn:E; [lia|].
  by rewrite decide_True.
Qed.

Lemma int_size_count_len bt : int_size (count_len bt).
Proof. unfold int_size, count_len. destruct bt; lia. Qed.

Lemma read_directory_spec off ld bt be st :
  exists r next ld' st',
    read_directory off ld bt be st = Some (r, next, ld', st')
    /\ f_bytes st' = f_bytes st
    /\ match r with
       | inr ht =>
           0 < off /\ (off ∉ ld) /\ ld' = {[off]} ∪ ld
           /\ dir_complete bt be (f_bytes st) off
           /\ ht = insert_entries ∅ (dir_entry_list bt be (f_bytes st) off)
           /\ next = dir_next bt be (f_bytes st) off
           /\ heap_live st' = heap_live st + 2 + 2 * Z.of_nat (size ht)
           /\ map_Forall (fun _ => item_wf) ht
       | inl e =>
           next = 0
           /\ ~ (0 < off /\ (off ∉ ld) /\ dir_complete bt be (f_bytes st) off)
           /\ code e <> OPENSLIDE_ERROR_FORMAT_NOT_SUPPORTED
           /\ (if decide (0 < off /\ (off ∉ ld))
               then ld' = {[off]} ∪ ld
                    /\ heap_live st' = heap_live st + 1 + item_in_flight e
               else ld' = ld /\ heap_live st' = heap_live st /\ item_in_flight e = 0)
       end.
Proof.
  destruct (decide (off <= 0)) as [Ho|Ho].
  { rewrite read_directory_bad_offset by done. eexists _, _, _, _.
    split; [reflexivity|]. split; [done|]. split; [done|]. split; [lia|].
    split; [done|]. rewrite decide_False by lia. done. }
  destruct (decide (off ∈ ld)) as [Hl|Hl].
  { rewrite read_directory_loop by (done || lia). eexists _, _, _, _.
    split; [reflexivity|]. split; [done|]. split; [done|].
    split; [intros (_ & ? & _); done|].
    split; [done|]. rewrite decide_False by (intros [_ ?]; done). done. }
  unfold read_directory. destruct (off <=? 0) eqn:E; [lia|].
  rewrite decide_False by done.
  assert (Hfresh : 0 < off /\ (off ∉ ld)) by (split; [lia|done]).
  rewrite fseeko_ok by lia. fold (count_len bt) (field_len bt).
  unfold dir_complete, dir_next, dir_next_pos, dir_entry_list, dir_count.
  set (st1 := mkState _ _ _ _).
  destruct (decide (readable (count_len bt) st1)) as [Hr|Hr].
  2:{ rewrite read_uint_fail by done. cbn [negb]. eexists _, _, _, _.
      split; [reflexivity|]. split; [done|]. split; [done|].
      split; [intros (_ & _ & ? & _); apply Hr; subst st1; rd_solve|].
      split; [done|]. rewrite decide_True by done.
      split; [done|]. subst st1. cbn. lia. }
  rewrite read_uint_ok by (done || apply int_size_count_len).
  cbn [negb]. subst st1. unfold g_new. cbn [f_bytes f_pos f_log heap_live].
  set (st3 := mkState _ _ _ _).
  pose proof (int_size_count_len bt) as Hcl.
  assert (0 < entry_size bt) by rd_solve.
  destruct (read_entries_spec bt be
              (file_val be (slice (f_bytes st) off (count_len bt)))
              (S (length (f_bytes st))) 0 ∅ st3) as (r & st4 & Hrun & Hb4 & Hres).
  { subst st3. unfold int_size in Hcl. cbn. lia. }
  { subst st3. unfold f_size, int_size in *. cbn [f_bytes f_pos]. nia. }
  { lia. }
  rewrite Hrun. cbv zeta in Hres. rewrite Z.sub_0_r in Hres.
  subst st3. cbn [f_bytes f_pos heap_live] in *.
  destruct r as [e|result].
  { destruct Hres as (Hlen & Hat & Hc & Hh).
    eexists _, _, _, _. split; [reflexivity|]. split; [done|]. split; [done|].
    split; [intros (_ & _ & _ & ? & _); lia|].
    split; [congruence|]. rewrite decide_True by done. split; [done|].
    rewrite Hh, map_size_empty. lia. }
  destruct Hres as (Hlen & Hins & Hp & Hh & Hwf).
  pose proof (file_val_range be (slice (f_bytes st) off (count_len bt))) as Hdc.
  rewrite Z2Nat.id in Hp by lia.
  assert (Hpos4 : 0 <= f_pos st4).
  { rewrite Hp. unfold readable, int_size in *. cbn [f_pos] in Hr. nia. }
  destruct (decide (readable (field_len bt) st4)) as [Hr4|Hr4].
  2:{ rewrite read_uint_fail by done. cbn [negb]. eexists _, _, _, _.
      split; [reflexivity|]. split; [done|]. split; [done|].
      split; [intros (_ & _ & _ & _ & ?); apply Hr4;
              unfold readable, f_size; rewrite Hb4, Hp; lia|].
      split; [done|]. rewrite decide_True by done. split; [done|].
      unfold g_hash_table_unref_items, g_release. cbn [heap_live].
      rewrite Hh, map_size_empty. cbn. lia. }
  rewrite read_uint_ok by (done || apply int_size_field_len).
  cbn [negb]. eexists _, _, _, _. split; [reflexivity|]. split; [done|].
  split; [lia|]. split; [done|]. split; [done|].
  split; [repeat split; [rd_solve|done|]|].
  { unfold readable, f_size in Hr4. rewrite Hb4, Hp in Hr4. lia. }
  split; [done|]. split; [by rewrite Hb4, Hp|].
  split; [cbn [heap_live]; rewrite Hh, map_size_empty; lia|].
  apply Hwf. apply map_Forall_empty.
Qed.

(** * The directory walk *)

Lemma read_directories_walk bt be fuel : forall diroff ld dirs st r,
  read_directories fuel diroff ld bt be dirs st = Some r ->
  walk bt be diroff ld dirs st r.1.1.1 r.1.1.2 r.1.2 r.2.
Proof.
  induction fuel as [|fuel IH]; intros diroff ld dirs st r H; [discriminate|].
  cbn [read_directories] in H. destruct (diroff =? 0) eqn:E.
  { injection H as <-. cbn. replace diroff with 0 by lia. constructor. }
  destruct (read_directory diroff ld bt be st) as [[[[[e|ht] next] ld1] st1]|] eqn:Hd;
    [| |discriminate].
  - injection H as <-. cbn. eapply walk_fail; [lia|done].
  - eapply walk_next; [lia|done|]. by apply IH.
Qed.

Lemma walk_deterministic bt be diroff ld dirs st err1 dirs1 ld1 st1 err2 dirs2 ld2 st2 :
  walk bt be diroff ld dirs st err1 dirs1 ld1 st1 ->
  walk bt be diroff ld dirs st err2 dirs2 ld2 st2 ->
  err1 = err2 /\ dirs1 = dirs2 /\ ld1 = ld2 /\ st1 = st2.
Proof.
  intros H1. revert err2 dirs2 ld2 st2.
  induction H1 as [| ? ? ? ? ? ? ? ? Hne Hd | ? ? ? ? ? ? ? ? ? ? ? ? Hne Hd Hw IH];
    intros err2 dirs2 ld2 st2 H2; inversion H2; subst; try done; try congruence.
  - rewrite Hd in *. by simplify_eq.
  - rewrite Hd in *. simplify_eq. by apply IH.
Qed.

Lemma size_bounded (ld : gset Z) n :
  (forall x, x ∈ ld -> 0 < x < n) -> Z.of_nat (size ld) <= Z.max 0 (n - 1).
Proof.
  intros Hb.
  assert (Hsub : ld ⊆ list_to_set (seqZ 1 (n - 1))).
  { intros x Hx. apply elem_of_list_to_set, elem_of_seqZ. specialize (Hb x Hx). lia. }
  apply subseteq_size in Hsub.
  rewrite size_list_to_set in Hsub by apply NoDup_seqZ.
  rewrite length_seqZ in Hsub. lia.
Qed.

(** The walk ends: each directory read adds a fresh offset, inside the
    file, to the loop detector. *)
Lemma read_directories_total bt be fuel : forall diroff ld dirs st,
  (forall x, x ∈ ld -> 0 < x < f_size st) ->
  Z.of_nat fuel + Z.of_nat (size ld) > f_size st ->
  exists r, read_directories fuel diroff ld bt be dirs st = Some r.
Proof.
  induction fuel as [|fuel IH]; intros diroff ld dirs st Hb Hf.
  { pose proof (size_bounded ld (f_size st) Hb). unfold f_size in *. lia. }
  cbn [read_directories]. destruct (diroff =? 0); [eauto|].
  destruct (read_directory_spec diroff ld bt be st)
    as (r & next & ld1 & st1 & -> & Hbytes & Hres).
  destruct r as [e|ht]; [eauto|].
  destruct Hres as (Hpos & Hfresh & -> & (Hc & _) & _).
  pose proof (int_size_count_len bt) as Hcl.
  apply IH.
  - intros x [Hx|Hx]%elem_of_union.
    + apply elem_of_singleton in Hx as ->. unfold f_size, int_size in *.
      rewrite Hbytes. lia.
    + unfold f_size in *. rewrite Hbytes. by apply Hb.
  - rewrite size_union by (by apply disjoint_singleton_l). rewrite size_singleton.
    unfold f_size in *. rewrite Hbytes. lia.
Qed.

Lemma dirs_blocks_app dirs ht :
  dirs_blocks (dirs ++ [ht]) = dirs_blocks dirs + 1 + 2 * Z.of_nat (size ht).
Proof.
  unfold dirs_blocks. induction dirs as [|d dirs IH]; cbn [foldr app]; lia.
Qed.

(** What the walk leaves: the ledger of the heap, one directory per offset
    recorded in the loop detector, and well-formed items. *)
Lemma walk_invariants bt be diroff ld dirs st err dirs' ld' st' :
  walk bt be diroff ld dirs st err dirs' ld' st' ->
  f_bytes st' = f_bytes st
  /\ heap_live st'
     = heap_live st + (Z.of_nat (size ld') - Z.of_nat (size ld))
       + (dirs_blocks dirs' - dirs_blocks dirs) + in_flight err
  /\ (let grown := Z.of_nat (length dirs') - Z.of_nat (length dirs) in
      let seen := Z.of_nat (size ld') - Z.of_nat (size ld) in
      match err with
      | None => grown = seen
      | Some _ => grown <= seen <= grown + 1
      end)
  /\ (exists new, dirs' = dirs ++ new /\ Forall (map_Forall (fun _ => item_wf)) new)
  /\ (forall e, err = Some e -> code e <> OPENSLIDE_ERROR_FORMAT_NOT_SUPPORTED).
Proof.
  induction 1 as [| diroff ld dirs st e next ld' st' Hne Hd
                  | diroff ld dirs st ht next ld1 st1 err dirs' ld' st' Hne Hd Hw IH].
  - split; [done|]. split; [cbn; lia|]. split; [cbn; lia|].
    split; [exists []; by rewrite app_nil_r|]. done.
  - destruct (read_directory_spec diroff ld bt be st)
      as (r & next' & ld1 & st1 & Hd' & Hb & Hres).
    rewrite Hd in Hd'. simplify_eq.
    destruct Hres as (_ & _ & Hc & Hcase).
    split; [done|]. cbn [in_flight]. cbv zeta.
    assert (Hrest : (exists new, dirs = dirs ++ new
                       /\ Forall (map_Forall (fun _ => item_wf)) new)
                    /\ (forall e0, Some e = Some e0 ->
                          code e0 <> OPENSLIDE_ERROR_FORMAT_NOT_SUPPORTED)).
    { split; [exists []; by rewrite app_nil_r|]. by intros ? [= <-]. }
    destruct (decide _) as [[Hp Hfresh]|Hn].
    + destruct Hcase as (-> & Hh).
      rewrite size_union by (by apply disjoint_singleton_l). rewrite size_singleton.
      split; [lia|]. split; [lia|]. done.
    + destruct Hcase as (-> & Hh & Hfl). split; [lia|]. split; [lia|]. done.
  - destruct (read_directory_spec diroff ld bt be st)
      as (r & next' & ld2 & st2 & Hd' & Hb & Hres).
    rewrite Hd in Hd'. simplify_eq.
    destruct Hres as (Hp & Hfresh & -> & _ & _ & _ & Hh & Hwf).
    destruct IH as (Hb' & Hh' & Hcnt & (new & -> & Hnew) & Hcode).
    rewrite size_union in * by (by apply disjoint_singleton_l).
    rewrite size_singleton in *. rewrite dirs_blocks_app in Hh'.
    split; [congruence|]. split; [lia|].
    split; [destruct err; cbv zeta in *; rewrite !length_app in *;
            cbn [length] in *; lia|].
    split; [|done]. exists (ht :: new). rewrite <- app_assoc. split; [done|].
    by constructor.
Qed.

(** * The header *)

Lemma byte_val_inj a b : byte_val a = byte_val b -> a = b.
Proof.
  unfold byte_val. intros H. apply N2Z.inj in H.
  apply (f_equal Byte.of_N) in H. rewrite !Byte.of_to_N in H. congruence.
Qed.

Lemma host_val_pair (a b c : byte) :
  host_val [a; b] = byte_val c + 256 * byte_val c <-> a = c /\ b = c.
Proof.
  pose proof (byte_val_range a). pose proof (byte_val_range b).
  pose proof (byte_val_range c).
  unfold host_val, be_val. cbn [rev app le_val]. split.
  - intros Hv. split; apply byte_val_inj; destruct host_big_endian; lia.
  - intros [-> ->]. destruct host_big_endian; lia.
Qed.

Lemma slice_length_2 bs pos :
  0 <= pos -> pos + 2 <= Z.of_nat (length bs) ->
  exists a b, slice bs pos 2 = [a; b].
Proof.
  intros H1 H2. pose proof (length_slice bs pos 2 H1 ltac:(lia) H2) as Hl.
  destruct (slice bs pos 2) as [|a [|b [|c l]]]; cbn [length] in Hl; try lia.
  eauto.
Qed.

(** The magic number: both markers read the same in either byte order. *)
Lemma magic_endian st :
  readable 2 (mkState (f_bytes st) 0 (f_log st ++ [fseeko_call 0]) (heap_live st)) ->
  let magic := host_val (slice (f_bytes st) 0 2) in
  hdr_endian (f_bytes st)
  = if negb (magic =? TIFF_BIGENDIAN) && negb (magic =? TIFF_LITTLEENDIAN) then None
    else Some (magic =? TIFF_BIGENDIAN).
Proof.
  intros Hr. cbv zeta. unfold hdr_endian.
  destruct (slice_length_2 (f_bytes st) 0) as (a & b & ->); [lia|rd_solve|].
  pose proof (host_val_pair a b Byte.x4d) as HM.
  pose proof (host_val_pair a b Byte.x49) as HI.
  change (byte_val Byte.x4d + 256 * byte_val Byte.x4d) with 19789 in HM.
  change (byte_val Byte.x49 + 256 * byte_val Byte.x49) with 18761 in HI.
  destruct (decide ([a; b] = [Byte.x4d; Byte.x4d])) as [[= -> ->]|Hn1].
  { rewrite (proj2 HM) by done. done. }
  destruct (host_val [a; b] =? 19789) eqn:E1.
  { exfalso. apply Hn1. apply Z.eqb_eq, HM in E1 as [-> ->]. done. }
  destruct (decide ([a; b] = [Byte.x49; Byte.x49])) as [[= -> ->]|Hn2].
  { rewrite (proj2 HI) by done. done. }
  destruct (host_val [a; b] =? 18761) eqn:E2; [|done].
  exfalso. apply Hn2. apply Z.eqb_eq, HI in E2 as [-> ->]. done.
Qed.

Lemma hdr_endian_short bytes :
  Z.of_nat (length bytes) < 2 -> hdr_endian bytes = None.
Proof.
  intros Hl. unfold hdr_endian.
  pose proof (length_slice_le bytes 0 2 ltac:(lia)) as H.
  assert (Hs : Z.of_nat (length (slice bytes 0 2)) < 2).
  { unfold slice. rewrite length_take, length_drop. lia. }
  repeat case_decide; try done;
    match goal with E : slice _ _ _ = _ |- _ => rewrite E in Hs; cbn in Hs; lia end.
Qed.

Ltac fold_sums :=
  repeat match goal with
         | |- context [0 + Zpos ?p] => change (0 + Zpos p) with (Zpos p)
         | |- context [Zpos ?p + Zpos ?q] =>
             let c := eval cbv in (Zpos p + Zpos q) in
             change (Zpos p + Zpos q) with c
         end.

Ltac hdr_step :=
  match goal with
  | |- context [read_uint ?sz ?be ?ok ?s] =>
      destruct (decide (readable sz s));
      [rewrite (read_uint_ok sz be ok s) by (done || (unfold int_size; lia))
      |rewrite (read_uint_fail sz be ok s) by done];
      cbv beta iota zeta; cbn [f_bytes f_pos f_log heap_live]; fold_sums
  | |- context [if ?v =? 43 then _ else _] =>
      destruct (v =? 43) eqn:?; cbv beta iota zeta
  end.

Lemma read_header_spec st :
  exists st',
    f_bytes st' = f_bytes st /\ heap_live st' = heap_live st
    /\ match header_shape (f_bytes st) with
       | Some h => read_header st = (inr h, st')
       | None =>
           exists e, read_header st = (inl e, st')
                     /\ code e = OPENSLIDE_ERROR_FORMAT_NOT_SUPPORTED
                     /\ item_in_flight e = 0
       end.
Proof.
  unfold read_header. rewrite fseeko_ok by lia. cbn [snd].
  set (st0 := mkState _ _ _ _).
  destruct (decide (readable 2 st0)) as [Hr|Hr].
  2:{ rewrite fread_fail by done. eexists. split; [|split]; [| |].
      3:{ unfold header_shape. rewrite hdr_endian_short by (subst st0; rd_solve).
          eexists. split; [reflexivity|done]. }
      all: done. }
  rewrite fread_ok by (done || lia). unfold header_shape.
  rewrite (magic_endian st Hr). subst st0. cbn [f_bytes f_pos f_log heap_live].
  cbv zeta.
  destruct (negb _ && negb _) eqn:Emagic.
  { eexists. split; [|split]; [| |eexists; split; [reflexivity|done]]; done. }
  set (be := host_val (slice (f_bytes st) 0 2) =? 19789).
  unfold hdr_version, hdr_offset_size, hdr_reserved.
  set (n := Z.of_nat (length (f_bytes st))).
  assert (Hn : n = Z.of_nat (length (f_bytes st))) by done.
  clearbody n be. clear Emagic.
  repeat hdr_step;
    repeat match goal with
           | |- context [?a <=? n] => destruct (Z.leb_spec a n); try (exfalso; rd_solve)
           end;
    rewrite ?andb_false_r; cbn [andb negb orb];
    repeat match goal with
           | |- context [?a =? ?b] => destruct (a =? b) eqn:?; cbn [andb negb orb]
           end;
    try discriminate;
    (eexists; split; [|split]; [| |first [reflexivity
                                        | eexists; split; [reflexivity|done]]]; done).
Qed.

(** * Opening a file *)

Lemma destroy_spec dirs st :
  f_bytes (_openslide_tifflike_destroy dirs st) = f_bytes st
  /\ heap_live (_openslide_tifflike_destroy dirs st)
     = heap_live st - dirs_blocks dirs - 2.
Proof.
  unfold _openslide_tifflike_destroy. cbn [g_release f_bytes heap_live].
  revert st. induction dirs as [|d dirs IH]; intros st; cbn [foldl dirs_blocks foldr].
  - split; [done|lia].
  - destruct (IH (g_hash_table_unref_items d st)) as [-> ->].
    unfold g_hash_table_unref_items, g_release. cbn [f_bytes heap_live].
    fold (dirs_blocks dirs). split; [done|lia].
Qed.

Lemma walk_start_spec st :
  f_bytes (walk_start st) = f_bytes st
  /\ heap_live (walk_start st) = heap_live st + 3.
Proof.
  unfold walk_start, g_new. cbn [f_bytes heap_live].
  destruct (read_header_spec st) as (st1 & Hb & Hh & Hcase).
  destruct (header_shape (f_bytes st)) as [h|].
  - rewrite Hcase. cbn [snd]. split; [done|lia].
  - destruct Hcase as (e & -> & _). cbn [snd]. split; [done|lia].
Qed.

(** The whole of [_openslide_tifflike_create]: it returns; a header of
    neither shape is refused; otherwise the result is decided by the walk
    from the first directory offset. *)
Lemma create_spec st :
  exists r st',
    _openslide_tifflike_create st = Some (r, st')
    /\ f_bytes st' = f_bytes st
    /\ match header_shape (f_bytes st) with
       | None =>
           exists e, r = inl e
                     /\ code e = OPENSLIDE_ERROR_FORMAT_NOT_SUPPORTED
                     /\ item_in_flight e = 0
                     /\ heap_live st' = heap_live st
       | Some (bt, be, diroff) =>
           exists err dirs ld st2,
             walk bt be diroff ∅ [] (walk_start st) err dirs ld st2
             /\ match err with
                | Some e =>
                    r = inl e /\ heap_live st' = heap_live st + item_in_flight e
                | None =>
                    if decide (dirs = []) then
                      r = inl (bad_data "TIFF contains no directories")
                      /\ heap_live st' = heap_live st
                    else
                      r = inr (mk_tifflike dirs)
                      /\ heap_live st' = heap_live st + 2 + dirs_blocks dirs
                end
       end.
Proof.
  pose proof (walk_start_spec st) as [Hwb Hwh]. unfold walk_start in *.
  unfold _openslide_tifflike_create.
  destruct (read_header_spec st) as (st1 & Hb & Hh & Hcase).
  destruct (header_shape (f_bytes st)) as [[[bt be] diroff]|].
  2:{ destruct Hcase as (e & -> & Hc & Hfl). eexists _, _. split; [reflexivity|].
      split; [done|]. exists e. done. }
  rewrite Hcase in *. cbn [snd] in *.
  set (st2 := g_new (g_new (g_new st1))) in *.
  destruct (read_directories_total bt be (S (length (f_bytes st2))) diroff ∅ [] st2)
    as ([[[err dirs] ld] st3] & Hrun).
  { intros x Hx. by apply not_elem_of_empty in Hx. }
  { rewrite size_empty. unfold f_size. lia. }
  rewrite Hrun. apply read_directories_walk in Hrun. cbn [fst snd] in Hrun.
  pose proof (walk_invariants _ _ _ _ _ _ _ _ _ _ Hrun) as (Hb3 & Hh3 & _).
  rewrite size_empty in Hh3. change (dirs_blocks []) with 0 in Hh3.
  destruct err as [e|].
  - pose proof (destroy_spec dirs st3) as [Hdb Hdh].
    eexists _, _. split; [reflexivity|].
    unfold g_hash_table_unref_keys, g_release. cbn [f_bytes heap_live].
    split; [congruence|]. exists (Some e), dirs, ld, st3. split; [done|].
    split; [done|]. cbn [in_flight] in Hh3. lia.
  - destruct dirs as [|d dirs].
    + pose proof (destroy_spec [] st3) as [Hdb Hdh].
      cbn [length Z.of_nat Z.eqb]. eexists _, _. split; [reflexivity|].
      unfold g_hash_table_unref_keys, g_release. cbn [f_bytes heap_live].
      split; [congruence|]. exists None, [], ld, st3. split; [done|].
      rewrite decide_True by done. split; [done|].
      change (dirs_blocks []) with 0 in *. cbn [in_flight] in Hh3. lia.
    + destruct (Z.of_nat (length (d :: dirs)) =? 0) eqn:E;
        [apply Z.eqb_eq in E; cbn [length] in E; lia|].
      eexists _, _. split; [reflexivity|].
      unfold g_hash_table_unref_keys, g_release. cbn [f_bytes heap_live].
      split; [congruence|]. exists None, (d :: dirs), ld, st3. split; [done|].
      rewrite decide_False by done. split; [done|]. cbn [in_flight] in Hh3. lia.
Qed.

Lemma reaches_walk bt be d0 ld0 dirs0 st0 offs d ld dirs st err dirs' ld' st' :
  walk_reaches bt be d0 ld0 dirs0 st0 offs d ld dirs st ->
  walk bt be d ld dirs st err dirs' ld' st' ->
  walk bt be d0 ld0 dirs0 st0 err dirs' ld' st'.
Proof.
  induction 1 as [|? ? ? ? ? ? ? ? ? ? ? ? ? Hne Hd Hr IH]; intros Hw; [done|].
  eapply walk_next; [done..|]. by apply IH.
Qed.

Lemma walk_reaches_of_walk bt be d0 ld0 dirs0 st0 err dirs' ld' st' :
  walk bt be d0 ld0 dirs0 st0 err dirs' ld' st' ->
  match err with
  | None => exists offs, walk_reaches bt be d0 ld0 dirs0 st0 offs 0 ld' dirs' st'
  | Some e =>
      exists offs d ld st next,
        walk_reaches bt be d0 ld0 dirs0 st0 offs d ld dirs' st
        /\ d <> 0
        /\ read_directory d ld bt be st = Some (inl e, next, ld', st')
  end.
Proof.
  induction 1 as [| diroff ld dirs st e next ld' st' Hne Hd
                  | diroff ld dirs st ht next ld1 st1 err dirs' ld' st' Hne Hd Hw IH].
  - exists []. constructor.
  - exists [], diroff, ld, st, next. split; [constructor|done].
  - destruct err as [e|].
    + destruct IH as (offs & d & ld2 & st2 & next2 & Hr & Hne2 & Hd2).
      exists (diroff :: offs), d, ld2, st2, next2. split; [|done].
      by eapply reaches_next.
    + destruct IH as (offs & Hr). exists (diroff :: offs). by eapply reaches_next.
Qed.

(** Along the walk the loop detector holds exactly the offsets of the
    directories read, each of them once. *)
Lemma reaches_inv bt be d0 ld0 dirs0 st0 offs d ld dirs st :
  walk_reaches bt be d0 ld0 dirs0 st0 offs d ld dirs st ->
  ld = list_to_set offs ∪ ld0
  /\ NoDup offs
  /\ Forall (fun x => 0 < x /\ x ∉ ld0) offs
  /\ (exists new, dirs = dirs0 ++ new /\ length new = length offs)
  /\ f_bytes st = f_bytes st0.
Proof.
  induction 1 as [|diroff ld0 dirs0 st0 ht next ld1 st1 offs d ld dirs st Hne Hd Hr IH].
  - split; [by rewrite list_to_set_nil, (left_id_L ∅ (∪))|].
    split; [constructor|]. split; [constructor|].
    split; [exists []; by rewrite app_nil_r|done].
  - destruct (read_directory_spec diroff ld0 bt be st0)
      as (r & next' & ld2 & st2 & Hd' & Hb & Hres).
    rewrite Hd in Hd'. simplify_eq.
    destruct Hres as (Hp & Hfresh & -> & _).
    destruct IH as (-> & Hnd & Hall & (new & -> & Hlen) & Hb').
    split.
    { rewrite list_to_set_cons, (assoc_L (∪)).
      by rewrite (comm_L (∪) (list_to_set offs) {[diroff]}). }
    split.
    { constructor; [|done]. intros Hin.
      rewrite Forall_forall in Hall. apply Hall in Hin as [_ Hin].
      apply Hin, elem_of_union_l. by apply elem_of_singleton. }
    split.
    { constructor; [done|]. eapply Forall_impl; [exact Hall|].
      intros x [? Hx]. split; [done|]. intros Hx0. by apply Hx, elem_of_union_r. }
    split; [|congruence].
    exists (ht :: new). rewrite <- app_assoc. split; [done|]. cbn [length]. lia.
Qed.

Lemma create_of_walk st bt be d0 err dirs ld st2 :
  header_shape (f_bytes st) = Some (bt, be, d0) ->
  walk bt be d0 ∅ [] (walk_start st) err dirs ld st2 ->
  exists st', _openslide_tifflike_create st = Some (create_result err dirs, st').
Proof.
  intros Hh Hw.
  destruct (create_spec st) as (r & st' & Hc & _ & Hcase).
  rewrite Hh in Hcase. destruct Hcase as (err' & dirs' & ld' & st2' & Hw' & Hres).
  destruct (walk_deterministic _ _ _ _ _ _ _ _ _ _ _ _ _ _ Hw Hw') as (<- & <- & _).
  exists st'. rewrite Hc. unfold create_result.
  destruct err as [e|]; [by destruct Hres as [-> _]|].
  destruct (decide (dirs = [])); by destruct Hres as [-> _].
Qed.

(** * Claims about opening a file *)

(** C1.  Model construction is all-or-nothing.  For every input,
    [_openslide_tifflike_create] returns either an error or a model, never
    both.  A model is returned only when the whole chain was parsed: the
    header has one of the two shapes and the walk went from the first offset,
    through directories that were all read successfully, to a next-offset of
    0; its directories are the tables read, in order, at least one.  Any
    failure gives the error and no model: a header of neither shape, a
    directory that fails anywhere in the chain (whatever was parsed before
    it), an empty chain.  On an error the heap is back where it was: every
    table parsed so far is freed with its items (only the item record of the
    entry being decoded is still live when the failure is an unknown type or
    an unreadable value). *)
Theorem create_all_or_nothing st :
  exists r st',
    _openslide_tifflike_create st = Some (r, st')
    /\ match r with
       | inr tl =>
           (exists bt be d0 offs ld st2,
              header_shape (f_bytes st) = Some (bt, be, d0)
              /\ walk_reaches bt be d0 ∅ [] (walk_start st) offs 0 ld
                   (directories tl) st2)
           /\ directories tl <> []
           /\ heap_live st' = heap_live st + 2 + dirs_blocks (directories tl)
       | inl e => heap_live st' = heap_live st + item_in_flight e
       end
    /\ (header_shape (f_bytes st) = None -> exists e, r = inl e)
    /\ (forall bt be d0 offs d ld dirs st1 e next ld' st2,
          header_shape (f_bytes st) = Some (bt, be, d0) ->
          walk_reaches bt be d0 ∅ [] (walk_start st) offs d ld dirs st1 ->
          d <> 0 ->
          read_directory d ld bt be st1 = Some (inl e, next, ld', st2) ->
          r = inl e)
    /\ (forall bt be,
          header_shape (f_bytes st) = Some (bt, be, 0) ->
          r = inl (bad_data "TIFF contains no directories")).
Proof.
  destruct (create_spec st) as (r & st' & Hc & _ & Hcase).
  exists r, st'. split; [done|]. split; [|split; [|split]].
  - destruct (header_shape (f_bytes st)) as [[[bt be] d0]|] eqn:Hh.
    + destruct Hcase as (err & dirs & ld & st2 & Hw & Hres).
      destruct err as [e|]; [by destruct Hres as [-> ?]|].
      destruct (decide (dirs = [])); destruct Hres as [-> Hheap];
        [change (item_in_flight _) with 0; lia|].
      apply walk_reaches_of_walk in Hw as (offs & Hr).
      split; [|done]. by exists bt, be, d0, offs, ld, st2.
    + destruct Hcase as (e & -> & _ & Hfl & ->). lia.
  - intros Hh. rewrite Hh in Hcase. destruct Hcase as (e & -> & _). eauto.
  - intros bt be d0 offs d ld dirs st1 e next ld' st2 Hh Hr Hne Hd.
    assert (Hw : walk bt be d0 ∅ [] (walk_start st) (Some e) dirs ld' st2).
    { eapply reaches_walk; [exact Hr|]. by eapply walk_fail. }
    destruct (create_of_walk st _ _ _ _ _ _ _ Hh Hw) as (st'' & Hc').
    rewrite Hc in Hc'. by simplify_eq.
  - intros bt be Hh.
    assert (Hw : walk bt be 0 ∅ [] (walk_start st) None [] ∅ (walk_start st))
      by constructor.
    destruct (create_of_walk st _ _ _ _ _ _ _ Hh Hw) as (st'' & Hc').
    rewrite Hc in Hc'. by simplify_eq.
Qed.

(** C2.  The directory walk terminates on every input, and no offset is
    decoded twice.  [_openslide_tifflike_create] returns for every file.
    While it walks, the loop detector holds exactly the offsets of the
    directories read so far, which are pairwise distinct, one per directory
    of the array; and as soon as the next offset to visit is one of them,
    the call fails with BadData "Loop detected".  In particular a chain A, B
    whose second directory points back to A fails in this way. *)
Theorem walk_terminates_and_detects_loops st :
  (exists r, _openslide_tifflike_create st = Some r)
  /\ (forall bt be d0 offs d ld dirs st1,
        header_shape (f_bytes st) = Some (bt, be, d0) ->
        walk_reaches bt be d0 ∅ [] (walk_start st) offs d ld dirs st1 ->
        ld = list_to_set offs
        /\ NoDup offs
        /\ length dirs = length offs
        /\ (d ∈ offs ->
            exists st', _openslide_tifflike_create st
                        = Some (inl (bad_data "Loop detected"), st')))
  /\ (forall bt be A B hA hB ldA stA ldB stB,
        header_shape (f_bytes st) = Some (bt, be, A) ->
        A <> 0 ->
        read_directory A ∅ bt be (walk_start st) = Some (inr hA, B, ldA, stA) ->
        B <> 0 ->
        read_directory B ldA bt be stA = Some (inr hB, A, ldB, stB) ->
        exists st', _openslide_tifflike_create st
                    = Some (inl (bad_data "Loop detected"), st')).
Proof.
  assert (Hloop : forall bt be d0 offs d ld dirs st1,
        header_shape (f_bytes st) = Some (bt, be, d0) ->
        walk_reaches bt be d0 ∅ [] (walk_start st) offs d ld dirs st1 ->
        ld = list_to_set offs
        /\ NoDup offs
        /\ length dirs = length offs
        /\ (d ∈ offs ->
            exists st', _openslide_tifflike_create st
                        = Some (inl (bad_data "Loop detected"), st'))).
  { intros bt be d0 offs d ld dirs st1 Hh Hr.
    pose proof (reaches_inv _ _ _ _ _ _ _ _ _ _ _ Hr)
      as (Hld & Hnd & Hall & (new & Hdirs & Hlen) & _).
    assert (Hld' : ld = list_to_set offs) by (by rewrite Hld, (right_id_L ∅ (∪))).
    split; [done|]. split; [done|]. split; [by rewrite Hdirs|].
    intros Hin.
    assert (0 < d) by (rewrite Forall_forall in Hall; by apply Hall in Hin as [? _]).
    assert (Hw : walk bt be d0 ∅ [] (walk_start st)
                   (Some (bad_data "Loop detected")) dirs ld st1).
    { eapply reaches_walk; [exact Hr|]. eapply walk_fail; [lia|].
      apply read_directory_loop; [done|]. rewrite Hld'. by apply elem_of_list_to_set. }
    destruct (create_of_walk st _ _ _ _ _ _ _ Hh Hw) as (st' & Hc). eauto. }
  split; [|split; [exact Hloop|]].
  - destruct (create_spec st) as (r & st' & Hc & _). eauto.
  - intros bt be A B hA hB ldA stA ldB stB Hh HA HdA HB HdB.
    assert (Hr : walk_reaches bt be A ∅ [] (walk_start st) [A; B] A ldB
                   ([] ++ [hA] ++ [hB]) stB).
    { eapply reaches_next; [done..|]. eapply reaches_next; [done..|].
      rewrite <- app_assoc. constructor. }
    destruct (Hloop _ _ _ _ _ _ _ _ Hh Hr) as (_ & _ & _ & Hcyc).
    apply Hcyc, elem_of_cons. by left.
Qed.

(** C6 (as amended).  [read_directory] refuses an offset that is zero or
    negative with BadData "Bad offset", but the walk never hands it a zero:
    a start or next-directory offset below zero makes the call fail with
    "Bad offset"; an offset of 0 ends the chain, returning the model when at
    least one directory was read and BadData "TIFF contains no directories"
    when none was. *)
Theorem walk_bad_offset st :
  (forall off ld bt be s,
     off <= 0 ->
     read_directory off ld bt be s = Some (inl (bad_data "Bad offset"), 0, ld, s))
  /\ (forall bt be d0 offs d ld dirs st1,
        header_shape (f_bytes st) = Some (bt, be, d0) ->
        walk_reaches bt be d0 ∅ [] (walk_start st) offs d ld dirs st1 ->
        (d < 0 ->
         exists st', _openslide_tifflike_create st
                     = Some (inl (bad_data "Bad offset"), st'))
        /\ (d = 0 -> dirs <> [] ->
            exists st', _openslide_tifflike_create st
                        = Some (inr (mk_tifflike dirs), st'))
        /\ (d = 0 -> dirs = [] ->
            exists st', _openslide_tifflike_create st
                        = Some (inl (bad_data "TIFF contains no directories"), st'))).
Proof.
  split; [intros; by apply read_directory_bad_offset|].
  intros bt be d0 offs d ld dirs st1 Hh Hr.
  split; [|split].
  - intros Hd.
    assert (Hw : walk bt be d0 ∅ [] (walk_start st)
                   (Some (bad_data "Bad offset")) dirs ld st1).
    { eapply reaches_walk; [exact Hr|]. eapply walk_fail; [lia|].
      apply read_directory_bad_offset. lia. }
    destruct (create_of_walk st _ _ _ _ _ _ _ Hh Hw) as (st' & Hc). eauto.
  - intros -> Hne.
    assert (Hw : walk bt be d0 ∅ [] (walk_start st) None dirs ld st1).
    { eapply reaches_walk; [exact Hr|]. constructor. }
    destruct (create_of_walk st _ _ _ _ _ _ _ Hh Hw) as (st' & Hc).
    unfold create_result in Hc. rewrite decide_False in Hc by done. eauto.
  - intros -> ->.
    assert (Hw : walk bt be d0 ∅ [] (walk_start st) None [] ld st1).
    { eapply reaches_walk; [exact Hr|]. constructor. }
    destruct (create_of_walk st _ _ _ _ _ _ _ Hh Hw) as (st' & Hc). eauto.
Qed.

(** C5.  The header parser refuses, with FormatNotSupported and without
    producing a model, a magic number that is neither marker, a version
    other than 42 and 43, and a BigTIFF header whose offset size is not 8 or
    whose reserved field is not 0.  FormatNotSupported is returned for
    exactly the files whose header has neither of the two shapes, and a
    header has neither shape exactly in the three cases above or when it is
    cut short before its first directory offset is complete. *)
Theorem header_rejection st :
  let bytes := f_bytes st in
  ((hdr_endian bytes = None
    \/ (exists be, hdr_endian bytes = Some be
                   /\ hdr_version be bytes <> TIFF_VERSION_CLASSIC
                   /\ hdr_version be bytes <> TIFF_VERSION_BIG)
    \/ (exists be, hdr_endian bytes = Some be
                   /\ hdr_version be bytes = TIFF_VERSION_BIG
                   /\ (hdr_offset_size be bytes <> 8 \/ hdr_reserved be bytes <> 0))) ->
   header_shape bytes = None)
  /\ (header_shape bytes = None ->
      exists e st', _openslide_tifflike_create st = Some (inl e, st')
                    /\ code e = OPENSLIDE_ERROR_FORMAT_NOT_SUPPORTED)
  /\ (forall e st',
        _openslide_tifflike_create st = Some (inl e, st') ->
        code e = OPENSLIDE_ERROR_FORMAT_NOT_SUPPORTED ->
        header_shape bytes = None)
  /\ (header_shape bytes = None ->
      hdr_endian bytes = None
      \/ exists be,
           hdr_endian bytes = Some be
           /\ ((hdr_version be bytes <> TIFF_VERSION_CLASSIC
                /\ hdr_version be bytes <> TIFF_VERSION_BIG)
               \/ (hdr_version be bytes = TIFF_VERSION_BIG
                   /\ (hdr_offset_size be bytes <> 8 \/ hdr_reserved be bytes <> 0))
               \/ (hdr_version be bytes = TIFF_VERSION_CLASSIC
                   /\ Z.of_nat (length bytes) < 8)
               \/ (hdr_version be bytes = TIFF_VERSION_BIG
                   /\ Z.of_nat (length bytes) < 16))).
Proof.
  cbv zeta. split; [|split; [|split]].
  - unfold header_shape.
    intros [->|[(be & -> & H42 & H43)|(be & -> & H43 & Hf)]]; [done| |].
    + destruct (hdr_version be (f_bytes st) =? 43) eqn:E1; [lia|].
      destruct (hdr_version be (f_bytes st) =? 42) eqn:E2; [lia|]. done.
    + rewrite H43. cbn [Z.eqb Pos.eqb andb].
      destruct (4 <=? _); [|done].
      destruct (16 <=? _); [|done]. cbn [andb].
      destruct (hdr_offset_size be (f_bytes st) =? 8) eqn:E1;
        destruct (hdr_reserved be (f_bytes st) =? 0) eqn:E2; try done. lia.
  - intros Hh. destruct (create_spec st) as (r & st' & Hc & _ & Hcase).
    rewrite Hh in Hcase. destruct Hcase as (e & -> & Hcode & _). eauto.
  - intros e st' Hc Hcode.
    destruct (create_spec st) as (r & st'' & Hc' & _ & Hcase).
    rewrite Hc in Hc'. simplify_eq.
    destruct (header_shape (f_bytes st)) as [[[bt be] d0]|]; [|done].
    destruct Hcase as (err & dirs & ld & st2 & Hw & Hres).
    pose proof (walk_invariants _ _ _ _ _ _ _ _ _ _ Hw) as (_ & _ & _ & _ & Hne).
    destruct err as [e'|].
    + destruct Hres as [[= <-] _]. by apply (Hne e) in Hcode.
    + destruct (decide (dirs = [])); destruct Hres as [Hr _]; [|done].
      injection Hr as ->. done.
  - unfold header_shape. destruct (hdr_endian (f_bytes st)) as [be|]; [|by left].
    intros Hnone. right. exists be. split; [done|].
    destruct (hdr_version be (f_bytes st) =? 43) eqn:E43.
    + apply Z.eqb_eq in E43. rewrite E43 in *. cbn [Z.eqb Pos.eqb andb] in Hnone.
      destruct (Z.leb_spec 16 (Z.of_nat (length (f_bytes st)))); [|auto].
      destruct (Z.leb_spec 4 (Z.of_nat (length (f_bytes st)))); [|lia].
      cbn [andb] in Hnone. right. left. split; [done|].
      destruct (hdr_offset_size be (f_bytes st) =? 8) eqn:E8; [|left; lia].
      destruct (hdr_reserved be (f_bytes st) =? 0) eqn:E0; [done|right; lia].
    + apply Z.eqb_neq in E43. cbn [andb] in Hnone.
      destruct (hdr_version be (f_bytes st) =? 42) eqn:E42; [|left; lia].
      apply Z.eqb_eq in E42. cbn [andb] in Hnone.
      destruct (Z.leb_spec 8 (Z.of_nat (length (f_bytes st)))); [done|].
      right. right. left. done.
Qed.

(** * Claims about the tag value decoder *)

Lemma value_size_and_count_elem t raw sz :
  type_width t = Some sz -> 0 <= elem_count t raw < 2 ^ 64 ->
  value_size_and_count t raw = Some (sz, elem_count t raw).
Proof.
  unfold type_width, value_size_and_count, elem_count, to_uint64.
  repeat match goal with
         | |- context [match ?x with _ => _ end] => is_var x; destruct x
         end; intros [= <-] || discriminate; intros Hr;
    rewrite ?Z.mod_small by lia; reflexivity.
Qed.

Lemma elem_count_ge t raw : 0 <= raw -> raw <= elem_count t raw.
Proof.
  unfold elem_count.
  repeat match goal with
         | |- context [match ?x with _ => _ end] => is_var x; destruct x
         end; lia.
Qed.

(** C3 (as amended).  For every directory entry with a known type whose
    count of raw elements (after the doubling of Rational counts) lies
    between 1 and SSIZE_MAX / width, and whose buffer [g_try_malloc] grants:
    when width * count fits the inline field, the entry decodes, its buffer
    is the first width * count bytes of the inline field with every element
    byte-swapped, and the stream sees only the four sequential reads of the
    entry (no seek); otherwise the inline field is an absolute offset: when
    the width * count bytes at that offset lie inside the file, the entry
    decodes, its buffer is those bytes byte-swapped, exactly one read of
    width * count bytes is made there, and the cursor is put back just
    after the entry; when they do not, the entry fails with BadData "Cannot
    read value".  The swap is per element: element i of the buffer has the
    value that the file spells in its byte order. *)
Theorem entry_value_storage bt be st sz :
  readable (entry_size bt) st ->
  type_width (entry_type be st) = Some sz ->
  let cnt := elem_count (entry_type be st) (entry_count bt be st) in
  let len := sz * cnt in
  let inline := entry_inline bt st in
  let offset := to_int64 (file_val be inline) in
  let fields := [fread_call 2; fread_call 2; fread_call (field_len bt);
                 fread_call (field_len bt)] in
  let item v := mk_item (entry_type be st) (entry_count bt be st) v in
  0 < cnt <= SSIZE_MAX ÷ sz ->
  len <= alloc_limit ->
  (len <= field_len bt ->
   exists st',
     read_entry bt be true st
     = (inr (entry_tag be st, item (fix_byte_order (slice inline 0 len) sz cnt be)), st')
     /\ f_pos st' = f_pos st + entry_size bt
     /\ f_log st' = f_log st ++ fields)
  /\ (field_len bt < len ->
      (0 <= offset /\ offset + len <= f_size st ->
       exists st',
         read_entry bt be true st
         = (inr (entry_tag be st,
                 item (fix_byte_order (slice (f_bytes st) offset len) sz cnt be)), st')
         /\ f_pos st' = f_pos st + entry_size bt
         /\ f_log st' = f_log st ++ fields
                        ++ [fseeko_call offset; fread_call len;
                            fseeko_call (f_pos st + entry_size bt)])
      /\ (~ (0 <= offset /\ offset + len <= f_size st) ->
          fst (read_entry bt be true st) = inl (bad_data "Cannot read value")))
  /\ (forall data i,
        0 <= i < cnt -> len <= Z.of_nat (length data) ->
        load_uint sz (fix_byte_order data sz cnt be) i
        = file_val be (elem_bytes sz data i)).
Proof.
  intros Hr Htw cnt len inline offset fields item Hcnt Halloc.
  pose proof (entry_count_range bt be st Hr) as Hraw.
  pose proof (elem_count_ge (entry_type be st) (entry_count bt be st) ltac:(lia)) as Hge.
  fold cnt in Hge.
  assert (Hsz : int_size sz /\ 0 < sz).
  { unfold type_width in Htw.
    destruct (value_size_and_count (entry_type be st) 0) as [[sz' c']|] eqn:E;
      [|discriminate]. injection Htw as ->.
    apply value_size_and_count_Some in E as (Hs & _). split; [done|].
    unfold int_size in Hs. lia. }
  destruct Hsz as [Hsz Hpos].
  assert (Hmax : SSIZE_MAX ÷ sz <= SSIZE_MAX).
  { apply Z.quot_le_upper_bound; [lia|]. unfold SSIZE_MAX. nia. }
  assert (Hc63 : 0 < cnt < 2 ^ 63) by (unfold SSIZE_MAX in *; lia).
  assert (Hv : value_size_and_count (entry_type be st) (entry_count bt be st)
               = Some (sz, cnt)).
  { apply value_size_and_count_elem; [done|]. fold cnt. lia. }
  assert (Hrd : read_entry bt be true st =
            match read_tiff_value sz cnt offset inline (field_len bt) be
                    (after_entry_fields bt st) with
            | (None, st5) => (inl (bad_data "Cannot read value"), st5)
            | (Some v, st5) => (inr (entry_tag be st, item v), st5)
            end).
  { rewrite read_entry_readable by done. cbv zeta. rewrite Hv.
    rewrite (to_int64_small cnt) by lia.
    rewrite (to_int64_small (entry_count bt be st)) by lia. done. }
  rewrite Hrd. rewrite read_tiff_value_spec by (done || rd_solve).
  rewrite decide_True by (fold len; lia). fold len.
  split; [|split].
  - intros Hfit. rewrite decide_True by done.
    eexists. split; [reflexivity|]. done.
  - intros Hbig. rewrite decide_False by lia. split.
    + intros [Ho Hl]. rewrite decide_True by done.
      rewrite decide_True by (unfold after_entry_fields, f_size in *; done).
      eexists. split; [reflexivity|]. cbn [f_pos f_log after_entry_fields].
      split; [done|]. by rewrite <- app_assoc.
    + intros Hno. destruct (decide (0 <= offset)); [|done].
      rewrite decide_False; [done|].
      unfold after_entry_fields, f_size in *. cbn [f_bytes]. lia.
  - intros data i Hi Hlen. apply load_uint_fix_byte_order; [done..|]. by fold len.
Qed.

(** * Claims about duplicate tags *)

Lemma insert_entries_other (ht : gmap Z tiff_item) es tag :
  (forall e, e ∈ es -> e.1 <> tag) ->
  insert_entries ht es !! tag = ht !! tag.
Proof.
  revert ht. induction es as [|e es IH]; intros ht Hall; [done|].
  rewrite insert_entries_cons, IH.
  - apply lookup_insert_ne. apply Hall. by left.
  - intros e' He'. apply Hall. by right.
Qed.

(** The entry stored under a tag is the last one that carries it. *)
Lemma insert_entries_last (ht : gmap Z tiff_item) es k tag item :
  es !! k = Some (tag, item) ->
  (forall k' e, (k < k')%nat -> es !! k' = Some e -> e.1 <> tag) ->
  insert_entries ht es !! tag = Some item.
Proof.
  revert ht k. induction es as [|e es IH]; intros ht k Hk Hlater; [done|].
  rewrite insert_entries_cons. destruct k as [|k].
  - injection Hk as ->. rewrite insert_entries_other.
    + apply lookup_insert_eq.
    + intros e' [k' Hk']%list_elem_of_lookup. apply (Hlater (S k') e'); [lia|done].
  - apply (IH _ k); [done|]. intros k' e' Hlt He'.
    apply (Hlater (S k') e'); [lia|done].
Qed.

Lemma get_item_lookup (tl : _openslide_tifflike) (dir : nat) ht tag :
  directories tl !! dir = Some ht ->
  get_item tl (Z.of_nat dir) tag = ht !! tag.
Proof.
  intros Hd. unfold get_item. pose proof (lookup_lt_Some _ _ _ Hd).
  destruct (Z.of_nat dir <? 0) eqn:E1; [lia|].
  destruct (Z.of_nat dir >=? Z.of_nat (length (directories tl))) eqn:E2; [lia|].
  cbn [orb]. by rewrite Nat2Z.id, Hd.
Qed.

(** C9.  A directory that holds the same tag id in two entries is parsed
    like any other: whenever its count field, each of its entries taken by
    itself and its next-offset field can be read and decoded, reading the
    directory succeeds, whether or not tags repeat.  The later entry
    overwrites the earlier one: the table holds, under that tag, the item of
    the last entry that carries it, and this is what the accessors find once
    the table is part of a model. *)
Theorem duplicate_tags_last_write_wins off ld bt be st :
  0 < off -> off ∉ ld ->
  dir_complete bt be (f_bytes st) off ->
  let es := dir_entry_list bt be (f_bytes st) off in
  exists ht st',
    read_directory off ld bt be st
    = Some (inr ht, dir_next bt be (f_bytes st) off, {[off]} ∪ ld, st')
    /\ forall (j k : nat) tag item_j item_k,
         (j < k)%nat ->
         es !! j = Some (tag, item_j) ->
         es !! k = Some (tag, item_k) ->
         (forall k' e, (k < k')%nat -> es !! k' = Some e -> e.1 <> tag) ->
         ht !! tag = Some item_k
         /\ forall (tl : _openslide_tifflike) (dir : nat),
              directories tl !! dir = Some ht ->
              get_item tl (Z.of_nat dir) tag = Some item_k
              /\ _openslide_tifflike_get_value_count tl (Z.of_nat dir) tag
                 = count item_k.
Proof.
  intros Hpos Hfresh Hcomplete es.
  destruct (read_directory_spec off ld bt be st)
    as (r & next & ld' & st' & Hd & _ & Hres).
  destruct r as [e|ht].
  { destruct Hres as (_ & Hno & _). by destruct Hno. }
  destruct Hres as (_ & _ & -> & _ & -> & -> & _).
  eexists _, st'. split; [exact Hd|].
  intros j k tag item_j item_k Hjk Hj Hk Hlater.
  assert (Hlast : insert_entries ∅ es !! tag = Some item_k)
    by (by eapply insert_entries_last).
  split; [done|]. intros tl dir Hdir.
  unfold _openslide_tifflike_get_value_count.
  rewrite (get_item_lookup tl dir _ tag Hdir). fold es. by rewrite Hlast.
Qed.

(** * Claims about the accessors *)

Ltac switch_cases :=
  repeat match goal with
         | |- context [match ?x with _ => _ end] => is_var x; destruct x
         end.

Lemma get_and_check_item_spec tl dir tag i ok :
  get_and_check_item tl dir tag i ok
  = match get_item tl dir tag with
    | Some item =>
        if decide (0 <= i < count item) then (Some item, ok)
        else (None, clear_ok ok)
    | None => (None, clear_ok ok)
    end.
Proof.
  unfold get_and_check_item. destruct (get_item tl dir tag) as [item|]; [|done].
  destruct (i <? 0) eqn:E1; destruct (i >=? count item) eqn:E2; cbn [orb];
    case_decide; try done; lia.
Qed.

Lemma load_uint_range w v i : 0 <= w <= 8 -> 0 <= load_uint w v i < 2 ^ (8 * w).
Proof.
  intros Hw. unfold load_uint, elem_bytes.
  pose proof (host_val_range (slice v (w * i) w)) as H.
  pose proof (length_slice_le v (w * i) w ltac:(lia)) as Hl.
  assert (2 ^ (8 * Z.of_nat (length (slice v (w * i) w))) <= 2 ^ (8 * w))
    by (apply Z.pow_le_mono_r; lia).
  lia.
Qed.

(** The buffer of a well-formed item holds all its raw elements. *)
Lemma item_wf_length item w :
  item_wf item -> 0 < count item -> type_width (type item) = Some w ->
  Z.of_nat (length (value item)) = w * elem_count (type item) (count item)
  /\ 0 < w.
Proof.
  intros (sz & c & Hv & Hc & Hlen & Hrange) Hpos Htw.
  rewrite Z.mod_small in Hv by lia.
  pose proof (value_size_and_count_Some _ _ _ _ Hv) as (Hsz & _ & Hcases).
  assert (sz = w) as ->.
  { revert Htw Hv. unfold type_width, value_size_and_count.
    generalize (type item). intros t. switch_cases; congruence. }
  assert (0 < w) by (unfold int_size in Hsz; lia).
  split; [|done]. rewrite Hlen. f_equal.
  destruct Hcases as [(Hrat & _ & ->)|(Hn5 & Hn10 & ->)].
  - assert (elem_count (type item) (count item) = count item * 2) as ->
      by (unfold elem_count; destruct Hrat as [-> | ->]; done).
    unfold to_uint64 in *. rewrite Z.mod_small in * by lia.
    destruct (decide (count item * 2 < 2 ^ 63)).
    + apply to_int64_small. lia.
    + rewrite to_int64_neg in Hc by lia. lia.
  - assert (elem_count (type item) (count item) = count item) as ->.
    { revert Hn5 Hn10. unfold elem_count. generalize (type item). intros t.
      switch_cases; done. }
    apply to_int64_small. lia.
Qed.

Lemma elem_in_bounds v w n i :
  0 < w -> Z.of_nat (length v) = w * n -> 0 <= i < n ->
  Z.of_nat (length (elem_bytes w v i)) = w.
Proof.
  intros. unfold elem_bytes. apply length_slice; nia.
Qed.

Lemma get_uint_range tl dir tag i ok :
  0 <= fst (_openslide_tifflike_get_uint tl dir tag i ok) < 2 ^ 64.
Proof.
  unfold _openslide_tifflike_get_uint. rewrite get_and_check_item_spec.
  destruct (get_item tl dir tag) as [item|]; [|cbn; lia].
  case_decide; [|cbn; lia].
  generalize (type item). intros t.
  pose proof (load_uint_range 1 (value item) i ltac:(lia)).
  pose proof (load_uint_range 2 (value item) i ltac:(lia)).
  pose proof (load_uint_range 4 (value item) i ltac:(lia)).
  pose proof (load_uint_range 8 (value item) i ltac:(lia)).
  switch_cases; cbn [fst]; lia.
Qed.

(** C7.  [get_uint] returns the stored element, widened to an unsigned
    64-bit value, when the entry has type Byte, Short, Long, IFD, Long8 or
    IFD8 and the index is in range, leaving the success flag alone; for any
    other stored type, for a missing tag and for an index out of range it
    clears the success flag and returns 0.  In a well-formed item the
    element read lies inside the value buffer. *)
Theorem get_uint_widens tl dir tag i ok :
  (forall item,
     get_item tl dir tag = Some item -> 0 <= i < count item ->
     let r := _openslide_tifflike_get_uint tl dir tag i ok in
     (type item = TIFF_BYTE -> r = (load_uint 1 (value item) i, ok))
     /\ (type item = TIFF_SHORT -> r = (load_uint 2 (value item) i, ok))
     /\ (type item = TIFF_LONG \/ type item = TIFF_IFD ->
         r = (load_uint 4 (value item) i, ok))
     /\ (type item = TIFF_LONG8 \/ type item = TIFF_IFD8 ->
         r = (load_uint 8 (value item) i, ok))
     /\ (type item <> TIFF_BYTE -> type item <> TIFF_SHORT ->
         type item <> TIFF_LONG -> type item <> TIFF_IFD ->
         type item <> TIFF_LONG8 -> type item <> TIFF_IFD8 ->
         r = (0, clear_ok ok))
     /\ (forall w, item_wf item -> type_width (type item) = Some w ->
                   ~ is_rational (type item) ->
                   Z.of_nat (length (elem_bytes w (value item) i)) = w))
  /\ (get_item tl dir tag = None ->
      _openslide_tifflike_get_uint tl dir tag i ok = (0, clear_ok ok))
  /\ (forall item,
        get_item tl dir tag = Some item -> i < 0 \/ count item <= i ->
        _openslide_tifflike_get_uint tl dir tag i ok = (0, clear_ok ok))
  /\ 0 <= fst (_openslide_tifflike_get_uint tl dir tag i ok) < 2 ^ 64.
Proof.
  unfold _openslide_tifflike_get_uint. rewrite get_and_check_item_spec.
  split; [|split; [|split]].
  - intros item -> Hi. rewrite decide_True by done. cbv zeta.
    repeat split.
    + by intros ->.
    + by intros ->.
    + by intros [-> | ->].
    + by intros [-> | ->].
    + generalize (type item). intros t. switch_cases; intros; done.
    + intros w Hwf Htw Hrat.
      destruct (item_wf_length item w Hwf ltac:(lia) Htw) as [Hlen Hw].
      apply (elem_in_bounds _ _ (count item)); [done| |done].
      rewrite Hlen. f_equal. revert Hrat. unfold is_rational, elem_count.
      generalize (type item). intros t. switch_cases; intros Hrat; try done;
        exfalso; apply Hrat; auto.
  - by intros ->.
  - intros item -> Hi. by rewrite decide_False by lia.
  - destruct (get_item tl dir tag) as [item|]; [|cbn; lia].
    case_decide; [|cbn; lia].
    generalize (type item). intros t.
    pose proof (load_uint_range 1 (value item) i ltac:(lia)).
    pose proof (load_uint_range 2 (value item) i ltac:(lia)).
    pose proof (load_uint_range 4 (value item) i ltac:(lia)).
    pose proof (load_uint_range 8 (value item) i ltac:(lia)).
    switch_cases; cbn [fst]; lia.
Qed.


(** What [get_item] finds is what the lookup finds that follows the reads:
    the test of the index keeps the read of the array inside it. *)
Lemma get_item_mem_agrees tl dir tag :
  get_item_mem tl dir tag = inr (get_item tl dir tag).
Proof.
  unfold get_item_mem, get_item, pdata_read.
  destruct (dir <? 0) eqn:E1; [done|]. cbn [orb].
  destruct (dir >=? Z.of_nat (length (directories tl))) eqn:E2; [done|].
  destruct (directories tl !! Z.to_nat dir) eqn:E; [done|].
  apply lookup_ge_None in E. lia.
Qed.

(** C10.  A directory index that is negative or not below the number of
    directories is handled like a missing tag by every accessor: the lookup
    finds no item, the success flag is cleared and the sentinel is returned
    (0, NaN, no buffer, a count of 0).  The answer does not depend on what
    the directories of the model hold.  No directory storage is accessed:
    the array of directories has no slot at such an index, so that reading
    one would be a fault, and the lookup and every accessor, followed read
    by read, return their sentinel without a fault. *)
Theorem directory_out_of_range tl dir tag i ok :
  dir < 0 \/ _openslide_tifflike_get_directory_count tl <= dir ->
  get_item tl dir tag = None
  /\ _openslide_tifflike_get_uint tl dir tag i ok = (0, clear_ok ok)
  /\ _openslide_tifflike_get_sint tl dir tag i ok = (0, clear_ok ok)
  /\ _openslide_tifflike_get_float tl dir tag i ok = (NAN, clear_ok ok)
  /\ _openslide_tifflike_get_buffer tl dir tag = None
  /\ _openslide_tifflike_get_value_count tl dir tag = 0
  /\ (forall tl' dir' tag',
        get_item tl' dir' tag' = None ->
        _openslide_tifflike_get_uint tl' dir' tag' i ok
        = _openslide_tifflike_get_uint tl dir tag i ok
        /\ _openslide_tifflike_get_sint tl' dir' tag' i ok
           = _openslide_tifflike_get_sint tl dir tag i ok
        /\ _openslide_tifflike_get_float tl' dir' tag' i ok
           = _openslide_tifflike_get_float tl dir tag i ok
        /\ _openslide_tifflike_get_buffer tl' dir' tag'
           = _openslide_tifflike_get_buffer tl dir tag
        /\ _openslide_tifflike_get_value_count tl' dir' tag'
           = _openslide_tifflike_get_value_count tl dir tag)
  /\ pdata_read tl dir = inl out_of_bounds
  /\ get_item_mem tl dir tag = inr None
  /\ _openslide_tifflike_get_uint_mem tl dir tag i ok = inr (0, clear_ok ok)
  /\ _openslide_tifflike_get_sint_mem tl dir tag i ok = inr (0, clear_ok ok)
  /\ _openslide_tifflike_get_float_mem tl dir tag i ok = inr (NAN, clear_ok ok)
  /\ _openslide_tifflike_get_buffer_mem tl dir tag = inr None
  /\ _openslide_tifflike_get_value_count_mem tl dir tag = inr 0.
Proof.
  intros Hdir. unfold _openslide_tifflike_get_directory_count in Hdir.
  assert (Hnone : get_item tl dir tag = None).
  { unfold get_item.
    destruct (dir <? 0) eqn:E1; [done|].
    destruct (dir >=? Z.of_nat (length (directories tl))) eqn:E2; [done|]. lia. }
  assert (Hslot : pdata_read tl dir = inl out_of_bounds).
  { unfold pdata_read. destruct (dir <? 0) eqn:E1; [done|].
    rewrite (proj2 (lookup_ge_None (directories tl) (Z.to_nat dir))) by lia. done. }
  assert (Hmem : get_item_mem tl dir tag = inr None).
  { unfold get_item_mem.
    destruct (dir <? 0) eqn:E1; [done|].
    destruct (dir >=? Z.of_nat (length (directories tl))) eqn:E2; [done|]. lia. }
  unfold _openslide_tifflike_get_uint, _openslide_tifflike_get_sint,
    _openslide_tifflike_get_float, _openslide_tifflike_get_buffer,
    _openslide_tifflike_get_value_count.
  rewrite !get_and_check_item_spec, Hnone.
  do 6 (split; [done|]).
  split.
  { intros tl' dir' tag' Hnone'. by rewrite !get_and_check_item_spec, Hnone'. }
  split; [exact Hslot|]. split; [exact Hmem|].
  unfold _openslide_tifflike_get_uint_mem, _openslide_tifflike_get_sint_mem,
    _openslide_tifflike_get_float_mem, _openslide_tifflike_get_buffer_mem,
    _openslide_tifflike_get_value_count_mem, get_and_check_item_mem.
  by rewrite Hmem.
Qed.

(** * The invariant of stored items *)

(** Every item of a model that [_openslide_tifflike_create] returns has a
    known type and a count that is not zero; when the count is positive, its
    value buffer holds exactly width * count bytes, the count taken after
    the doubling of Rational counts. *)
Theorem create_items_wf st tl st' dir tag item :
  _openslide_tifflike_create st = Some (inr tl, st') ->
  get_item tl dir tag = Some item ->
  item_wf item
  /\ exists w,
       type_width (type item) = Some w
       /\ count item <> 0
       /\ (0 < count item ->
           Z.of_nat (length (value item))
           = w * elem_count (type item) (count item)).
Proof.
  intros Hc Hitem.
  assert (Hwf : tifflike_wf tl).
  { destruct (create_spec st) as (r & st'' & Hc' & _ & Hcase).
    rewrite Hc in Hc'. simplify_eq.
    destruct (header_shape (f_bytes st)) as [[[bt be] d0]|].
    2:{ by destruct Hcase as (e & ? & _). }
    destruct Hcase as (err & dirs & ld & st2 & Hw & Hres).
    pose proof (walk_invariants _ _ _ _ _ _ _ _ _ _ Hw)
      as (_ & _ & _ & (new & Hd & Hnew) & _).
    cbn in Hd. subst dirs.
    destruct err as [e|]; [by destruct Hres|].
    destruct (decide _); destruct Hres as [[= ->] _]. exact Hnew. }
  assert (Hi : item_wf item).
  { unfold get_item in Hitem.
    destruct (_ || _); [done|].
    destruct (directories tl !! Z.to_nat dir) as [ht|] eqn:Hd; [|done].
    unfold tifflike_wf in Hwf. rewrite Forall_forall in Hwf.
    apply (Hwf ht) with tag; [|done]. by eapply list_elem_of_lookup_2. }
  split; [done|].
  destruct Hi as (sz & c & Hv & Hpos & Hlen & Hrange).
  assert (Htw : type_width (type item) = Some sz).
  { revert Hv. unfold type_width, value_size_and_count.
    generalize (type item). intros t. switch_cases; congruence. }
  exists sz. split; [done|]. split.
  - intros H0. rewrite H0 in Hv. change (0 mod 2 ^ 64) with 0 in Hv.
    apply value_size_and_count_Some in Hv as (_ & _ & [(_ & _ & ->)|(_ & _ & ->)]);
      vm_compute in Hpos; discriminate.
  - intros Hc0. apply item_wf_length; [|done..].
    by exists sz, c.
Qed.

(** * More about the accessors *)



(** What each accessor does with an item, by the item's type. *)
Lemma get_uint_by_type tl dir tag i ok item :
  get_item tl dir tag = Some item -> 0 <= i < count item ->
  snd (_openslide_tifflike_get_uint tl dir tag i ok)
  = if uint_type (type item) then ok else clear_ok ok.
Proof.
  intros Hit Hi. unfold _openslide_tifflike_get_uint.
  rewrite get_and_check_item_spec, Hit, decide_True by done.
  unfold uint_type. generalize (type item). intros t. switch_cases; done.
Qed.

Lemma get_sint_by_type tl dir tag i ok item :
  get_item tl dir tag = Some item -> 0 <= i < count item ->
  snd (_openslide_tifflike_get_sint tl dir tag i ok)
  = if sint_type (type item) then ok else clear_ok ok.
Proof.
  intros Hit Hi. unfold _openslide_tifflike_get_sint.
  rewrite get_and_check_item_spec, Hit, decide_True by done.
  unfold sint_type. generalize (type item). intros t. switch_cases; done.
Qed.

Lemma get_float_by_type tl dir tag i ok item :
  get_item tl dir tag = Some item -> 0 <= i < count item ->
  snd (_openslide_tifflike_get_float tl dir tag i ok)
  = if float_type (type item) then ok else clear_ok ok.
Proof.
  intros Hit Hi. unfold _openslide_tifflike_get_float.
  rewrite get_and_check_item_spec, Hit, decide_True by done.
  unfold float_type. generalize (type item). intros t. switch_cases; done.
Qed.

Lemma get_buffer_by_type tl dir tag item :
  get_item tl dir tag = Some item ->
  _openslide_tifflike_get_buffer tl dir tag
  = if buffer_type (type item) then Some (value item) else None.
Proof.
  intros Hit. unfold _openslide_tifflike_get_buffer. rewrite Hit.
  unfold buffer_type. generalize (type item). intros t. switch_cases; done.
Qed.

(** An item of a known type is served by exactly one accessor: for an index
    in range, one and only one of [get_uint], [get_sint] and [get_float]
    leaves the success flag set or [get_buffer] returns the buffer.  An item
    of an unknown type is served by none. *)
Theorem accessors_partition tl dir tag i item :
  get_item tl dir tag = Some item -> 0 <= i < count item ->
  let served_uint :=
    bool_decide (snd (_openslide_tifflike_get_uint tl dir tag i (Some true)) = Some true) in
  let served_sint :=
    bool_decide (snd (_openslide_tifflike_get_sint tl dir tag i (Some true)) = Some true) in
  let served_float :=
    bool_decide (snd (_openslide_tifflike_get_float tl dir tag i (Some true)) = Some true) in
  let served_buffer :=
    bool_decide (is_Some (_openslide_tifflike_get_buffer tl dir tag)) in
  Z.b2z served_uint + Z.b2z served_sint + Z.b2z served_float + Z.b2z served_buffer
  = match type_width (type item) with Some _ => 1 | None => 0 end.
Proof.
  intros Hit Hi. cbv zeta.
  rewrite (get_uint_by_type _ _ _ _ _ _ Hit Hi), (get_sint_by_type _ _ _ _ _ _ Hit Hi),
    (get_float_by_type _ _ _ _ _ _ Hit Hi), (get_buffer_by_type _ _ _ _ Hit).
  unfold uint_type, sint_type, float_type, buffer_type, type_width, value_size_and_count.
  generalize (type item). intros t. switch_cases; reflexivity.
Qed.

(** The accessors only ever clear the success flag: they never set it, and
    a null flag stays null.  When a call that was handed a set flag clears
    it, the value returned is the sentinel (0 or NaN); so after any sequence
    of calls on one flag, the flag is still set only if every call
    succeeded. *)
Theorem accessors_only_clear_flag tl dir tag i ok :
  let u := _openslide_tifflike_get_uint tl dir tag i ok in
  let s := _openslide_tifflike_get_sint tl dir tag i ok in
  let f := _openslide_tifflike_get_float tl dir tag i ok in
  (snd u = ok \/ snd u = clear_ok ok)
  /\ (snd s = ok \/ snd s = clear_ok ok)
  /\ (snd f = ok \/ snd f = clear_ok ok)
  /\ (snd u <> ok -> fst u = 0)
  /\ (snd s <> ok -> fst s = 0)
  /\ (snd f <> ok -> fst f = NAN)
  /\ (ok <> Some true -> snd u = ok /\ snd s = ok /\ snd f = ok).
Proof.
  cbv zeta.
  unfold _openslide_tifflike_get_uint, _openslide_tifflike_get_sint,
    _openslide_tifflike_get_float.
  rewrite !get_and_check_item_spec.
  assert (Hclr : ok <> Some true -> clear_ok ok = ok) by (by destruct ok as [[]|]).
  destruct (get_item tl dir tag) as [item|].
  2:{ cbn [fst snd]. repeat split; auto. }
  case_decide.
  2:{ cbn [fst snd]. repeat split; auto. }
  generalize (type item). intros t.
  repeat split; revert Hclr; switch_cases; cbn [fst snd]; intros; auto; try done.
Qed.

(** * More about the byte swap *)

Lemma swap_elem_involutive be elem : swap_elem be (swap_elem be elem) = elem.
Proof.
  unfold swap_elem, GUINT_FROM_BE, GUINT_FROM_LE.
  destruct be, host_big_endian; try reflexivity; apply rev_involutive.
Qed.

Lemma fix_byte_order_loop_nil size count be :
  fix_byte_order_loop size count be [] = [].
Proof.
  induction count as [|c IH]; [done|]. cbn [fix_byte_order_loop].
  rewrite take_nil, drop_nil, IH.
  fold (swap_elem be []). unfold swap_elem, GUINT_FROM_BE, GUINT_FROM_LE.
  by destruct be, host_big_endian.
Qed.

Lemma fix_byte_order_loop_involutive size count be data :
  fix_byte_order_loop size count be (fix_byte_order_loop size count be data) = data.
Proof.
  revert data. induction count as [|c IH]; intros data; [done|].
  cbn [fix_byte_order_loop]. fold (swap_elem be (take size data)).
  set (rest := fix_byte_order_loop size c be (drop size data)).
  assert (Hl : length (swap_elem be (take size data)) = length (take size data))
    by apply length_swap_elem.
  destruct (decide (size <= length data)%nat) as [Hle|Hgt].
  - assert (Hs : length (swap_elem be (take size data)) = size)
      by (rewrite Hl, length_take; lia).
    rewrite take_app_length' by done. rewrite drop_app_length' by done.
    fold (swap_elem be (swap_elem be (take size data))).
    rewrite swap_elem_involutive. subst rest. rewrite IH. apply take_drop.
  - assert (Hd : drop size data = []) by (apply drop_ge; lia).
    subst rest. rewrite Hd, fix_byte_order_loop_nil, app_nil_r.
    rewrite (take_ge data) by lia.
    rewrite take_ge by (rewrite length_swap_elem; lia).
    rewrite drop_ge by (rewrite length_swap_elem; lia).
    fold (swap_elem be (swap_elem be data)).
    rewrite swap_elem_involutive, fix_byte_order_loop_nil. apply app_nil_r.
Qed.

Lemma fix_byte_order_twice data size count be :
  fix_byte_order (fix_byte_order data size count be) size count be = data.
Proof.
  unfold fix_byte_order.
  repeat match goal with
         | |- context [match ?x with _ => _ end] => is_var x; destruct x
         end; try reflexivity; apply fix_byte_order_loop_involutive.
Qed.

(** Fixing the byte order of a buffer twice gives the buffer back, for
    every width, count, byte order and host. *)
Theorem fix_byte_order_involutive data size count be :
  fix_byte_order (fix_byte_order data size count be) size count be = data.
Proof.
  unfold fix_byte_order.
  repeat match goal with
         | |- context [match ?x with _ => _ end] => is_var x; destruct x
         end; try reflexivity; apply fix_byte_order_loop_involutive.
Qed.

Lemma fix_byte_order_loop_native size count data :
  fix_byte_order_loop size count host_big_endian data = data.
Proof.
  revert data. induction count as [|c IH]; intros data; [done|].
  cbn [fix_byte_order_loop]. rewrite IH.
  unfold GUINT_FROM_BE, GUINT_FROM_LE. destruct host_big_endian; apply take_drop.
Qed.

(** On a host whose byte order is the file's, [fix_byte_order] leaves the
    buffer as it is; on the other hosts it reverses the bytes of each of
    the [count] elements in place, and nothing else: the length is kept and
    the bytes after the last element stay where they are. *)
Theorem fix_byte_order_native_or_reversed data size count be :
  int_size size -> 0 <= count -> size * count <= Z.of_nat (length data) ->
  (be = host_big_endian -> fix_byte_order data size count be = data)
  /\ (be <> host_big_endian ->
      forall i, 0 <= i < count ->
        elem_bytes size (fix_byte_order data size count be) i
        = rev (elem_bytes size data i))
  /\ length (fix_byte_order data size count be) = length data
  /\ drop (Z.to_nat (size * count)) (fix_byte_order data size count be)
     = drop (Z.to_nat (size * count)) data.
Proof.
  intros Hsz Hc Hlen. split; [|split; [|split]].
  - intros ->. unfold fix_byte_order.
    repeat match goal with
           | |- context [match ?x with _ => _ end] => is_var x; destruct x
           end; try reflexivity; apply fix_byte_order_loop_native.
  - intros Hne i Hi. rewrite fix_byte_order_elem by done.
    unfold swap_elem, GUINT_FROM_BE, GUINT_FROM_LE.
    destruct be, host_big_endian; done.
  - apply length_fix_byte_order.
  - assert (Hloop : forall n c d, (n * c <= length d)%nat ->
              drop (n * c) (fix_byte_order_loop n c be d) = drop (n * c) d).
    { intros n c. induction c as [|c IH]; intros d Hd.
      - by rewrite Nat.mul_0_r, !drop_0.
      - cbn [fix_byte_order_loop]. fold (swap_elem be (take n d)).
        assert (Hs : length (swap_elem be (take n d)) = n)
          by (rewrite length_swap_elem, length_take; nia).
        replace (n * S c)%nat with (length (swap_elem be (take n d)) + n * c)%nat at 1 by lia.
        rewrite drop_app_add, IH by (rewrite length_drop; nia).
        rewrite drop_drop. f_equal. lia. }
    unfold fix_byte_order.
    destruct Hsz as [-> | [-> | [-> | ->]]]; [done| | |];
      (rewrite Z2Nat.inj_mul by lia; apply Hloop; lia).
Qed.

(** [read_uint] decodes an integer of 1, 2, 4 or 8 bytes as the file spells
    it, whatever the byte order of the host: when the bytes are there, it
    returns their value in the byte order of the file, below 2^(8 size),
    moves the cursor past them with a single read and leaves the flag
    alone; when they are not, it returns 0 and clears the flag. *)
Theorem read_uint_decodes size be ok st :
  int_size size ->
  (readable size st ->
   let v := file_val be (slice (f_bytes st) (f_pos st) size) in
   read_uint size be ok st
   = (v, ok, mkState (f_bytes st) (f_pos st + size)
               (f_log st ++ [fread_call size]) (heap_live st))
   /\ 0 <= v < 2 ^ (8 * size))
  /\ (~ readable size st ->
      exists st',
        read_uint size be ok st = (0, false, st')
        /\ f_bytes st' = f_bytes st /\ heap_live st' = heap_live st
        /\ f_log st' = f_log st ++ [fread_call size]).
Proof.
  intros Hsz. split.
  - intros Hr. cbv zeta. split; [by apply read_uint_ok|].
    pose proof (file_val_range be (slice (f_bytes st) (f_pos st) size)) as H.
    rewrite length_slice in H; [done|..]; destruct Hr; unfold int_size, f_size in *; lia.
  - intros Hr. rewrite read_uint_fail by done. eexists. split; [reflexivity|]. done.
Qed.

(** * The model as a function of the file *)

Lemma slice_slice bs p n q m :
  0 <= p -> 0 <= q -> 0 <= m -> q + m <= n ->
  slice (slice bs p n) q m = slice bs (p + q) m.
Proof.
  intros. unfold slice.
  rewrite skipn_firstn_comm, take_take, drop_drop.
  f_equal; [lia|]. f_equal. lia.
Qed.

Lemma dir_entries_lookup bt be bytes k : forall pos j e,
  dir_entries bt be bytes k pos !! j = Some e ->
  entry_at bt be bytes (pos + entry_size bt * Z.of_nat j) = inr e /\ (j < k)%nat.
Proof.
  induction k as [|k IH]; intros pos j e H; [done|].
  cbn [dir_entries] in H.
  destruct (entry_at bt be bytes pos) as [err|e0] eqn:E; [done|].
  destruct j as [|j].
  - injection H as <-. rewrite Z.mul_0_r, Z.add_0_r. split; [done|lia].
  - cbn in H. apply IH in H as [H ?]. split; [|lia].
    rewrite <- H. f_equal. lia.
Qed.

Lemma insert_entries_lookup_Some (ht : gmap Z tiff_item) es tag item :
  insert_entries ht es !! tag = Some item ->
  (exists j, es !! j = Some (tag, item)
             /\ forall j' e, (j < j')%nat -> es !! j' = Some e -> e.1 <> tag)
  \/ (ht !! tag = Some item /\ forall e, e ∈ es -> e.1 <> tag).
Proof.
  revert ht. induction es as [|[t it] es IH]; intros ht H.
  - right. split; [done|]. intros e He. by apply elem_of_nil in He.
  - rewrite insert_entries_cons in H. apply IH in H as [(j & Hj & Hlast)|[Hht Hno]].
    + left. exists (S j). split; [done|]. intros [|j'] e Hlt He; [lia|].
      apply (Hlast j' e); [lia|done].
    + cbn [fst snd] in Hht. destruct (decide (t = tag)) as [->|Hne].
      * rewrite lookup_insert_eq in Hht. injection Hht as ->.
        left. exists 0%nat. split; [done|]. intros [|j'] e Hlt He; [lia|].
        apply Hno. by eapply list_elem_of_lookup_2.
      * rewrite lookup_insert_ne in Hht by done. right. split; [done|].
        intros e [->|He]%elem_of_cons; [done|by apply Hno].
Qed.

(** What an entry that decodes leaves in its item: the fields of the entry,
    and elements that have the values the file spells. *)
Lemma entry_at_inr bt be bytes pos tag item :
  entry_at bt be bytes pos = inr (tag, item) ->
  let st := mkState bytes pos [] 0 in
  readable (entry_size bt) st
  /\ tag = entry_tag be st
  /\ type item = entry_type be st
  /\ count item = to_int64 (entry_count bt be st)
  /\ item_wf item
  /\ forall w i,
       type_width (type item) = Some w -> 0 < count item ->
       0 <= i < elem_count (type item) (count item) ->
       let len := w * elem_count (type item) (count item) in
       let base := if decide (len <= field_len bt) then pos + 4 + field_len bt
                   else to_int64 (file_val be (entry_inline bt st)) in
       0 <= base /\ base + len <= Z.of_nat (length bytes)
       /\ load_uint w (value item) i = file_val be (slice bytes (base + w * i) w).
Proof.
  intros H st. unfold entry_at in H. fold st in H.
  pose proof (read_entry_inr bt be st tag item (snd (read_entry bt be true st))) as Hinr.
  destruct (read_entry bt be true st) as [r st'] eqn:E. cbn [fst snd] in *. subst r.
  destruct (Hinr eq_refl) as (Hr & _ & _ & _ & Hwf).
  split; [done|]. rewrite read_entry_readable in E by done. cbv zeta in E.
  destruct (value_size_and_count (entry_type be st) (entry_count bt be st))
    as [[sz c]|] eqn:Ev; [|discriminate].
  pose proof (value_size_and_count_Some _ _ _ _ Ev) as (Hsz & _ & _).
  rewrite read_tiff_value_spec in E by (done || (subst st; rd_solve)).
  pose proof (length_entry_inline bt st Hr) as Hil.
  pose proof (entry_count_range bt be st Hr) as Hcr.
  pose proof (field_len_range bt) as Hfl.
  assert (0 < sz) by (unfold int_size in Hsz; lia).
  destruct (decide _) as [(Hc1 & Hc2 & Hc3)|]; [|discriminate].
  assert (Hfields : forall v st5,
            (inr (entry_tag be st,
                  mk_item (entry_type be st) (to_int64 (entry_count bt be st)) v), st5)
            = (inr (tag, item), st') :> (GError + Z * tiff_item) * state ->
            tag = entry_tag be st /\ type item = entry_type be st
            /\ count item = to_int64 (entry_count bt be st) /\ value item = v).
  { intros v st5 [= <- <- <-]. done. }
  assert (Hcnt : forall w, type_width (entry_type be st) = Some w ->
            0 < to_int64 (entry_count bt be st) ->
            w = sz /\ to_int64 c
                      = elem_count (entry_type be st) (to_int64 (entry_count bt be st))).
  { intros w Htw Hpos.
    assert (Hsmall : entry_count bt be st < 2 ^ 63).
    { destruct (decide (entry_count bt be st < 2 ^ 63)); [done|].
      rewrite to_int64_neg in Hpos by lia. lia. }
    rewrite (to_int64_small (entry_count bt be st)) by lia.
    pose proof (elem_count_ge (entry_type be st) (entry_count bt be st) ltac:(lia)) as Hge.
    assert (Hle : elem_count (entry_type be st) (entry_count bt be st) < 2 ^ 64).
    { unfold elem_count. generalize (entry_type be st). intros t. switch_cases; lia. }
    rewrite (value_size_and_count_elem _ _ w Htw) in Ev by lia.
    injection Ev as <- <-. split; [done|].
    destruct (decide (elem_count (entry_type be st) (entry_count bt be st) < 2 ^ 63)).
    - apply to_int64_small. lia.
    - rewrite to_int64_neg in Hc1 by lia. lia. }
  destruct (decide (sz * to_int64 c <= field_len bt)) as [Hfit|Hbig].
  - destruct (Hfields _ _ E) as (-> & Ht & Hc & Hv).
    do 4 (split; [done|]).
    intros w i Htw Hpos Hi. rewrite Ht, Hc in *.
    destruct (Hcnt w Htw Hpos) as [-> Hec]. rewrite <- Hec in *.
    cbv zeta. rewrite decide_True by done.
    destruct Hr as [Hr1 Hr2]. unfold f_size, entry_size in Hr2. subst st.
    cbn [f_bytes f_pos] in *.
    split; [lia|]. split; [lia|].
    rewrite Hv, load_uint_fix_byte_order; [|done|done|].
    2:{ rewrite length_slice; lia. }
    f_equal. unfold elem_bytes, entry_inline. cbn [f_bytes f_pos].
    rewrite !slice_slice by nia. f_equal; lia.
  - destruct (decide (0 <= _)) as [Ho|]; [|discriminate].
    destruct (decide (_ <= f_size _)) as [Hl|]; [|discriminate].
    destruct (Hfields _ _ E) as (-> & Ht & Hc & Hv).
    do 4 (split; [done|]).
    intros w i Htw Hpos Hi. rewrite Ht, Hc in *.
    destruct (Hcnt w Htw Hpos) as [-> Hec]. rewrite <- Hec in *.
    cbv zeta. rewrite decide_False by done.
    unfold after_entry_fields, f_size in Hl. subst st. cbn [f_bytes f_pos] in *.
    split; [done|]. split; [done|].
    rewrite Hv, load_uint_fix_byte_order; [|done|done|].
    2:{ rewrite length_slice; [lia|done|nia|done]. }
    f_equal. unfold elem_bytes. rewrite slice_slice by nia. done.
Qed.

Lemma dir_chain_functional bt be bytes d offs1 offs2 :
  dir_chain bt be bytes d offs1 -> dir_chain bt be bytes d offs2 -> offs1 = offs2.
Proof.
  intros H1. revert offs2. induction H1 as [|off offs Hpos Hc Hch IH]; intros offs2 H2.
  - inversion H2; [done|lia].
  - inversion H2 as [|? offs' ? ? Hch']; subst; [lia|]. f_equal. by apply IH.
Qed.

Lemma dir_chain_suffix bt be bytes d l1 x l2 :
  dir_chain bt be bytes d (l1 ++ x :: l2) -> dir_chain bt be bytes x (x :: l2).
Proof.
  revert d. induction l1 as [|y l1 IH]; intros d H.
  - cbn in H. inversion H; subst. done.
  - cbn in H. inversion H; subst. by eapply IH.
Qed.

(** A chain that reaches 0 visits no offset twice. *)
Lemma dir_chain_NoDup bt be bytes d offs :
  dir_chain bt be bytes d offs -> NoDup offs.
Proof.
  induction 1 as [|off offs Hpos Hc Hch IH]; [constructor|].
  constructor; [|done]. intros Hin.
  apply list_elem_of_split in Hin as (l1 & l2 & ->).
  pose proof (dir_chain_suffix _ _ _ _ _ _ _ Hch) as Hsuf.
  assert (Hfull : dir_chain bt be bytes off (off :: l1 ++ off :: l2))
    by (by constructor).
  pose proof (dir_chain_functional _ _ _ _ _ _ Hsuf Hfull) as Heq.
  apply (f_equal length) in Heq. cbn [length] in Heq.
  rewrite length_app in Heq. cbn [length] in Heq. lia.
Qed.

Lemma dir_chain_bounds bt be bytes d offs :
  dir_chain bt be bytes d offs ->
  Forall (fun off => 0 < off < Z.of_nat (length bytes)) offs.
Proof.
  induction 1 as [|off offs Hpos Hc Hch IH]; constructor; [|done].
  destruct Hc as (Hc & _). pose proof (int_size_count_len bt) as Hcl.
  unfold int_size in Hcl. lia.
Qed.

(** A walk that reaches a next-offset of 0 has followed the chain. *)
Lemma reaches_chain bt be d0 ld0 dirs0 st0 offs d ld dirs st :
  walk_reaches bt be d0 ld0 dirs0 st0 offs d ld dirs st ->
  d = 0 ->
  dir_chain bt be (f_bytes st0) d0 offs
  /\ dirs = dirs0 ++ map (dir_table bt be (f_bytes st0)) offs.
Proof.
  induction 1 as [|diroff ld dirs st ht next ld1 st1 offs d' ld' dirs' st' Hne Hd Hr IH];
    intros Hz.
  - subst. split; [constructor|]. by rewrite app_nil_r.
  - destruct (read_directory_spec diroff ld bt be st)
      as (r & next' & ld2 & st2 & Hd' & Hb & Hres).
    rewrite Hd in Hd'. simplify_eq.
    destruct Hres as (Hp & _ & _ & Hc & -> & -> & _).
    destruct (IH eq_refl) as [Hch ->]. rewrite Hb in *.
    split; [by constructor|]. by rewrite <- app_assoc.
Qed.

(** The walk follows a chain to its end. *)
Lemma chain_reaches bt be d offs : forall ld dirs st,
  dir_chain bt be (f_bytes st) d offs ->
  (forall x, x ∈ offs -> x ∉ ld) ->
  exists ld' st',
    walk_reaches bt be d ld dirs st offs 0 ld'
      (dirs ++ map (dir_table bt be (f_bytes st)) offs) st'.
Proof.
  intros ld dirs st Hch. revert ld dirs.
  remember (f_bytes st) as bytes eqn:Hbytes. revert st Hbytes.
  induction Hch as [|off offs Hpos Hc Hch IH]; intros st Hbytes ld dirs Hfresh.
  - exists ld, st. rewrite app_nil_r. constructor.
  - pose proof (dir_chain_NoDup _ _ _ _ _ (chain_next _ _ _ _ _ Hpos Hc Hch)) as Hnd.
    apply NoDup_cons in Hnd as [Hnotin _].
    destruct (read_directory_spec off ld bt be st)
      as (r & next & ld1 & st1 & Hd & Hb & Hres).
    rewrite <- Hbytes in Hb, Hres.
    destruct r as [e|ht].
    { destruct Hres as (_ & Hno & _). exfalso. apply Hno.
      split; [done|]. split; [|done]. apply Hfresh. by left. }
    destruct Hres as (_ & _ & -> & _ & -> & -> & _).
    destruct (IH st1 ltac:(congruence) ({[off]} ∪ ld)
                (dirs ++ [insert_entries ∅ (dir_entry_list bt be bytes off)]))
      as (ld' & st' & Hr).
    { intros x Hx [Hin|Hin]%elem_of_union.
      - apply elem_of_singleton in Hin as ->. done.
      - apply (Hfresh x); [by right|done]. }
    exists ld', st'. eapply reaches_next; [lia|exact Hd|].
    rewrite <- app_assoc in Hr. exact Hr.
Qed.

Lemma create_inr_chain st tl st' :
  _openslide_tifflike_create st = Some (inr tl, st') ->
  exists bt be d0 offs,
    header_shape (f_bytes st) = Some (bt, be, d0)
    /\ dir_chain bt be (f_bytes st) d0 offs
    /\ offs <> [] /\ NoDup offs
    /\ directories tl = map (dir_table bt be (f_bytes st)) offs.
Proof.
  pose proof (walk_start_spec st) as [Hwb _]. intros Hc.
  destruct (create_spec st) as (r & st'' & Hc' & _ & Hcase).
  rewrite Hc in Hc'. simplify_eq.
  destruct (header_shape (f_bytes st)) as [[[bt be] d0]|] eqn:Hh.
  2:{ by destruct Hcase as (e & ? & _). }
  destruct Hcase as (err & dirs & ld & st2 & Hw & Hres).
  destruct err as [e|]; [by destruct Hres|].
  destruct (decide (dirs = [])) as [|Hne]; destruct Hres as [[= ->] _].
  apply walk_reaches_of_walk in Hw as (offs & Hr).
  apply reaches_chain in Hr as [Hch Hdirs]; [|done].
  rewrite Hwb in Hch, Hdirs. cbn [app] in Hdirs.
  exists bt, be, d0, offs. split; [done|]. split; [done|].
  split; [by intros ->|]. split; [by eapply dir_chain_NoDup|done].
Qed.

(** [_openslide_tifflike_create] succeeds exactly on the files whose header
    has one of the two shapes and whose chain of directories, each one
    complete, leads from the first offset to a next-offset of 0 through at
    least one directory; the model it returns holds the tables of the chain,
    in order.  Such a chain visits no offset twice. *)
Theorem create_succeeds_iff_chain st tl :
  (exists st', _openslide_tifflike_create st = Some (inr tl, st'))
  <-> exists bt be d0 offs,
        header_shape (f_bytes st) = Some (bt, be, d0)
        /\ dir_chain bt be (f_bytes st) d0 offs
        /\ offs <> [] /\ NoDup offs
        /\ directories tl = map (dir_table bt be (f_bytes st)) offs.
Proof.
  pose proof (walk_start_spec st) as [Hwb _].
  split.
  - intros [st' Hc]. by eapply create_inr_chain.
  - intros (bt & be & d0 & offs & Hh & Hch & Hne & _ & Hdirs).
    rewrite <- Hwb in Hch.
    destruct (chain_reaches bt be d0 offs ∅ [] (walk_start st) Hch)
      as (ld' & st1 & Hr).
    { intros x _. apply not_elem_of_empty. }
    assert (Hw : walk bt be d0 ∅ [] (walk_start st) None
                   ([] ++ map (dir_table bt be (f_bytes (walk_start st))) offs) ld' st1).
    { eapply reaches_walk; [exact Hr|]. constructor. }
    destruct (create_of_walk st _ _ _ _ _ _ _ Hh Hw) as (st' & Hc).
    exists st'. rewrite Hc. unfold create_result. cbn [app].
    rewrite decide_False by (destruct offs; done).
    rewrite Hwb, <- Hdirs. by destruct tl.
Qed.

Lemma create_tifflike_wf st tl st' :
  _openslide_tifflike_create st = Some (inr tl, st') -> tifflike_wf tl.
Proof.
  intros Hc. destruct (create_spec st) as (r & st'' & Hc' & _ & Hcase).
  rewrite Hc in Hc'. simplify_eq.
  destruct (header_shape (f_bytes st)) as [[[bt be] d0]|].
  2:{ by destruct Hcase as (e & ? & _). }
  destruct Hcase as (err & dirs & ld & st2 & Hw & Hres).
  pose proof (walk_invariants _ _ _ _ _ _ _ _ _ _ Hw)
    as (_ & _ & _ & (new & Hd & Hnew) & _).
  cbn in Hd. subst dirs.
  destruct err as [e|]; [by destruct Hres|].
  destruct (decide _); destruct Hres as [[= ->] _]. exact Hnew.
Qed.

Lemma get_item_Some tl dir tag item :
  get_item tl dir tag = Some item ->
  0 <= dir < Z.of_nat (length (directories tl))
  /\ exists ht, directories tl !! Z.to_nat dir = Some ht /\ ht !! tag = Some item.
Proof.
  unfold get_item. intros H.
  destruct (dir <? 0) eqn:E1; [done|].
  destruct (dir >=? Z.of_nat (length (directories tl))) eqn:E2; [done|].
  cbn [orb] in H. split; [lia|].
  destruct (directories tl !! Z.to_nat dir) as [ht|]; [|done]. eauto.
Qed.

Lemma get_item_wf tl dir tag item :
  tifflike_wf tl -> get_item tl dir tag = Some item -> item_wf item.
Proof.
  intros Hwf (_ & ht & Hd & Hit)%get_item_Some.
  unfold tifflike_wf in Hwf. rewrite Forall_forall in Hwf.
  apply (Hwf ht) with tag; [|done]. by eapply list_elem_of_lookup_2.
Qed.

Lemma to_int64_of_mod z : - 2 ^ 63 <= z < 2 ^ 63 -> to_int64 (z mod 2 ^ 64) = z.
Proof.
  intros. unfold to_int64. rewrite Zplus_mod_idemp_l.
  rewrite Z.mod_small; lia.
Qed.

(** The buffer of a well-formed Ascii or Undefined item holds as many bytes
    as the item counts, at least one. *)
Lemma item_wf_buffer item :
  item_wf item -> buffer_type (type item) = true ->
  0 < count item /\ Z.of_nat (length (value item)) = count item.
Proof.
  intros (sz & c & Hv & Hc & Hlen & Hrange) Hb.
  assert (sz = 1 /\ c = count item mod 2 ^ 64) as [-> ->].
  { revert Hb Hv. unfold buffer_type, value_size_and_count.
    generalize (type item). intros t. switch_cases; intros; simplify_eq; done. }
  rewrite to_int64_of_mod in * by done. lia.
Qed.

(** A model that [_openslide_tifflike_create] returns has at least one
    directory and fewer directories than the file has bytes.  In it, a value
    count of 0 means that the tag is missing and nothing else; and a buffer
    handed out by [get_buffer] holds exactly as many bytes as the value
    count of its tag, at least one. *)
Theorem create_model_counts st tl st' :
  _openslide_tifflike_create st = Some (inr tl, st') ->
  1 <= _openslide_tifflike_get_directory_count tl < f_size st
  /\ (forall dir tag,
        _openslide_tifflike_get_value_count tl dir tag = 0
        <-> get_item tl dir tag = None)
  /\ (forall dir tag buf,
        _openslide_tifflike_get_buffer tl dir tag = Some buf ->
        0 < _openslide_tifflike_get_value_count tl dir tag
        /\ Z.of_nat (length buf) = _openslide_tifflike_get_value_count tl dir tag).
Proof.
  intros Hc. pose proof (create_tifflike_wf _ _ _ Hc) as Hwf.
  split; [|split].
  - destruct (create_inr_chain _ _ _ Hc) as (bt & be & d0 & offs & _ & Hch & Hne & Hnd & Hd).
    unfold _openslide_tifflike_get_directory_count. rewrite Hd, length_map.
    split; [destruct offs; [done|cbn [length]; lia]|].
    pose proof (dir_chain_bounds _ _ _ _ _ Hch) as Hb. rewrite Forall_forall in Hb.
    pose proof (size_bounded (list_to_set offs) (f_size st)) as Hs.
    rewrite size_list_to_set in Hs by done.
    assert (Hin : forall x : Z, x ∈ (list_to_set offs : gset Z) -> 0 < x < f_size st).
    { intros x Hx%elem_of_list_to_set. by apply Hb. }
    specialize (Hs Hin).
    destruct offs as [|o offs]; [done|].
    assert (0 < o < f_size st) by (apply Hb; by left). lia.
  - intros dir tag. unfold _openslide_tifflike_get_value_count.
    destruct (get_item tl dir tag) as [item|] eqn:Hit; [|done].
    split; [|done]. intros H0.
    pose proof (get_item_wf _ _ _ _ Hwf Hit) as (sz & c & Hv & Hpos & _).
    rewrite H0 in Hv. change (0 mod 2 ^ 64) with 0 in Hv.
    apply value_size_and_count_Some in Hv as (_ & _ & [(_ & _ & ->)|(_ & _ & ->)]);
      vm_compute in Hpos; discriminate.
  - intros dir tag buf Hb. unfold _openslide_tifflike_get_value_count.
    destruct (get_item tl dir tag) as [item|] eqn:Hit.
    2:{ unfold _openslide_tifflike_get_buffer in Hb. by rewrite Hit in Hb. }
    rewrite (get_buffer_by_type _ _ _ _ Hit) in Hb.
    destruct (buffer_type (type item)) eqn:Hbt; [|done]. injection Hb as <-.
    apply item_wf_buffer; [|done]. by eapply get_item_wf.
Qed.

(** Destroying the model that [_openslide_tifflike_create] returned takes
    the heap back to where it was before the call: everything the call
    allocated and did not free itself is owned by the model. *)
Theorem create_destroy_balanced st tl st' :
  _openslide_tifflike_create st = Some (inr tl, st') ->
  heap_live (_openslide_tifflike_destroy (directories tl) st') = heap_live st
  /\ f_bytes (_openslide_tifflike_destroy (directories tl) st') = f_bytes st.
Proof.
  intros Hc. destruct (create_spec st) as (r & st'' & Hc' & Hb & Hcase).
  rewrite Hc in Hc'. simplify_eq.
  destruct (destroy_spec (directories tl) st'') as [Hdb Hdh].
  rewrite Hdb, Hdh. split; [|done].
  destruct (header_shape (f_bytes st)) as [[[bt be] d0]|].
  2:{ by destruct Hcase as (e & ? & _). }
  destruct Hcase as (err & dirs & ld & st2 & Hw & Hres).
  destruct err as [e|]; [by destruct Hres|].
  destruct (decide _); destruct Hres as [[= ->] Hh]. cbn [directories]. lia.
Qed.

Lemma get_uint_value tl dir tag i ok item w :
  get_item tl dir tag = Some item -> 0 <= i < count item ->
  uint_type (type item) = true -> type_width (type item) = Some w ->
  _openslide_tifflike_get_uint tl dir tag i ok = (load_uint w (value item) i, ok).
Proof.
  intros Hit Hi. unfold _openslide_tifflike_get_uint.
  rewrite get_and_check_item_spec, Hit, decide_True by done.
  unfold uint_type, type_width, value_size_and_count.
  generalize (type item). intros t. switch_cases; intros; simplify_eq; done.
Qed.

Lemma get_sint_value tl dir tag i ok item w :
  get_item tl dir tag = Some item -> 0 <= i < count item ->
  sint_type (type item) = true -> type_width (type item) = Some w ->
  _openslide_tifflike_get_sint tl dir tag i ok
  = (sign_extend w (load_uint w (value item) i), ok).
Proof.
  intros Hit Hi. unfold _openslide_tifflike_get_sint.
  rewrite get_and_check_item_spec, Hit, decide_True by done.
  unfold sint_type, type_width, value_size_and_count.
  generalize (type item). intros t. switch_cases; intros; simplify_eq; done.
Qed.

(** Every item of a model that [_openslide_tifflike_create] returns comes
    from an entry of the file: the item found under a tag in directory
    [dir] was decoded from entry [j] of the directory at the [dir]-th
    offset of the chain, the last entry of that directory that carries the
    tag.  Its type and count are the entry's, and each of its elements has
    the value that the file spells, in the file's byte order, in the
    entry's inline field when all elements fit there and at the offset that
    the field names when they do not.  So [get_uint] and [get_sint] return
    the numbers written in the file, on every host. *)
Theorem model_elements_from_file st tl st' dir tag item :
  _openslide_tifflike_create st = Some (inr tl, st') ->
  get_item tl dir tag = Some item ->
  exists bt be d0 offs off j,
    header_shape (f_bytes st) = Some (bt, be, d0)
    /\ dir_chain bt be (f_bytes st) d0 offs
    /\ offs !! Z.to_nat dir = Some off
    /\ 0 <= j < dir_count bt be (f_bytes st) off
    /\ let pos := off + count_len bt + entry_size bt * j in
       let entry := mkState (f_bytes st) pos [] 0 in
       entry_tag be entry = tag
       /\ type item = entry_type be entry
       /\ count item = to_int64 (entry_count bt be entry)
       /\ (forall j', j < j' < dir_count bt be (f_bytes st) off ->
             entry_tag be (mkState (f_bytes st)
                             (off + count_len bt + entry_size bt * j') [] 0) <> tag)
       /\ forall w, type_width (type item) = Some w -> 0 < count item ->
            let n := elem_count (type item) (count item) in
            let base := if decide (w * n <= field_len bt) then pos + 4 + field_len bt
                        else to_int64 (file_val be (entry_inline bt entry)) in
            let elem k := file_val be (slice (f_bytes st) (base + w * k) w) in
            0 <= base /\ base + w * n <= f_size st
            /\ (forall k, 0 <= k < n -> load_uint w (value item) k = elem k)
            /\ (forall i ok, 0 <= i < count item -> uint_type (type item) = true ->
                  _openslide_tifflike_get_uint tl dir tag i ok = (elem i, ok))
            /\ (forall i ok, 0 <= i < count item -> sint_type (type item) = true ->
                  _openslide_tifflike_get_sint tl dir tag i ok
                  = (sign_extend w (elem i), ok)).
Proof.
  intros Hc Hit.
  destruct (create_inr_chain _ _ _ Hc) as (bt & be & d0 & offs & Hh & Hch & _ & _ & Hd).
  destruct (get_item_Some _ _ _ _ Hit) as (Hdir & ht & Hht & Hlook).
  rewrite Hd in Hht. rewrite list_lookup_fmap in Hht.
  destruct (offs !! Z.to_nat dir) as [off|] eqn:Hoff; [|done].
  injection Hht as <-.
  unfold dir_table in Hlook.
  apply insert_entries_lookup_Some in Hlook as [(j & Hj & Hlast)|[He _]]; [|done].
  pose proof (dir_chain_bounds _ _ _ _ _ Hch) as Hbd. rewrite Forall_forall in Hbd.
  assert (Hcomplete : dir_complete bt be (f_bytes st) off).
  { clear -Hch Hoff. revert Hoff. generalize (Z.to_nat dir). intros n.
    revert n. induction Hch as [|o offs Hp Hco Hch IH]; intros [|n] Hn; try done.
    - by injection Hn as ->.
    - by eapply IH. }
  destruct Hcomplete as (_ & Hlen & _).
  unfold dir_entry_list in Hj, Hlast, Hlen.
  pose proof (dir_entries_lookup _ _ _ _ _ _ _ Hj) as [Hat Hjk].
  pose proof (file_val_range be (slice (f_bytes st) off (count_len bt))) as Hdc.
  fold (dir_count bt be (f_bytes st) off) in Hdc.
  exists bt, be, d0, offs, off, (Z.of_nat j).
  split; [done|]. split; [done|]. split; [done|]. split; [lia|].
  replace (off + count_len bt + entry_size bt * Z.of_nat j)
    with (off + count_len bt + entry_size bt * Z.of_nat j) by done.
  pose proof (entry_at_inr _ _ _ _ _ _ Hat) as (Hr & Htag & Hty & Hcnt & Hwf & Hel).
  cbv zeta. split; [done|]. split; [done|]. split; [done|]. split.
  - intros j' Hj'.
    destruct (dir_entries bt be (f_bytes st)
                (Z.to_nat (dir_count bt be (f_bytes st) off))
                (off + count_len bt) !! Z.to_nat j') as [e|] eqn:Hj2.
    2:{ apply lookup_ge_None in Hj2. lia. }
    pose proof (Hlast (Z.to_nat j') e ltac:(lia) Hj2) as Hne.
    apply dir_entries_lookup in Hj2 as [Hat2 _]. rewrite Z2Nat.id in Hat2 by lia.
    destruct e as [tag2 item2].
    apply entry_at_inr in Hat2 as (_ & <- & _). done.
  - intros w Htw Hpos.
    assert (Hn : 0 < elem_count (type item) (count item)).
    { pose proof (elem_count_ge (type item) (count item) ltac:(lia)). lia. }
    assert (Hall : forall k, 0 <= k < elem_count (type item) (count item) ->
              load_uint w (value item) k
              = file_val be (slice (f_bytes st)
                  ((if decide (w * elem_count (type item) (count item) <= field_len bt)
                    then off + count_len bt + entry_size bt * Z.of_nat j + 4 + field_len bt
                    else to_int64 (file_val be
                           (entry_inline bt
                              (mkState (f_bytes st)
                                 (off + count_len bt + entry_size bt * Z.of_nat j) [] 0))))
                   + w * k) w)).
    { intros k Hk. by apply (Hel w k Htw Hpos Hk). }
    destruct (Hel w 0 Htw Hpos ltac:(lia)) as (Hb0 & Hb1 & _).
    unfold f_size. split; [done|]. split; [done|]. split; [exact Hall|].
    assert (Hi' : forall i, 0 <= i < count item ->
              0 <= i < elem_count (type item) (count item)).
    { intros i Hi. pose proof (elem_count_ge (type item) (count item) ltac:(lia)). lia. }
    split.
    + intros i ok Hi Hu. rewrite (get_uint_value _ _ _ _ _ _ w Hit Hi Hu Htw).
      by rewrite Hall by auto.
    + intros i ok Hi Hs. rewrite (get_sint_value _ _ _ _ _ _ w Hit Hi Hs Htw).
      by rewrite Hall by auto.
Qed.

(** * The reads of the accessors *)

Lemma load_uint_mem_ok w v n i :
  0 < w -> Z.of_nat (length v) = w * n -> 0 <= i < n ->
  load_uint_mem w v i = inr (load_uint w v i).
Proof.
  intros Hw Hlen Hi. unfold load_uint_mem.
  destruct (0 <=? w * i) eqn:E1; [|nia].
  destruct (w * i + w <=? Z.of_nat (length v)) eqn:E2; [done|nia].
Qed.

(** On a model whose items satisfy the invariant of stored items, following
    the reads changes nothing: every accessor returns what it returns, and
    meets no fault. *)
Lemma accessors_mem_agree tl dir tag i ok :
  tifflike_wf tl ->
  _openslide_tifflike_get_uint_mem tl dir tag i ok
  = inr (_openslide_tifflike_get_uint tl dir tag i ok)
  /\ _openslide_tifflike_get_sint_mem tl dir tag i ok
     = inr (_openslide_tifflike_get_sint tl dir tag i ok)
  /\ _openslide_tifflike_get_float_mem tl dir tag i ok
     = inr (_openslide_tifflike_get_float tl dir tag i ok)
  /\ _openslide_tifflike_get_buffer_mem tl dir tag
     = inr (_openslide_tifflike_get_buffer tl dir tag)
  /\ _openslide_tifflike_get_value_count_mem tl dir tag
     = inr (_openslide_tifflike_get_value_count tl dir tag).
Proof.
  intros Hwf.
  unfold _openslide_tifflike_get_uint_mem, _openslide_tifflike_get_sint_mem,
    _openslide_tifflike_get_float_mem, _openslide_tifflike_get_buffer_mem,
    _openslide_tifflike_get_value_count_mem, get_and_check_item_mem,
    _openslide_tifflike_get_uint, _openslide_tifflike_get_sint,
    _openslide_tifflike_get_float, _openslide_tifflike_get_buffer,
    _openslide_tifflike_get_value_count, get_and_check_item.
  rewrite !get_item_mem_agrees.
  destruct (get_item tl dir tag) as [item|] eqn:Hit; [|done].
  pose proof (get_item_wf _ _ _ _ Hwf Hit) as Hitem.
  destruct item as [t cnt v]. cbn [type count value] in *.
  assert (Hlen : forall w, type_width t = Some w -> 0 < cnt ->
            0 < w /\ Z.of_nat (length v) = w * elem_count t cnt).
  { intros w Htw Hpos.
    destruct (item_wf_length _ w Hitem Hpos Htw) as [Hl Hw]. done. }
  split; [|split; [|split; [|split; [|done]]]]; cycle 3.
  { cbn [type value]. clear. switch_cases; done. }
  - destruct ((i <? 0) || (i >=? cnt)) eqn:Hi; [done|]. cbn [type value].
    assert (0 <= i < cnt) by lia. clear Hit Hitem. revert Hlen.
    switch_cases; intros Hlen; try done;
      match goal with
      | |- context [load_uint_mem ?w v i] =>
          destruct (Hlen w eq_refl ltac:(lia)) as [Hw Hl]; cbn [elem_count] in Hl;
          by rewrite (load_uint_mem_ok w v cnt)
      end.
  - destruct ((i <? 0) || (i >=? cnt)) eqn:Hi; [done|]. cbn [type value].
    assert (0 <= i < cnt) by lia. clear Hit Hitem. revert Hlen.
    unfold load_sint_mem.
    switch_cases; intros Hlen; try done;
      match goal with
      | |- context [load_uint_mem ?w v i] =>
          destruct (Hlen w eq_refl ltac:(lia)) as [Hw Hl]; cbn [elem_count] in Hl;
          by rewrite (load_uint_mem_ok w v cnt)
      end.
  - destruct ((i <? 0) || (i >=? cnt)) eqn:Hi; [done|]. cbn [type value].
    assert (0 <= i < cnt) by lia. clear Hit Hitem. revert Hlen.
    switch_cases; intros Hlen; try done;
      destruct (Hlen _ eq_refl ltac:(lia)) as [Hw Hl]; cbn [elem_count] in Hl;
      first [ by rewrite (load_uint_mem_ok _ v cnt)
            | by rewrite !(load_uint_mem_ok 4 v (cnt * 2)) by lia ].
Qed.

(** On every model that [_openslide_tifflike_create] returns, the accessors
    read inside the array of directories and inside the value buffers only:
    followed read by read, the lookup and each accessor return, without a
    fault, what they return, for every directory index, tag, element index
    and flag. *)
Theorem accessors_memory_safe st tl st' dir tag i ok :
  _openslide_tifflike_create st = Some (inr tl, st') ->
  get_item_mem tl dir tag = inr (get_item tl dir tag)
  /\ _openslide_tifflike_get_uint_mem tl dir tag i ok
     = inr (_openslide_tifflike_get_uint tl dir tag i ok)
  /\ _openslide_tifflike_get_sint_mem tl dir tag i ok
     = inr (_openslide_tifflike_get_sint tl dir tag i ok)
  /\ _openslide_tifflike_get_float_mem tl dir tag i ok
     = inr (_openslide_tifflike_get_float tl dir tag i ok)
  /\ _openslide_tifflike_get_buffer_mem tl dir tag
     = inr (_openslide_tifflike_get_buffer tl dir tag)
  /\ _openslide_tifflike_get_value_count_mem tl dir tag
     = inr (_openslide_tifflike_get_value_count tl dir tag).
Proof.
  intros Hc. split; [apply get_item_mem_agrees|].
  apply accessors_mem_agree. by eapply create_tifflike_wf.
Qed.

(** * The errors of the directory reader *)

(** The count that [read_tiff_value] receives for a known type: the count
    field, doubled for Rational and SRational, as an [int64_t]. *)
Lemma value_size_and_count_wrapped t raw sz :
  type_width t = Some sz ->
  exists c,
    value_size_and_count t raw = Some (sz, c)
    /\ to_int64 c = to_int64 (elem_count t raw).
Proof.
  unfold type_width, value_size_and_count, elem_count, to_uint64.
  repeat match goal with
         | |- context [match ?x with _ => _ end] => is_var x; destruct x
         end; intros [= <-] || discriminate;
    (eexists; split; [reflexivity|]); try reflexivity;
    unfold to_int64; by rewrite Zplus_mod_idemp_l.
Qed.

(** The four ways in which an entry fails to decode, each with its BadData
    message: the tag, type and count cannot be read; the value/offset field
    cannot be read; the type is not one of the known types; or the value
    cannot be read.  The last one is settled by the count that
    [read_tiff_value] receives, which is the count field, doubled for
    Rational and SRational, as a signed integer of 64 bits (a field of 2^63
    or more is a negative count, and a doubled count wraps around): the
    value cannot be read exactly when that count is zero or negative, or
    above SSIZE_MAX / width, or the buffer is refused, or the value is
    stored out of line at a place that is not inside the file.  In every
    other case the entry decodes, to an item with the type and the count of
    the entry and a buffer of width * count bytes. *)
Theorem read_entry_errors bt be st :
  (~ readable (4 + field_len bt) st ->
   fst (read_entry bt be true st) = inl (bad_data "Cannot read tag, type, and count"))
  /\ (readable (4 + field_len bt) st -> ~ readable (entry_size bt) st ->
      fst (read_entry bt be true st) = inl (bad_data "Cannot read value/offset"))
  /\ (readable (entry_size bt) st -> type_width (entry_type be st) = None ->
      fst (read_entry bt be true st)
      = inl (bad_data ("Unknown type encountered: " +:+ pretty (entry_type be st))))
  /\ (forall sz,
        readable (entry_size bt) st -> type_width (entry_type be st) = Some sz ->
        let cnt := to_int64 (elem_count (entry_type be st) (entry_count bt be st)) in
        let offset := to_int64 (file_val be (entry_inline bt st)) in
        let refused :=
          cnt <= 0 \/ SSIZE_MAX ÷ sz < cnt \/ alloc_limit < sz * cnt
          \/ (field_len bt < sz * cnt
              /\ ~ (0 <= offset /\ offset + sz * cnt <= f_size st)) in
        (refused ->
         fst (read_entry bt be true st) = inl (bad_data "Cannot read value"))
        /\ (~ refused ->
            exists v,
              fst (read_entry bt be true st)
              = inr (entry_tag be st,
                     mk_item (entry_type be st) (to_int64 (entry_count bt be st)) v)
              /\ Z.of_nat (length v) = sz * cnt)).
Proof.
  split; [|split; [|split]].
  - intros Hn.
    assert (Hn' : ~ readable (entry_size bt) st) by (intros Hr; apply Hn; rd_solve).
    destruct (read_entry_unreadable bt be st Hn') as (st' & -> & _).
    by rewrite decide_False.
  - intros Hr Hn. destruct (read_entry_unreadable bt be st Hn) as (st' & -> & _).
    by rewrite decide_True.
  - intros Hr Htw. rewrite read_entry_readable by done. cbv zeta.
    assert (Hv : value_size_and_count (entry_type be st) (entry_count bt be st) = None).
    { revert Htw. unfold type_width, value_size_and_count.
      generalize (entry_type be st). intros t. switch_cases; done. }
    by rewrite Hv.
  - intros sz Hr Htw cnt offset refused.
    destruct (value_size_and_count_wrapped _ (entry_count bt be st) _ Htw)
      as (c & Hv & Hc).
    assert (Hsz : int_size sz)
      by (by apply value_size_and_count_Some in Hv as (Hs & _)).
    assert (0 < sz) by (unfold int_size in Hsz; lia).
    rewrite read_entry_readable by done. cbv zeta. rewrite Hv, Hc. fold cnt.
    rewrite read_tiff_value_spec by (done || rd_solve). fold offset.
    assert (Hsize : f_size (after_entry_fields bt st) = f_size st) by done.
    rewrite Hsize.
    split.
    + intros Hbad.
      destruct (decide (0 < cnt /\ cnt <= SSIZE_MAX ÷ sz /\ sz * cnt <= alloc_limit))
        as [(H1 & H2 & H3)|]; [|done].
      destruct Hbad as [?|[?|[?|[Hbig Hout]]]]; [lia..|].
      rewrite decide_False by lia.
      destruct (decide (0 <= offset)); [|done].
      rewrite decide_False; [done|]. lia.
    + intros Hgood.
      assert (Hok : 0 < cnt /\ cnt <= SSIZE_MAX ÷ sz /\ sz * cnt <= alloc_limit).
      { destruct (decide (cnt <= 0)); [exfalso; apply Hgood; by left|].
        destruct (decide (SSIZE_MAX ÷ sz < cnt));
          [exfalso; apply Hgood; right; by left|].
        destruct (decide (alloc_limit < sz * cnt));
          [exfalso; apply Hgood; do 2 right; by left|].
        lia. }
      rewrite decide_True by done.
      assert (0 < sz * cnt) by nia.
      destruct (decide (sz * cnt <= field_len bt)) as [Hin|Hout].
      * eexists. split; [reflexivity|].
        rewrite length_fix_byte_order. apply length_slice; [lia|lia|].
        rewrite length_entry_inline by done. lia.
      * assert (Hfile : 0 <= offset /\ offset + sz * cnt <= f_size st).
        { destruct (decide (0 <= offset /\ offset + sz * cnt <= f_size st)); [done|].
          exfalso. apply Hgood. do 3 right. split; [lia|done]. }
        rewrite decide_True by lia. rewrite decide_True by lia.
        eexists. split; [reflexivity|].
        rewrite length_fix_byte_order. apply length_slice; try lia.
        unfold f_size in Hfile. cbn [after_entry_fields f_bytes]. lia.
Qed.

(** The outcome of [read_directory] at a fresh offset above 0 that is not
    beyond the end of the file (where a seek is always accepted), case by
    case.  It fails with "Cannot read dircount" when the count field does
    not lie inside the file; with the error of the first entry that does
    not decode, when there is one; with "Cannot read next directory offset"
    when all entries decode and that field does not lie inside the file; and
    it succeeds in the one case left, with the table of the entries and the
    next offset.  Every failure reports a next offset of 0, records the
    offset in the loop detector, and frees the table under construction
    with the items stored so far. *)
Theorem read_directory_outcome off ld bt be st :
  0 < off -> off <= f_size st -> off ∉ ld ->
  let bytes := f_bytes st in
  let es := dir_entry_list bt be bytes off in
  let n := dir_count bt be bytes off in
  exists r next st',
    read_directory off ld bt be st = Some (r, next, {[off]} ∪ ld, st')
    /\ (Z.of_nat (length bytes) < off + count_len bt ->
        r = inl (bad_data "Cannot read dircount") /\ next = 0
        /\ heap_live st' = heap_live st + 1)
    /\ (off + count_len bt <= Z.of_nat (length bytes) -> (length es < Z.to_nat n)%nat ->
        exists e,
          entry_at bt be bytes
            (off + count_len bt + entry_size bt * Z.of_nat (length es)) = inl e
          /\ r = inl e /\ next = 0
          /\ heap_live st' = heap_live st + 1 + item_in_flight e)
    /\ (off + count_len bt <= Z.of_nat (length bytes) -> length es = Z.to_nat n ->
        Z.of_nat (length bytes) < dir_next_pos bt be bytes off + field_len bt ->
        r = inl (bad_data "Cannot read next directory offset") /\ next = 0
        /\ heap_live st' = heap_live st + 1)
    /\ (dir_complete bt be bytes off ->
        r = inr (dir_table bt be bytes off) /\ next = dir_next bt be bytes off
        /\ heap_live st' = heap_live st + 2 + 2 * Z.of_nat (size (dir_table bt be bytes off))).
Proof.
  intros Hpos _ Hfresh. cbv zeta.
  destruct (read_directory_spec off ld bt be st)
    as (r & next & ld' & st' & Hd & Hb & Hres).
  assert (Hld : ld' = {[off]} ∪ ld).
  { destruct r; [|by destruct Hres as (_ & _ & -> & _)].
    destruct Hres as (_ & _ & _ & Hcase). rewrite decide_True in Hcase by done.
    by destruct Hcase. }
  subst ld'. exists r, next, st'. split; [done|].
  assert (Hok : dir_complete bt be (f_bytes st) off ->
            r = inr (dir_table bt be (f_bytes st) off)
            /\ next = dir_next bt be (f_bytes st) off
            /\ heap_live st'
               = heap_live st + 2 + 2 * Z.of_nat (size (dir_table bt be (f_bytes st) off))).
  { intros Hc. destruct r as [e|ht].
    - destruct Hres as (_ & Hno & _). by destruct Hno.
    - destruct Hres as (_ & _ & _ & _ & -> & -> & Hh & _). done. }
  assert (Hfail : ~ dir_complete bt be (f_bytes st) off ->
            exists e, r = inl e /\ next = 0
                      /\ heap_live st' = heap_live st + 1 + item_in_flight e).
  { intros Hn. destruct r as [e|ht].
    - destruct Hres as (-> & _ & _ & Hcase). rewrite decide_True in Hcase by done.
      destruct Hcase as [_ Hh]. eauto.
    - by destruct Hres as (_ & _ & _ & Hc & _). }
  (* the error of each case, by running the function *)
  revert Hd. unfold read_directory.
  destruct (off <=? 0) eqn:E; [lia|]. rewrite decide_False by done.
  rewrite fseeko_ok by lia. fold (count_len bt) (field_len bt).
  unfold dir_complete, dir_next_pos, dir_entry_list, dir_count in *.
  set (st1 := mkState _ _ _ _).
  pose proof (int_size_count_len bt) as Hcl.
  destruct (decide (readable (count_len bt) st1)) as [Hr|Hr].
  2:{ rewrite read_uint_fail by done. cbn [negb]. intros [= <- <- <-].
      assert (Hshort : Z.of_nat (length (f_bytes st)) < off + count_len bt).
      { destruct (decide (Z.of_nat (length (f_bytes st)) < off + count_len bt)); [done|].
        exfalso. apply Hr. subst st1. rd_solve. }
      split; [intros _; split; [done|]; split; [done|]; cbn; lia|].
      split; [intros; lia|]. split; [intros; lia|].
      intros (? & _). lia. }
  rewrite read_uint_ok by done.
  cbn [negb]. subst st1. unfold g_new. cbn [f_bytes f_pos f_log heap_live].
  set (st3 := mkState _ _ _ _).
  assert (0 < entry_size bt) by rd_solve.
  destruct (read_entries_spec bt be
              (file_val be (slice (f_bytes st) off (count_len bt)))
              (S (length (f_bytes st))) 0 ∅ st3) as (r3 & st4 & Hrun & Hb4 & Hres3).
  { subst st3. unfold int_size in Hcl. cbn. lia. }
  { subst st3. unfold f_size, int_size in *. cbn [f_bytes f_pos]. nia. }
  { lia. }
  rewrite Hrun. cbv zeta in Hres3. rewrite Z.sub_0_r in Hres3.
  assert (Hin : off + count_len bt <= Z.of_nat (length (f_bytes st)))
    by (unfold readable, f_size, g_new in Hr; cbn [f_bytes f_pos] in Hr; lia).
  subst st3. cbn [f_bytes f_pos heap_live] in *.
  destruct r3 as [e|result].
  { destruct Hres3 as (Hlen & Hat & Hc & Hh). intros [= <- <- <-].
    split; [intros; lia|].
    split.
    { intros _ _. exists e. split; [done|]. split; [done|]. split; [done|].
      rewrite Hh, map_size_empty. lia. }
    split; [intros; lia|]. intros (_ & ? & _). lia. }
  destruct Hres3 as (Hlen & Hins & Hp & Hh & Hwf).
  pose proof (file_val_range be (slice (f_bytes st) off (count_len bt))) as Hdc.
  rewrite Z2Nat.id in Hp by lia.
  assert (Hpos4 : 0 <= f_pos st4).
  { rewrite Hp. unfold readable, int_size in *. cbn [f_pos] in Hr. nia. }
  destruct (decide (readable (field_len bt) st4)) as [Hr4|Hr4].
  2:{ rewrite read_uint_fail by done. cbn [negb]. intros [= <- <- <-].
      split; [intros; lia|]. split; [intros; lia|].
      split.
      { intros _ _ _. split; [done|]. split; [done|].
        unfold g_hash_table_unref_items, g_release. cbn [heap_live].
        rewrite Hh, map_size_empty. lia. }
      intros (_ & _ & ?). exfalso. apply Hr4.
      unfold readable, f_size. rewrite Hb4, Hp. lia. }
  rewrite read_uint_ok by (done || apply int_size_field_len).
  cbn [negb]. intros [= <- <- <-].
  split; [intros; lia|]. split; [intros; lia|].
  split.
  { intros _ _ Hshort. exfalso. unfold readable, f_size in Hr4.
    rewrite Hb4, Hp in Hr4. lia. }
  exact Hok.
Qed.

(** * Claims about the quickhash *)

Section QuickhashFacts.

Variable hash_t : Type.
Variable hash_disable : hash_t -> hash_t.
Variable hash_file_part : hash_t -> Z -> Z -> option GError * hash_t.

Lemma get_uint_fst tl dir tag i ok :
  fst (_openslide_tifflike_get_uint tl dir tag i ok) = byte_count tl dir tag i.
Proof.
  unfold byte_count, _openslide_tifflike_get_uint.
  rewrite !get_and_check_item_spec.
  destruct (get_item tl dir tag) as [item|]; [|done].
  case_decide; [|done]. generalize (type item). intros t. switch_cases; done.
Qed.

Lemma byte_count_range tl dir tag i : 0 <= byte_count tl dir tag i < 2 ^ 64.
Proof. unfold byte_count. apply get_uint_range. Qed.



Lemma clear_ok_idemp ok : clear_ok (clear_ok ok) = clear_ok ok.
Proof. by destruct ok. Qed.

Lemma get_uint_snd tl dir tag i ok item :
  get_item tl dir tag = Some item -> 0 <= i < count item ->
  _openslide_tifflike_get_uint tl dir tag i ok
  = (byte_count tl dir tag i, if uint_type (type item) then ok else clear_ok ok).
Proof.
  intros Hit Hi.
  rewrite <- (get_uint_fst tl dir tag i ok), <- (get_uint_by_type _ _ _ _ ok _ Hit Hi).
  by destruct (_openslide_tifflike_get_uint tl dir tag i ok).
Qed.

(** A pre-scan that stays within the ceiling runs to the end. *)
Lemma check_total_size_within tl dir tag item n : forall i ok total,
  get_item tl dir tag = Some item ->
  0 <= i -> i + Z.of_nat n <= count item ->
  0 <= total -> total + sum_counts tl dir tag n i <= hash_ceiling ->
  check_total_size n i tl dir tag ok total
  = (false, if (uint_type (type item) || bool_decide (n = 0%nat))%bool
            then ok else clear_ok ok).
Proof.
  induction n as [|n IH]; intros i ok total Hit Hi Hn Htot Hsum.
  { cbn [check_total_size]. by rewrite orb_true_r. }
  cbn [check_total_size sum_counts] in Hsum |- *.
  rewrite (get_uint_snd _ _ _ _ _ _ Hit) by lia.
  pose proof (byte_count_range tl dir tag i) as Hv.
  assert (Hrest : 0 <= sum_counts tl dir tag n (i + 1)).
  { clear. generalize (i + 1). induction n as [|n IH]; intros z; cbn [sum_counts]; [lia|].
    pose proof (byte_count_range tl dir tag z). specialize (IH (z + 1)). lia. }
  rewrite to_int64_small by (unfold hash_ceiling in *; lia).
  fold hash_ceiling.
  destruct (total + byte_count tl dir tag i >? hash_ceiling) eqn:E; [lia|].
  rewrite IH by (done || lia).
  rewrite (bool_decide_eq_false_2 (S n = 0%nat)) by done. rewrite orb_false_r.
  destruct (uint_type (type item)); cbn [orb]; [done|].
  destruct (bool_decide (n = 0%nat)); by rewrite ?clear_ok_idemp.
Qed.

Lemma tile_parts_cons tl dir offset_tag length_tag i n :
  map (fun i => (to_int64 (byte_count tl dir offset_tag i),
                 to_int64 (byte_count tl dir length_tag i))) (seqZ i (Z.of_nat (S n)))
  = (to_int64 (byte_count tl dir offset_tag i), to_int64 (byte_count tl dir length_tag i))
    :: map (fun i => (to_int64 (byte_count tl dir offset_tag i),
                      to_int64 (byte_count tl dir length_tag i)))
         (seqZ (i + 1) (Z.of_nat n)).
Proof.
  rewrite seqZ_cons by lia. cbn [map]. do 3 f_equal; lia.
Qed.

(** The hashing loop on a directory whose offsets and byte counts are
    unsigned integers: one call per index, in order. *)
Lemma hash_tiles_parts tl dir offset_tag length_tag io il n : forall i hash,
  get_item tl dir offset_tag = Some io -> get_item tl dir length_tag = Some il ->
  uint_type (type io) = true -> uint_type (type il) = true ->
  0 <= i -> i + Z.of_nat n <= count io -> i + Z.of_nat n <= count il ->
  hash_tiles hash_t hash_file_part n i tl dir offset_tag length_tag (Some true) hash
  = hash_parts hash_t hash_file_part
      (map (fun i => (to_int64 (byte_count tl dir offset_tag i),
                      to_int64 (byte_count tl dir length_tag i)))
         (seqZ i (Z.of_nat n))) hash.
Proof.
  induction n as [|n IH]; intros i hash Hio Hil Huo Hul Hi Hno Hnl; [done|].
  rewrite tile_parts_cons. cbn [hash_tiles hash_parts].
  rewrite (get_uint_snd _ _ _ _ _ _ Hio) by lia. rewrite Huo.
  rewrite (get_uint_snd _ _ _ _ _ _ Hil) by lia. rewrite Hul.
  destruct (hash_file_part hash _ _) as [[e|] hash']; [done|].
  apply IH; (done || lia).
Qed.

Lemma value_count_item tl dir tag :
  _openslide_tifflike_get_value_count tl dir tag <> 0 ->
  exists item, get_item tl dir tag = Some item
               /\ count item = _openslide_tifflike_get_value_count tl dir tag.
Proof.
  unfold _openslide_tifflike_get_value_count.
  destruct (get_item tl dir tag) as [item|]; [eauto|done].
Qed.

Lemma hash_tiff_level_layout hash tl dir offset_tag length_tag :
  tile_layout tl dir offset_tag length_tag ->
  let cnt := _openslide_tifflike_get_value_count tl dir offset_tag in
  cnt = _openslide_tifflike_get_value_count tl dir length_tag ->
  cnt <> 0
  /\ hash_tiff_level hash_t hash_disable hash_file_part hash tl dir
     = match check_total_size (Z.to_nat cnt) 0 tl dir length_tag (Some true) 0 with
       | (true, _) => (None, hash_disable hash)
       | (false, ok) =>
           hash_tiles hash_t hash_file_part (Z.to_nat cnt) 0 tl dir
             offset_tag length_tag ok hash
       end.
Proof.
  intros Hlayout cnt Hcnt. unfold hash_tiff_level.
  destruct Hlayout as [(Ht & -> & ->)|(Ht & Hs & -> & ->)].
  - split; [done|].
    destruct (_ =? 0) eqn:E1; [lia|]. cbn [negb]. fold cnt.
    destruct (cnt =? 0) eqn:E2; [lia|]. rewrite <- Hcnt, Z.eqb_refl. done.
  - split; [done|]. rewrite Ht. cbn [Z.eqb negb].
    destruct (_ =? 0) eqn:E1; [lia|]. cbn [negb]. fold cnt.
    destruct (cnt =? 0) eqn:E2; [lia|]. rewrite <- Hcnt, Z.eqb_refl. done.
Qed.

(** A directory that passes the layout detection and the count check of
    [hash_tiff_level], whose offsets and byte counts are stored as unsigned
    integers and whose byte counts sum to at most 5 MiB, is hashed tile by
    tile (or strip by strip): [_openslide_hash_file_part] is called once for
    each index, in index order, with the offset and the byte count stored
    for it, up to the first call that fails; the result is that call's error
    or, when every call succeeds, success.  The accumulator is never
    disabled. *)
Theorem hash_tiles_in_order hash tl dir offset_tag length_tag :
  tile_layout tl dir offset_tag length_tag ->
  let cnt := _openslide_tifflike_get_value_count tl dir offset_tag in
  cnt = _openslide_tifflike_get_value_count tl dir length_tag ->
  (forall item, get_item tl dir offset_tag = Some item -> uint_type (type item) = true) ->
  (forall item, get_item tl dir length_tag = Some item -> uint_type (type item) = true) ->
  sum_counts tl dir length_tag (Z.to_nat cnt) 0 <= hash_ceiling ->
  hash_tiff_level hash_t hash_disable hash_file_part hash tl dir
  = hash_parts hash_t hash_file_part (tile_parts tl dir offset_tag length_tag cnt) hash.
Proof.
  intros Hlayout cnt Hcnt Huo Hul Hsum.
  destruct (hash_tiff_level_layout hash _ _ _ _ Hlayout Hcnt) as [Hne ->]. fold cnt.
  destruct (value_count_item tl dir offset_tag Hne) as (io & Hio & Hco).
  destruct (value_count_item tl dir length_tag ltac:(by rewrite <- Hcnt))
    as (il & Hil & Hcl).
  fold cnt in Hco. rewrite <- Hcnt in Hcl.
  unfold tile_parts.
  destruct (decide (0 < cnt)) as [Hpos|Hneg].
  - rewrite (check_total_size_within _ _ _ il) by (done || lia).
    rewrite (Hul il Hil). cbn [orb].
    rewrite (hash_tiles_parts _ _ _ _ io il) by (auto; lia).
    by rewrite Z2Nat.id by lia.
  - replace (Z.to_nat cnt) with 0%nat by lia.
    cbn [check_total_size hash_tiles]. rewrite seqZ_nil by lia. done.
Qed.


End QuickhashFacts.

(** * The properties of a directory *)

Lemma g_strdup_is_Some buf : is_Some (g_strdup buf) <-> Byte.x00 ∈ buf.
Proof.
  induction buf as [|b buf IH]; cbn [g_strdup].
  - split; [by intros [? ?]|by intros ?%elem_of_nil].
  - case_decide as Hb.
    + subst. split; [intros _; by left|eauto].
    + rewrite fmap_is_Some, IH. split; [by right|].
      intros [?|?]%elem_of_cons; [by subst|done].
Qed.

(** The string that [g_strdup] returns spells the bytes that come before
    the first NUL of the buffer. *)
Lemma g_strdup_spec buf s :
  g_strdup buf = Some s ->
  exists rest, buf = String.list_byte_of_string s ++ Byte.x00 :: rest
               /\ Byte.x00 ∉ String.list_byte_of_string s.
Proof.
  revert s. induction buf as [|b buf IH]; intros s H; [done|].
  cbn [g_strdup] in H. case_decide as Hb.
  - injection H as <-. subst. exists buf. split; [done|]. apply not_elem_of_nil.
  - destruct (g_strdup buf) as [s'|]; [|done]. injection H as <-.
    destruct (IH s' eq_refl) as (rest & -> & Hno). exists rest.
    change (String.list_byte_of_string (String (Ascii.ascii_of_byte b) s'))
      with (Ascii.byte_of_ascii (Ascii.ascii_of_byte b) :: String.list_byte_of_string s').
    rewrite Ascii.byte_of_ascii_of_byte.
    split; [done|]. by intros [?|?]%elem_of_cons.
Qed.

Section PropertiesFacts.

Variable hash_t : Type.
Variable hash_string : hash_t -> option string -> hash_t.
Variable hash_disable : hash_t -> hash_t.
Variable hash_file_part : hash_t -> Z -> Z -> option GError * hash_t.
Variable format_double : float -> string.
Variable comment_name : string.

#[local] Instance prop_defined_dec tl dir tag : Decision (prop_defined tl dir tag).
Proof.
  unfold prop_defined.
  destruct (_openslide_tifflike_get_buffer tl dir tag) as [buf|].
  - destruct (decide (Byte.x00 ∈ buf)) as [Hin|Hno].
    + left. by intros ? [= <-].
    + right. intros H. apply Hno. by apply H.
  - left. done.
Defined.

Lemma store_string_property_defined tl dir ht name tag :
  prop_defined tl dir tag ->
  store_string_property tl dir ht name tag
  = Some (prop_value tl dir tag, maybe_insert name (prop_value tl dir tag) ht).
Proof.
  unfold prop_defined, store_string_property, prop_value. intros Hd.
  destruct (_openslide_tifflike_get_buffer tl dir tag) as [buf|]; [|done].
  destruct (proj2 (g_strdup_is_Some buf) (Hd buf eq_refl)) as [s Hs].
  cbn. by rewrite Hs.
Qed.

Lemma store_string_property_undefined tl dir ht name tag :
  ~ prop_defined tl dir tag -> store_string_property tl dir ht name tag = None.
Proof.
  unfold prop_defined, store_string_property. intros Hd.
  destruct (_openslide_tifflike_get_buffer tl dir tag) as [buf|]; [|by destruct Hd].
  destruct (g_strdup buf) as [s|] eqn:Hs; [|done].
  destruct Hd. intros ? [= <-]. apply g_strdup_is_Some. eauto.
Qed.

Lemma store_and_hash_string_property_defined tl dir ht h name tag :
  prop_defined tl dir tag ->
  store_and_hash_string_property hash_t hash_string tl dir ht h name tag
  = Some (maybe_insert name (prop_value tl dir tag) ht,
          hash_string (hash_string h (Some name)) (prop_value tl dir tag)).
Proof.
  intros Hd. unfold store_and_hash_string_property.
  by rewrite store_string_property_defined.
Qed.

Lemma store_and_hash_string_property_undefined tl dir ht h name tag :
  ~ prop_defined tl dir tag ->
  store_and_hash_string_property hash_t hash_string tl dir ht h name tag = None.
Proof.
  intros Hd. unfold store_and_hash_string_property.
  by rewrite store_string_property_undefined.
Qed.

Lemma store_float_property_eq tl dir ht name tag :
  store_float_property format_double tl dir ht name tag
  = maybe_insert name (float_value format_double tl dir tag) ht.
Proof.
  unfold store_float_property, float_value.
  by destruct (_openslide_tifflike_get_float tl dir tag 0 (Some true)) as [v [[|]|]].
Qed.

Lemma to_int64_eq_small v k : 0 <= v < 2 ^ 64 -> 0 <= k < 2 ^ 63 -> to_int64 v = k <-> v = k.
Proof.
  intros Hv Hk. destruct (decide (v < 2 ^ 63)).
  - rewrite to_int64_small by lia. done.
  - rewrite to_int64_neg by lia. lia.
Qed.

Lemma resolution_unit_eq tl dir :
  (let '(resolution_unit, ok) :=
     _openslide_tifflike_get_uint tl dir TIFFTAG_RESOLUTIONUNIT 0 (Some true) in
   match match ok with Some true => to_int64 resolution_unit | _ => RESUNIT_INCH end with
   | RESUNIT_NONE => "none"
   | RESUNIT_INCH => "inch"
   | RESUNIT_CENTIMETER => "centimeter"
   | _ => "unknown"
   end) = resolution_unit_name tl dir.
Proof.
  unfold resolution_unit_name.
  pose proof (get_uint_range tl dir TIFFTAG_RESOLUTIONUNIT 0 (Some true)) as Hr.
  destruct (_openslide_tifflike_get_uint tl dir 296 0 (Some true)) as [v [[|]|]];
    try done.
  cbn [fst] in Hr.
  pose proof (to_int64_eq_small v 1 Hr ltac:(lia)) as H1.
  pose proof (to_int64_eq_small v 2 Hr ltac:(lia)) as H2.
  pose proof (to_int64_eq_small v 3 Hr ltac:(lia)) as H3.
  repeat case_decide; subst; try done;
    destruct (to_int64 v) as [|[[|[]|]|[|[]|]|]|]; try done; tauto.
Qed.

(** The tags whose buffers [store_and_hash_properties] copies. *)
Lemma properties_normal_form tl dir ht h :
  store_and_hash_properties hash_t hash_string format_double comment_name tl dir ht h
  = if decide (Forall (fun p => prop_defined tl dir p.2) tiff_string_properties)
    then Some (stored_properties format_double comment_name tl dir ht,
               hashed_properties hash_t hash_string tl dir h)
    else None.
Proof.
  unfold store_and_hash_properties, stored_properties, hashed_properties,
    tiff_string_properties.
  cbn [foldl fst snd].
  case_decide as Hall.
  - repeat match goal with
           | H : Forall _ (_ :: _) |- _ => apply Forall_cons in H as [? H]
           end.
    cbn [fst snd] in *.
    rewrite store_string_property_defined by done. cbn [mbind option_bind].
    repeat (rewrite store_and_hash_string_property_defined by done;
            cbn [mbind option_bind]).
    rewrite !store_float_property_eq.
    pose proof (resolution_unit_eq tl dir) as Hu. cbv zeta in Hu.
    destruct (_openslide_tifflike_get_uint tl dir 296 0 (Some true)) as [v ok].
    by rewrite Hu.
  - destruct (decide (prop_defined tl dir 270)) as [H0|H0].
    2:{ by rewrite store_string_property_undefined. }
    rewrite store_string_property_defined by done. cbn [mbind option_bind].
    repeat match goal with
           | |- context [store_and_hash_string_property _ _ tl dir ?ht ?h ?name ?tag] =>
               destruct (decide (prop_defined tl dir tag));
               [rewrite (store_and_hash_string_property_defined tl dir ht h name tag)
                  by done; cbn [mbind option_bind]
               |by rewrite (store_and_hash_string_property_undefined tl dir ht h name tag)]
           end.
    destruct Hall. repeat constructor; done.
Qed.

Lemma lookup_maybe_insert_ne name v (ht : gmap string string) key :
  key <> name -> maybe_insert name v ht !! key = ht !! key.
Proof.
  intros Hne. destruct v as [x|]; [|done]. cbn. by rewrite lookup_insert_ne.
Qed.

Lemma lookup_maybe_insert_eq name v (ht : gmap string string) :
  maybe_insert name v ht !! name = match v with Some x => Some x | None => ht !! name end.
Proof. destruct v as [x|]; [|done]. cbn. by rewrite lookup_insert_eq. Qed.

Lemma lookup_foldl_maybe_insert_ne (f : Z -> option string) props
    (ht : gmap string string) key :
  key ∉ props.*1 ->
  foldl (fun ht p => maybe_insert p.1 (f p.2) ht) ht props !! key = ht !! key.
Proof.
  revert ht. induction props as [|[n t] props IH]; intros ht Hno; [done|].
  cbn [foldl fst snd]. rewrite fmap_cons, not_elem_of_cons in Hno.
  destruct Hno as [Hne Hno]. rewrite IH by done. by apply lookup_maybe_insert_ne.
Qed.

Lemma lookup_foldl_maybe_insert (f : Z -> option string) props
    (ht : gmap string string) name tag :
  NoDup props.*1 -> (name, tag) ∈ props ->
  foldl (fun ht p => maybe_insert p.1 (f p.2) ht) ht props !! name
  = match f tag with Some x => Some x | None => ht !! name end.
Proof.
  revert ht. induction props as [|[n t] props IH]; intros ht Hnd Hin.
  { by apply elem_of_nil in Hin. }
  rewrite fmap_cons in Hnd. apply NoDup_cons in Hnd as [Hfresh Hnd].
  cbn [foldl fst snd]. apply elem_of_cons in Hin as [[= -> ->]|Hin].
  - rewrite lookup_foldl_maybe_insert_ne by done. apply lookup_maybe_insert_eq.
  - rewrite IH by done. destruct (f tag); [done|].
    apply lookup_maybe_insert_ne. intros ->. apply Hfresh.
    apply list_elem_of_fmap. by exists (n, tag).
Qed.

Lemma property_names_NoDup :
  NoDup (tiff_string_properties.*1) /\ NoDup (tiff_float_properties.*1)
  /\ (forall n, n ∈ tiff_string_properties.*1 -> n ∉ tiff_float_properties.*1)
  /\ ("tiff.ResolutionUnit" ∉ tiff_string_properties.*1)
  /\ ("tiff.ResolutionUnit" ∉ tiff_float_properties.*1).
Proof.
  split; [compute_done|]. split; [compute_done|].
  split; [apply Forall_forall; compute_done|]. split; compute_done.
Qed.

Lemma properties_result tl dir ht h ht' h' :
  store_and_hash_properties hash_t hash_string format_double comment_name tl dir ht h
  = Some (ht', h') ->
  Forall (fun p => prop_defined tl dir p.2) tiff_string_properties
  /\ ht' = stored_properties format_double comment_name tl dir ht
  /\ h' = hashed_properties hash_t hash_string tl dir h.
Proof.
  rewrite properties_normal_form. case_decide; [|done]. by intros [= <- <-].
Qed.

(** [store_and_hash_properties] copies each string it stores up to the
    string's first NUL, so it has a result exactly when every buffer it
    copies holds one: it runs past the end of a value buffer if and only if
    one of the nine string tags holds an Ascii or Undefined value without a
    NUL byte. *)
Theorem properties_defined_iff_terminated tl dir ht h :
  store_and_hash_properties hash_t hash_string format_double comment_name tl dir ht h
  = None
  <-> exists name tag buf,
        (name, tag) ∈ tiff_string_properties
        /\ _openslide_tifflike_get_buffer tl dir tag = Some buf
        /\ Byte.x00 ∉ buf.
Proof.
  rewrite properties_normal_form. case_decide as Hall.
  - split; [done|]. intros (name & tag & buf & Hin & Hb & Hno).
    rewrite Forall_forall in Hall. destruct Hno. by apply (Hall _ Hin).
  - split; [|done]. intros _. apply not_Forall_Exists in Hall; [|apply _].
    apply Exists_exists in Hall as ([name tag] & Hin & Hnd).
    unfold compose, prop_defined in Hnd. cbn [snd] in Hnd.
    destruct (_openslide_tifflike_get_buffer tl dir tag) as [buf|] eqn:Hb.
    + exists name, tag, buf. split; [done|]. split; [done|].
      intros Hin0. apply Hnd. by intros ? [= <-].
    + by destruct Hnd.
Qed.

(** Each of the nine string properties is stored under its name when its
    tag holds a buffer: the value is the string that the buffer spells up to
    its first NUL.  When its tag holds none, the name keeps the value it had
    (provided the comment property has another name).  The comment property
    gets the same string as tiff.ImageDescription. *)
Theorem properties_strings_stored tl dir ht h ht' h' :
  store_and_hash_properties hash_t hash_string format_double comment_name tl dir ht h
  = Some (ht', h') ->
  (forall name tag,
     (name, tag) ∈ tiff_string_properties ->
     match _openslide_tifflike_get_buffer tl dir tag with
     | Some buf =>
         exists s rest,
           ht' !! name = Some s
           /\ buf = String.list_byte_of_string s ++ Byte.x00 :: rest
           /\ Byte.x00 ∉ String.list_byte_of_string s
     | None => name <> comment_name -> ht' !! name = ht !! name
     end)
  /\ (comment_name ∉ tiff_string_properties.*1 ->
      comment_name ∉ tiff_float_properties.*1 ->
      comment_name <> "tiff.ResolutionUnit" ->
      ht' !! comment_name
      = match _openslide_tifflike_get_buffer tl dir TIFFTAG_IMAGEDESCRIPTION with
        | Some _ => ht' !! "tiff.ImageDescription"
        | None => ht !! comment_name
        end).
Proof.
  intros (Hall & -> & _)%properties_result.
  destruct property_names_NoDup as (Hnd1 & Hnd2 & Hdisj & Hu1 & Hu2).
  unfold stored_properties. cbv zeta.
  assert (Hstr : forall name tag, (name, tag) ∈ tiff_string_properties ->
            forall base : gmap string string,
            (<["tiff.ResolutionUnit" := resolution_unit_name tl dir]>
               (foldl (fun ht p => maybe_insert p.1 (float_value format_double tl dir p.2) ht)
                  (foldl (fun ht p => maybe_insert p.1 (prop_value tl dir p.2) ht)
                     base tiff_string_properties)
                  tiff_float_properties)) !! name
            = match prop_value tl dir tag with
              | Some x => Some x
              | None => base !! name
              end).
  { intros name tag Hin base.
    assert (Hn : name ∈ tiff_string_properties.*1)
      by (apply list_elem_of_fmap; by exists (name, tag)).
    rewrite lookup_insert_ne by (intros <-; done).
    rewrite lookup_foldl_maybe_insert_ne by (by apply Hdisj).
    by apply lookup_foldl_maybe_insert. }
  split.
  - intros name tag Hin. rewrite (Hstr name tag Hin).
    rewrite Forall_forall in Hall. pose proof (Hall _ Hin) as Hd. cbn [snd] in Hd.
    unfold prop_defined in Hd. unfold prop_value.
    destruct (_openslide_tifflike_get_buffer tl dir tag) as [buf|]; cbn.
    + destruct (proj2 (g_strdup_is_Some buf) (Hd buf eq_refl)) as [s Hs].
      rewrite Hs. destruct (g_strdup_spec buf s Hs) as (rest & Hb & Hno).
      by exists s, rest.
    + intros Hne. by apply lookup_maybe_insert_ne.
  - intros Hc1 Hc2 Hc3.
    rewrite (Hstr "tiff.ImageDescription" 270) by (by left).
    rewrite lookup_insert_ne by done.
    rewrite !lookup_foldl_maybe_insert_ne by done.
    rewrite lookup_maybe_insert_eq.
    rewrite Forall_forall in Hall.
    pose proof (Hall ("tiff.ImageDescription", 270) ltac:(by left)) as Hd.
    cbn [snd] in Hd. unfold prop_defined in Hd. unfold prop_value.
    destruct (_openslide_tifflike_get_buffer tl dir 270) as [buf|]; cbn; [|done].
    destruct (proj2 (g_strdup_is_Some buf) (Hd buf eq_refl)) as [s Hs].
    by rewrite Hs.
Qed.

(** The four float properties and the resolution unit.  A float property is
    stored, as [_openslide_format_double] writes it, when [get_float]
    succeeds on the first element of its tag, and keeps the value it had
    otherwise.  tiff.ResolutionUnit is always stored: none, inch or
    centimeter when the first element of the ResolutionUnit tag is the
    unsigned integer 1, 2 or 3, unknown for any other unsigned integer, and
    inch, the default, when [get_uint] fails on it. *)
Theorem properties_floats_and_unit tl dir ht h ht' h' :
  store_and_hash_properties hash_t hash_string format_double comment_name tl dir ht h
  = Some (ht', h') ->
  (forall name tag,
     (name, tag) ∈ tiff_float_properties -> name <> comment_name ->
     ht' !! name
     = match _openslide_tifflike_get_float tl dir tag 0 (Some true) with
       | (v, Some true) => Some (format_double v)
       | _ => ht !! name
       end)
  /\ exists unit,
       ht' !! "tiff.ResolutionUnit" = Some unit
       /\ match _openslide_tifflike_get_uint tl dir TIFFTAG_RESOLUTIONUNIT 0 (Some true) with
          | (v, Some true) =>
              (v = RESUNIT_NONE -> unit = "none")
              /\ (v = RESUNIT_INCH -> unit = "inch")
              /\ (v = RESUNIT_CENTIMETER -> unit = "centimeter")
              /\ (v <> RESUNIT_NONE -> v <> RESUNIT_INCH -> v <> RESUNIT_CENTIMETER ->
                  unit = "unknown")
          | _ => unit = "inch"
          end.
Proof.
  intros (Hall & -> & _)%properties_result.
  destruct property_names_NoDup as (Hnd1 & Hnd2 & Hdisj & Hu1 & Hu2).
  unfold stored_properties. cbv zeta. split.
  - intros name tag Hin Hne.
    assert (Hn : name ∈ tiff_float_properties.*1)
      by (apply list_elem_of_fmap; by exists (name, tag)).
    rewrite lookup_insert_ne by (intros <-; done).
    rewrite (lookup_foldl_maybe_insert _ _ _ name tag) by done.
    unfold float_value.
    destruct (_openslide_tifflike_get_float tl dir tag 0 (Some true)) as [v [[|]|]];
      try done;
      (rewrite lookup_foldl_maybe_insert_ne
         by (intros Hs; by apply (Hdisj name Hs));
       by apply lookup_maybe_insert_ne).
  - exists (resolution_unit_name tl dir). split; [apply lookup_insert_eq|].
    unfold resolution_unit_name.
    destruct (_openslide_tifflike_get_uint tl dir 296 0 (Some true)) as [v [[|]|]];
      try done.
    repeat case_decide; repeat split; intros; (done || lia).
Qed.

(** [store_and_hash_properties] touches fifteen names and no other: every
    other name of the property table keeps the value it had, or stays
    absent. *)
Theorem properties_other_keys_kept tl dir ht h ht' h' key :
  store_and_hash_properties hash_t hash_string format_double comment_name tl dir ht h
  = Some (ht', h') ->
  key <> comment_name -> key <> "tiff.ResolutionUnit" ->
  key ∉ tiff_string_properties.*1 -> key ∉ tiff_float_properties.*1 ->
  ht' !! key = ht !! key.
Proof.
  intros (_ & -> & _)%properties_result Hc Hu Hs Hf.
  unfold stored_properties. cbv zeta.
  rewrite lookup_insert_ne by done.
  rewrite !lookup_foldl_maybe_insert_ne by done.
  by apply lookup_maybe_insert_ne.
Qed.

(** [_openslide_tifflike_init_properties_and_hash]: with a null handle it
    succeeds at once and touches neither the accumulator nor any property.
    When hashing the lowest resolution level fails, it fails with that
    error, of the same kind, its message prefixed with "Cannot hash TIFF
    tiles: ", and leaves the properties of the handle as they were.  When
    hashing succeeds, the properties of the property directory are stored
    in the handle and their strings are fed to the accumulator that the
    hashing left. *)
Theorem init_properties_and_hash_outcomes osr tl h level property_dir :
  let init := _openslide_tifflike_init_properties_and_hash hash_t hash_string
                hash_disable hash_file_part format_double comment_name in
  let level_hash := hash_tiff_level hash_t hash_disable hash_file_part h tl level in
  (osr = None -> init osr tl h level property_dir = Some (None, None, h))
  /\ (forall props e,
        osr = Some props -> fst level_hash = Some e ->
        init osr tl h level property_dir
        = Some (Some (g_set_error (code e) ("Cannot hash TIFF tiles: " +:+ message e)),
                Some props, snd level_hash))
  /\ (forall props,
        osr = Some props -> fst level_hash = None ->
        Forall (fun p => prop_defined tl property_dir p.2) tiff_string_properties ->
        init osr tl h level property_dir
        = Some (None,
                Some (stored_properties format_double comment_name tl property_dir props),
                hashed_properties hash_t hash_string tl property_dir (snd level_hash))).
Proof.
  cbv zeta. unfold _openslide_tifflike_init_properties_and_hash.
  split; [by intros ->|]. split.
  - intros props e -> He.
    destruct (hash_tiff_level hash_t hash_disable hash_file_part h tl level) as [r h1].
    cbn [fst snd] in *. by subst r.
  - intros props -> He Hall.
    destruct (hash_tiff_level hash_t hash_disable hash_file_part h tl level) as [r h1].
    cbn [fst snd] in *. subst r.
    rewrite properties_normal_form, decide_True by done. done.
Qed.

End PropertiesFacts.

(** The quickhash sees the nine string properties and nothing else: the
    accumulator is fed, for each of them in order, the name and then the
    string stored (a null string when the tag has no buffer).  So the hash
    does not depend on the property table, nor on the float properties and
    the resolution unit, nor on the name of the comment property: two
    directories with the same nine strings give the same accumulator. *)
Theorem properties_hash_strings_only (hash_t : Type)
    (hash_string : hash_t -> option string -> hash_t) format_double comment_name
    tl dir ht h ht' h' :
  store_and_hash_properties hash_t hash_string format_double comment_name tl dir ht h
  = Some (ht', h') ->
  h' = foldl hash_string h
         (flat_map (fun p => [Some p.1; prop_value tl dir p.2]) tiff_string_properties)
  /\ forall format_double2 comment_name2 tl2 dir2 ht2 ht2' h2',
       (forall name tag, (name, tag) ∈ tiff_string_properties ->
          _openslide_tifflike_get_buffer tl2 dir2 tag
          = _openslide_tifflike_get_buffer tl dir tag) ->
       store_and_hash_properties hash_t hash_string format_double2 comment_name2
         tl2 dir2 ht2 h = Some (ht2', h2') ->
       h2' = h'.
Proof.
  intros (_ & _ & ->)%properties_result. split; [reflexivity|].
  intros fd2 cn2 tl2 dir2 ht2 ht2' h2' Hsame H2.
  apply properties_result in H2 as (_ & _ & ->). unfold hashed_properties.
  assert (Hv : forall name tag, (name, tag) ∈ tiff_string_properties ->
            prop_value tl2 dir2 tag = prop_value tl dir tag).
  { intros name tag Hin. unfold prop_value. by rewrite (Hsame name tag Hin). }
  revert Hv. generalize tiff_string_properties. intros props.
  revert h. induction props as [|[n t] props IH]; intros h Hv; [done|].
  cbn [foldl fst snd]. rewrite (Hv n t) by (by left).
  apply IH. intros name tag Hin. apply (Hv name tag). by right.
Qed.

(** * Printing a model *)

Lemma model_item_entry st tl st' dir tag item :
  _openslide_tifflike_create st = Some (inr tl, st') ->
  get_item tl dir tag = Some item ->
  exists bt be pos, entry_at bt be (f_bytes st) pos = inr (tag, item).
Proof.
  intros Hc Hit.
  destruct (create_inr_chain _ _ _ Hc) as (bt & be & d0 & offs & _ & _ & _ & _ & Hd).
  destruct (get_item_Some _ _ _ _ Hit) as (_ & ht & Hht & Hlook).
  rewrite Hd, list_lookup_fmap in Hht.
  destruct (offs !! Z.to_nat dir) as [off|]; [|done]. injection Hht as <-.
  unfold dir_table in Hlook.
  apply insert_entries_lookup_Some in Hlook as [(j & Hj & _)|[He _]]; [|done].
  apply dir_entries_lookup in Hj as [Hat _]. eauto.
Qed.

(** The tags of a model are 16-bit numbers. *)
Lemma model_tag_range st tl st' dir tag item :
  _openslide_tifflike_create st = Some (inr tl, st') ->
  get_item tl dir tag = Some item -> 0 <= tag < 2 ^ 16.
Proof.
  intros Hc Hit. destruct (model_item_entry _ _ _ _ _ _ Hc Hit) as (bt & be & pos & Hat).
  apply entry_at_inr in Hat as (_ & -> & _). unfold entry_tag. cbn [f_bytes f_pos].
  pose proof (file_val_range be (slice (f_bytes st) pos 2)) as Hv.
  pose proof (length_slice_le (f_bytes st) pos 2 ltac:(lia)) as Hl.
  assert (2 ^ (8 * Z.of_nat (length (slice (f_bytes st) pos 2))) <= 2 ^ 16)
    by (apply Z.pow_le_mono_r; lia).
  lia.
Qed.

Lemma GPOINTER_TO_INT_small k : 0 <= k < 2 ^ 31 -> GPOINTER_TO_INT k = k.
Proof.
  intros Hk. unfold GPOINTER_TO_INT, sign_extend.
  rewrite Z.mod_small by lia. change (8 * 4 - 1) with 31.
  destruct (Z.ltb_spec k (2 ^ 31)); lia.
Qed.

Lemma tag_before_le a b :
  tag_before a b <-> GPOINTER_TO_INT a <= GPOINTER_TO_INT b.
Proof.
  unfold tag_before, tag_compare. cbv zeta.
  destruct (Z.ltb_spec (GPOINTER_TO_INT a) (GPOINTER_TO_INT b)); [lia|].
  destruct (GPOINTER_TO_INT a >? GPOINTER_TO_INT b) eqn:E; lia.
Qed.

#[local] Instance tag_before_trans : Transitive tag_before.
Proof. intros a b c. rewrite !tag_before_le. lia. Qed.

#[local] Instance tag_before_total : Total tag_before.
Proof. intros a b. rewrite !tag_before_le. lia. Qed.

(** Sorting distinct keys that fit an [int] gives them in increasing order,
    whatever order they came in. *)
Lemma sorted_keys (keys : list Z) :
  NoDup keys -> (forall k, k ∈ keys -> 0 <= k < 2 ^ 31) ->
  StronglySorted Z.lt (merge_sort tag_before keys)
  /\ merge_sort tag_before keys ≡ₚ keys
  /\ forall keys', keys' ≡ₚ keys -> merge_sort tag_before keys' = merge_sort tag_before keys.
Proof.
  intros Hnd Hr.
  assert (Hsorted : forall l, l ≡ₚ keys -> StronglySorted Z.lt (merge_sort tag_before l)).
  { intros l Hl.
    pose proof (StronglySorted_merge_sort tag_before l) as Hs.
    pose proof (merge_sort_Permutation tag_before l) as Hp.
    assert (Hnd' : NoDup (merge_sort tag_before l)) by (by rewrite Hp, Hl).
    assert (Hr' : forall k, k ∈ merge_sort tag_before l -> 0 <= k < 2 ^ 31)
      by (intros k Hk; apply Hr; by rewrite <- Hl, <- Hp).
    revert Hs Hnd' Hr'. generalize (merge_sort tag_before l). intros m.
    induction 1 as [|x m Hm IH Hall]; intros Hnd' Hr'; constructor.
    - apply IH; [by apply NoDup_cons in Hnd' as [_ ?]|].
      intros k Hk. apply Hr'. by right.
    - apply NoDup_cons in Hnd' as [Hx _]. rewrite Forall_forall in Hall |- *.
      intros y Hy. pose proof (Hall y Hy) as Hle. apply tag_before_le in Hle.
      rewrite !GPOINTER_TO_INT_small in Hle
        by (apply Hr'; (by left) || (by right)).
      assert (x <> y) by (by intros ->). lia. }
  split; [by apply Hsorted|]. split; [apply merge_sort_Permutation|].
  intros keys' Hp. apply (StronglySorted_unique_strong Z.lt).
  - intros; lia.
  - by apply Hsorted.
  - by apply Hsorted.
  - by rewrite !merge_sort_Permutation.
Qed.

Section PrintFacts.

Variables fmt_i64 fmt_u64 mod_i64 : string.

Lemma not_in_printf format args out :
  g_return_if_reached_call ∉ out ->
  g_return_if_reached_call ∉ printf format args out.
Proof.
  intros Hno. unfold printf. rewrite elem_of_app.
  intros [?|[?|?%elem_of_nil]%elem_of_cons]; done.
Qed.

Lemma print_bytes_ok data todo : forall i out,
  0 <= i -> i + Z.of_nat todo <= Z.of_nat (length data) ->
  exists out', print_bytes todo i data out = inr out'
               /\ (g_return_if_reached_call ∉ out -> g_return_if_reached_call ∉ out').
Proof.
  induction todo as [|todo IH]; intros i out Hi Hlen; [by exists out|].
  cbn [print_bytes].
  destruct (data !! Z.to_nat i) as [b|] eqn:Hb.
  2:{ apply lookup_ge_None in Hb. lia. }
  destruct (IH (i + 1) (printf " %u" [arg_uint (byte_val b)] out)) as (out' & -> & Hc);
    [lia..|].
  exists out'. split; [done|]. intros Hno. by apply Hc, not_in_printf.
Qed.

Lemma print_elements_known tl dir tag type w todo : forall i out,
  type_width type = Some w -> buffer_type type = false ->
  exists out',
    print_elements fmt_i64 fmt_u64 mod_i64 todo i tl dir tag type out = (true, out')
    /\ (g_return_if_reached_call ∉ out -> g_return_if_reached_call ∉ out').
Proof.
  induction todo as [|todo IH]; intros i out Htw Hb; [by exists out|].
  cbn [print_elements].
  assert (Hstep : forall format args,
            exists out',
              print_elements fmt_i64 fmt_u64 mod_i64 todo (i + 1) tl dir tag type
                (printf format args out) = (true, out')
              /\ (g_return_if_reached_call ∉ out -> g_return_if_reached_call ∉ out')).
  { intros format args.
    destruct (IH (i + 1) (printf format args out) Htw Hb) as (out' & -> & Hc).
    exists out'. split; [done|]. intros Hno. by apply Hc, not_in_printf. }
  revert Htw Hb Hstep. unfold type_width, value_size_and_count, buffer_type.
  generalize (print_elements fmt_i64 fmt_u64 mod_i64 todo (i + 1) tl dir tag).
  intros rec. destruct type as [|p|p]; try done;
    repeat (destruct p as [p|p|]; try done); intros _ _ Hstep; apply Hstep.
Qed.

Lemma print_tag_ok tl dir tag item out :
  get_item tl dir tag = Some item -> item_wf item ->
  exists out',
    print_tag fmt_i64 fmt_u64 mod_i64 tl dir tag out = inr out'
    /\ (g_return_if_reached_call ∉ out -> g_return_if_reached_call ∉ out').
Proof.
  intros Hit Hwf. unfold print_tag. rewrite Hit.
  set (out1 := printf _ _ out).
  assert (Hc1 : g_return_if_reached_call ∉ out -> g_return_if_reached_call ∉ out1)
    by apply not_in_printf.
  rewrite (get_buffer_by_type _ _ _ _ Hit).
  destruct (type item =? 2) eqn:E2.
  { apply Z.eqb_eq in E2.
    assert (Hb : buffer_type (type item) = true) by (by rewrite E2).
    rewrite Hb. destruct (item_wf_buffer item Hwf Hb) as [Hpos Hlen].
    destruct (Z.ltb_spec (count item - 1) 0); [lia|].
    destruct (value item !! Z.to_nat (count item - 1)) as [c|] eqn:Hc.
    2:{ apply lookup_ge_None in Hc. lia. }
    case_decide as Hz.
    - subst c. destruct (proj2 (g_strdup_is_Some (value item))) as [s ->].
      { by eapply list_elem_of_lookup_2. }
      eexists. split; [reflexivity|]. intros Hno. by apply not_in_printf, not_in_printf, Hc1.
    - eexists. split; [reflexivity|]. intros Hno. by apply not_in_printf, not_in_printf, Hc1. }
  destruct (type item =? 7) eqn:E7.
  { apply Z.eqb_eq in E7.
    assert (Hb : buffer_type (type item) = true) by (by rewrite E7).
    rewrite Hb. destruct (item_wf_buffer item Hwf Hb) as [Hpos Hlen].
    destruct (print_bytes_ok (value item) (Z.to_nat (count item)) 0 out1)
      as (out' & -> & Hc); [lia..|].
    eexists. split; [reflexivity|]. intros Hno. by apply not_in_printf, Hc, Hc1. }
  assert (Hb : buffer_type (type item) = false).
  { apply Z.eqb_neq in E2, E7. unfold buffer_type. apply bool_decide_eq_false.
    intros [?|[?|?%elem_of_nil]%elem_of_cons]%elem_of_cons; done. }
  assert (Htw : exists w, type_width (type item) = Some w).
  { destruct Hwf as (sz & c & Hv & _). exists sz. revert Hv.
    unfold type_width, value_size_and_count. generalize (type item). intros t.
    switch_cases; intros; simplify_eq; done. }
  destruct Htw as [w Htw].
  destruct (print_elements_known tl dir tag (type item) w (Z.to_nat (count item)) 0 out1
              Htw Hb) as (out' & -> & Hc).
  eexists. split; [reflexivity|]. intros Hno. by apply not_in_printf, Hc, Hc1.
Qed.

Lemma print_tags_ok tl dir keys : forall out,
  tifflike_wf tl ->
  (forall k, k ∈ keys -> 0 <= k < 2 ^ 31 /\ is_Some (get_item tl dir k)) ->
  exists out',
    print_tags fmt_i64 fmt_u64 mod_i64 tl dir keys out = inr out'
    /\ (g_return_if_reached_call ∉ out -> g_return_if_reached_call ∉ out').
Proof.
  induction keys as [|k keys IH]; intros out Hwf Hkeys; [by exists out|].
  cbn [print_tags]. destruct (Hkeys k ltac:(by left)) as [Hr [item Hit]].
  rewrite GPOINTER_TO_INT_small by done.
  destruct (print_tag_ok tl dir k item out Hit) as (out1 & -> & Hc1).
  { by eapply get_item_wf. }
  destruct (IH out1 Hwf) as (out' & -> & Hc).
  { intros k' Hk'. apply Hkeys. by right. }
  exists out'. split; [done|]. auto.
Qed.

(** [print_directory] prints the tags of a directory in increasing order,
    each tag once, whatever the order in which the hash table hands out its
    keys, and then an empty line: for a directory whose tags fit an [int],
    the sorted list of keys is strictly increasing and holds exactly the
    tags of the directory, and any other order of the keys sorts to the
    same list. *)
Theorem print_directory_sorted tl dir ht out :
  0 <= dir -> directories tl !! Z.to_nat dir = Some ht ->
  (forall k, is_Some (ht !! k) -> 0 <= k < 2 ^ 31) ->
  exists keys,
    StronglySorted Z.lt keys
    /\ (forall k, k ∈ keys <-> is_Some (ht !! k))
    /\ (forall keys', keys' ≡ₚ (map_to_list ht).*1 -> merge_sort tag_before keys' = keys)
    /\ print_directory fmt_i64 fmt_u64 mod_i64 tl dir out
       = match print_tags fmt_i64 fmt_u64 mod_i64 tl dir keys out with
         | inl f => inl f
         | inr out' => inr (printf nl [] out')
         end.
Proof.
  intros Hdir Hht Hrange.
  assert (Hin : forall k, k ∈ (map_to_list ht).*1 <-> is_Some (ht !! k)).
  { intros k. rewrite list_elem_of_fmap. split.
    - intros ([k' x] & -> & Hx). apply elem_of_map_to_list in Hx. by exists x.
    - intros [x Hx]. exists (k, x). split; [done|]. by apply elem_of_map_to_list. }
  destruct (sorted_keys (map_to_list ht).*1) as (Hs & Hp & Hany).
  { apply NoDup_fst_map_to_list. }
  { intros k Hk. by apply Hrange, Hin. }
  exists (merge_sort tag_before (map_to_list ht).*1).
  split; [done|]. split; [intros k; by rewrite Hp|]. split; [done|].
  unfold print_directory. destruct (Z.ltb_spec dir 0); [lia|]. by rewrite Hht.
Qed.

(** Printing a model that [_openslide_tifflike_create] returned runs to the
    end: no assertion fails (every key of a table is found again as a tag),
    no read leaves a value buffer, and [g_return_if_reached] is never
    reached, since every stored item has one of the known types. *)
Theorem print_created_model st tl st' out :
  _openslide_tifflike_create st = Some (inr tl, st') ->
  exists out',
    _openslide_tifflike_print fmt_i64 fmt_u64 mod_i64 tl out = inr out'
    /\ (g_return_if_reached_call ∉ out -> g_return_if_reached_call ∉ out').
Proof.
  intros Hc. pose proof (create_tifflike_wf _ _ _ Hc) as Hwf.
  unfold _openslide_tifflike_print.
  assert (Hloop : forall todo n out,
            Z.of_nat n + Z.of_nat todo <= Z.of_nat (length (directories tl)) ->
            exists out',
              print_directories fmt_i64 fmt_u64 mod_i64 todo (Z.of_nat n) tl out = inr out'
              /\ (g_return_if_reached_call ∉ out -> g_return_if_reached_call ∉ out')).
  { induction todo as [|todo IH]; intros n out0 Hn; [by exists out0|].
    cbn [print_directories]. set (out1 := printf _ _ out0).
    destruct (directories tl !! n) as [ht|] eqn:Hht.
    2:{ apply lookup_ge_None in Hht. lia. }
    unfold print_directory. destruct (Z.ltb_spec (Z.of_nat n) 0); [lia|].
    rewrite Nat2Z.id, Hht.
    assert (Hkeys : forall k, k ∈ merge_sort tag_before (map_to_list ht).*1 ->
              0 <= k < 2 ^ 31 /\ is_Some (get_item tl (Z.of_nat n) k)).
    { intros k Hk. rewrite merge_sort_Permutation in Hk.
      apply list_elem_of_fmap in Hk as ([k' x] & -> & Hx).
      apply elem_of_map_to_list in Hx. cbn [fst].
      assert (Hit : get_item tl (Z.of_nat n) k' = Some x)
        by (by rewrite (get_item_lookup tl n ht k' Hht)).
      split; [|eauto].
      pose proof (model_tag_range _ _ _ _ _ _ Hc Hit). lia. }
    destruct (print_tags_ok tl (Z.of_nat n) _ out1 Hwf Hkeys) as (out2 & -> & Hc2).
    destruct (IH (S n) (printf nl [] out2)) as (out' & Hrun & Hc3); [lia|].
    replace (Z.of_nat n + 1) with (Z.of_nat (S n)) by lia. rewrite Hrun.
    exists out'. split; [done|]. intros Hno.
    by apply Hc3, not_in_printf, Hc2, not_in_printf. }
  apply (Hloop _ 0%nat). lia.
Qed.

End PrintFacts.

(** * The stream wrapper *)

Section FileFacts.

Variable FILE : Type.
Variable libc_fread : Z -> FILE -> list byte * FILE.

(** The bytes that a stream has yet to deliver; a call of [fread] takes
    some of them off the front, no more than it was asked for. *)
Variable remaining : FILE -> list byte.
Hypothesis libc_fread_prefix : forall n fp,
  remaining fp = (libc_fread n fp).1 ++ remaining (libc_fread n fp).2
  /\ Z.of_nat (length (libc_fread n fp).1) <= Z.max 0 n.

Lemma _openslide_fread_loop_spec size fuel : forall buf fp,
  Z.of_nat (length buf) <= size ->
  size - Z.of_nat (length buf) < Z.of_nat fuel ->
  exists data fp',
    _openslide_fread_loop FILE libc_fread fuel size buf fp = Some (buf ++ data, fp')
    /\ remaining fp = data ++ remaining fp'
    /\ Z.of_nat (length (buf ++ data)) <= size
    /\ (Z.of_nat (length (buf ++ data)) < size ->
        exists fp0, libc_fread (size - Z.of_nat (length (buf ++ data))) fp0 = ([], fp')
                    /\ remaining fp0 = remaining fp').
Proof.
  induction fuel as [|fuel IH]; intros buf fp Hlen Hfuel; [lia|].
  cbn [_openslide_fread_loop].
  destruct (Z.ltb_spec (Z.of_nat (length buf)) size) as [Hlt|Hge].
  2:{ exists [], fp. rewrite app_nil_r. split; [done|]. split; [done|].
      split; [lia|]. lia. }
  pose proof (libc_fread_prefix (size - Z.of_nat (length buf)) fp) as [Hrem Hcnt].
  destruct (libc_fread (size - Z.of_nat (length buf)) fp) as [chunk fp1] eqn:Hread.
  cbn [fst snd] in *.
  destruct (Z.eqb_spec (Z.of_nat (length chunk)) 0) as [Hz|Hnz].
  - destruct chunk; [|cbn [length] in Hz; lia].
    exists [], fp1. rewrite app_nil_r. split; [done|]. split; [done|].
    split; [lia|]. intros _. exists fp. by rewrite Hread.
  - destruct (IH (buf ++ chunk) fp1) as (data & fp' & Hrun & Hrem' & Hle & Hshort).
    { rewrite length_app. lia. }
    { rewrite length_app. lia. }
    exists (chunk ++ data), fp'. rewrite app_assoc.
    split; [done|]. split; [by rewrite Hrem, Hrem', app_assoc|]. done.
Qed.

(** [_openslide_fread] returns for every size and every stream, with at
    most [size] bytes, which are the bytes that the stream delivers next, in
    order, however the calls of [fread] cut them up.  It returns fewer than
    [size] bytes only when a call of [fread] delivered nothing; that call
    was the last one. *)
Theorem _openslide_fread_prefix fp size :
  0 <= size ->
  exists data fp',
    _openslide_fread FILE libc_fread fp size = Some (data, fp')
    /\ remaining fp = data ++ remaining fp'
    /\ Z.of_nat (length data) <= size
    /\ (Z.of_nat (length data) < size ->
        exists fp0, libc_fread (size - Z.of_nat (length data)) fp0 = ([], fp')
                    /\ remaining fp0 = remaining fp').
Proof.
  intros Hs. unfold _openslide_fread.
  destruct (_openslide_fread_loop_spec size (S (Z.to_nat size)) [] fp)
    as (data & fp' & Hrun & Hrest); [cbn [length]; lia..|].
  exists data, fp'. done.
Qed.

(** When [fread] delivers at least one byte whenever it is asked for some
    and the stream has some left, [_openslide_fread] makes up for its short
    reads: it returns exactly the next [size] bytes of the stream, or all
    that is left when that is less. *)
Theorem _openslide_fread_complete fp size :
  (forall n fp0, 0 < n -> remaining fp0 <> [] -> (libc_fread n fp0).1 <> []) ->
  0 <= size ->
  exists fp',
    _openslide_fread FILE libc_fread fp size
    = Some (take (Z.to_nat size) (remaining fp), fp')
    /\ remaining fp' = drop (Z.to_nat size) (remaining fp).
Proof.
  intros Hprogress Hs. unfold _openslide_fread.
  destruct (_openslide_fread_loop_spec size (S (Z.to_nat size)) [] fp)
    as (data & fp' & Hrun & Hrem & Hle & Hshort); [cbn [length]; lia..|].
  cbn [app] in *. exists fp'. rewrite Hrun, Hrem.
  destruct (decide (Z.of_nat (length data) < size)) as [Hlt|Hge].
  - destruct (Hshort Hlt) as (fp0 & Hread & Hrem0).
    assert (Hnil : remaining fp' = []).
    { destruct (remaining fp') as [|b l] eqn:E; [done|].
      exfalso. apply (Hprogress (size - Z.of_nat (length data)) fp0); [lia| |].
      - by rewrite Hrem0.
      - by rewrite Hread. }
    rewrite Hnil, app_nil_r.
    rewrite take_ge by lia. rewrite drop_ge by lia. done.
  - assert (Z.to_nat size = length data) as -> by lia.
    by rewrite take_app_length, drop_app_length.
Qed.

End FileFacts.

End Platform.

(** * Independence of the host byte order *)

Section HostIndependence.

Variables h1 h2 : bool.
Variable alloc : Z.

Ltac switch_cases :=
  repeat match goal with
         | |- context [match ?x with _ => _ end] => is_var x; destruct x
         end.

Lemma read_uint_hosts size be ok st :
  int_size size ->
  read_uint h1 size be ok st = read_uint h2 size be ok st.
Proof.
  intros Hsz. destruct (decide (readable size st)) as [Hr|Hr].
  - by rewrite !read_uint_ok.
  - by rewrite !read_uint_fail.
Qed.

Lemma read_uint_bound h size be ok st v ok' st' :
  int_size size -> read_uint h size be ok st = (v, ok', st') -> 0 <= v < 2 ^ 64.
Proof.
  intros Hsz H. destruct (decide (readable size st)) as [Hr|Hr].
  - rewrite read_uint_ok in H by done. injection H as <- _ _.
    pose proof (file_val_range be (slice (f_bytes st) (f_pos st) size)) as Hv.
    pose proof (length_slice_le (f_bytes st) (f_pos st) size) as Hl.
    assert (2 ^ (8 * Z.of_nat (length (slice (f_bytes st) (f_pos st) size))) <= 2 ^ 64)
      by (apply Z.pow_le_mono_r; unfold int_size in Hsz; lia).
    lia.
  - rewrite read_uint_fail in H by done. injection H as <- _ _. lia.
Qed.

Lemma read_tiff_value_hosts size count offset value value_len be st :
  match read_tiff_value h1 alloc size count offset value value_len be st,
        read_tiff_value h2 alloc size count offset value value_len be st with
  | (Some v1, s1), (Some v2, s2) =>
      s1 = s2 /\ exists raw, v1 = fix_byte_order h1 raw size count be
                             /\ v2 = fix_byte_order h2 raw size count be
  | (None, s1), (None, s2) => s1 = s2
  | _, _ => False
  end.
Proof.
  unfold read_tiff_value.
  destruct (_ || _); [done|].
  destruct (g_try_malloc alloc (size * count) st) as [[] st1]; [|done].
  destruct (size * count <=? value_len); [eauto|].
  destruct (fseeko offset st1) as [r st2]. destruct r; try done.
  destruct (fread (size * count) st2) as [[result|] st3]; [eauto|done].
Qed.

Lemma item_raw_decoded h be t raw_count v sz c raw :
  0 <= raw_count < 2 ^ 64 ->
  value_size_and_count t raw_count = Some (sz, c) ->
  v = fix_byte_order h raw sz (to_int64 c) be ->
  item_raw h be (mk_item t (to_int64 raw_count) v) = (t, to_int64 raw_count, raw).
Proof.
  intros Hr Hv ->. unfold item_raw. cbn [type count value].
  rewrite to_int64_mod by done. rewrite Hv. by rewrite fix_byte_order_twice.
Qed.

(** One turn of the entry loop on two hosts: the same state, the same error
    or the same tag, and items with the same content. *)
Lemma read_entry_hosts bt be st :
  match read_entry h1 alloc bt be true st, read_entry h2 alloc bt be true st with
  | (inl e1, s1), (inl e2, s2) => e1 = e2 /\ s1 = s2
  | (inr (t1, i1), s1), (inr (t2, i2), s2) =>
      t1 = t2 /\ s1 = s2 /\ item_raw h1 be i1 = item_raw h2 be i2
  | _, _ => False
  end.
Proof.
  unfold read_entry.
  rewrite (read_uint_hosts 2 be true st) by (unfold int_size; lia).
  destruct (read_uint h2 2 be true st) as [[tag ok1] st1].
  rewrite (read_uint_hosts 2 be ok1 st1) by (unfold int_size; lia).
  destruct (read_uint h2 2 be ok1 st1) as [[type ok2] st2].
  rewrite (read_uint_hosts (if bt then 8 else 4) be ok2 st2)
    by (unfold int_size; destruct bt; lia).
  destruct (read_uint h2 (if bt then 8 else 4) be ok2 st2) as [[cnt ok3] st3] eqn:Ecnt.
  apply read_uint_bound in Ecnt; [|unfold int_size; destruct bt; lia].
  destruct ok3; cbn [negb]; [|done].
  destruct (fread (if bt then 8 else 4) st3) as [[value|] st4] eqn:Efr; [|done].
  assert (Hlen : Z.of_nat (length value) = if bt then 8 else 4).
  { unfold fread in Efr.
    destruct ((0 <? (if bt then 8 else 4)) && (0 <=? f_pos st3)
              && (f_pos st3 + (if bt then 8 else 4) <=? f_size st3)) eqn:E; [|done].
    injection Efr as <- _. apply length_slice; unfold f_size in *; destruct bt; lia. }
  rewrite !host_val_fix_byte_order_one
    by (done || (unfold int_size; destruct bt; lia)).
  destruct (value_size_and_count type cnt) as [[sz c]|] eqn:Ev; [|done].
  pose proof (read_tiff_value_hosts sz (to_int64 c) (to_int64 (file_val be value))
                value (if bt then 8 else 4) be (g_new st4)) as Hrt.
  destruct (read_tiff_value h1 _ _ _ _ _ _ _ _) as [[v1|] s1];
    destruct (read_tiff_value h2 _ _ _ _ _ _ _ _) as [[v2|] s2]; try done.
  destruct Hrt as (-> & raw & -> & ->). split; [done|]. split; [done|].
  by rewrite !(item_raw_decoded _ be type cnt _ sz c raw).
Qed.

Lemma insert_item_hosts be (ht1 ht2 : gmap Z tiff_item) tag i1 i2 st :
  item_raw h1 be <$> ht1 = item_raw h2 be <$> ht2 ->
  item_raw h1 be i1 = item_raw h2 be i2 ->
  (item_raw h1 be <$> (g_hash_table_insert_item ht1 tag i1 st).1
   = item_raw h2 be <$> (g_hash_table_insert_item ht2 tag i2 st).1)
  /\ (g_hash_table_insert_item ht1 tag i1 st).2
     = (g_hash_table_insert_item ht2 tag i2 st).2.
Proof.
  intros Hm Hi. unfold g_hash_table_insert_item. cbn [fst snd].
  split; [by rewrite !fmap_insert, Hm, Hi|].
  apply (f_equal (fun m => m !! tag)) in Hm. rewrite !lookup_fmap in Hm.
  destruct (ht1 !! tag), (ht2 !! tag); done.
Qed.

Lemma unref_items_hosts be (ht1 ht2 : gmap Z tiff_item) st :
  item_raw h1 be <$> ht1 = item_raw h2 be <$> ht2 ->
  g_hash_table_unref_items ht1 st = g_hash_table_unref_items ht2 st.
Proof.
  intros Hm. unfold g_hash_table_unref_items.
  apply (f_equal size) in Hm. rewrite !map_size_fmap in Hm. by rewrite Hm.
Qed.

Lemma read_entries_hosts bt be dircount fuel : forall n ht1 ht2 st,
  item_raw h1 be <$> ht1 = item_raw h2 be <$> ht2 ->
  match read_entries h1 alloc fuel n dircount bt be true ht1 st,
        read_entries h2 alloc fuel n dircount bt be true ht2 st with
  | Some (inl e1, s1), Some (inl e2, s2) => e1 = e2 /\ s1 = s2
  | Some (inr r1, s1), Some (inr r2, s2) =>
      s1 = s2 /\ item_raw h1 be <$> r1 = item_raw h2 be <$> r2
  | None, None => True
  | _, _ => False
  end.
Proof.
  induction fuel as [|fuel IH]; intros n ht1 ht2 st Hm; [done|].
  cbn [read_entries]. destruct (n <? dircount); [|done].
  pose proof (read_entry_hosts bt be st) as He.
  destruct (read_entry h1 alloc bt be true st) as [[e1|[t1 i1]] s1];
    destruct (read_entry h2 alloc bt be true st) as [[e2|[t2 i2]] s2]; try done.
  - destruct He as [-> ->]. split; [done|]. by eapply unref_items_hosts.
  - destruct He as (-> & -> & Hi).
    destruct (insert_item_hosts be ht1 ht2 t2 i1 i2 s2 Hm Hi) as [Hm' Hs].
    destruct (g_hash_table_insert_item ht1 t2 i1 s2) as [r1 s1'].
    destruct (g_hash_table_insert_item ht2 t2 i2 s2) as [r2 s2'].
    cbn [fst snd] in *. subst s1'. by apply IH.
Qed.

Lemma read_directory_hosts off ld bt be st :
  match read_directory h1 alloc off ld bt be st,
        read_directory h2 alloc off ld bt be st with
  | Some (inl e1, n1, l1, s1), Some (inl e2, n2, l2, s2) =>
      e1 = e2 /\ n1 = n2 /\ l1 = l2 /\ s1 = s2
  | Some (inr r1, n1, l1, s1), Some (inr r2, n2, l2, s2) =>
      n1 = n2 /\ l1 = l2 /\ s1 = s2 /\ item_raw h1 be <$> r1 = item_raw h2 be <$> r2
  | None, None => True
  | _, _ => False
  end.
Proof.
  unfold read_directory.
  destruct (off <=? 0); [done|]. destruct (decide (off ∈ ld)); [done|].
  destruct (fseeko off (g_new st)) as [r st1]. destruct r; try done.
  rewrite (read_uint_hosts (if bt then 8 else 2) be true st1)
    by (unfold int_size; destruct bt; lia).
  destruct (read_uint h2 (if bt then 8 else 2) be true st1) as [[dircount ok] st2].
  destruct ok; cbn [negb]; [|done].
  pose proof (read_entries_hosts bt be dircount (S (length (f_bytes (g_new st2))))
                0 ∅ ∅ (g_new st2) ltac:(by rewrite !fmap_empty)) as He.
  destruct (read_entries h1 _ _ _ _ _ _ _ _ _) as [[[e1|r1] s1]|];
    destruct (read_entries h2 _ _ _ _ _ _ _ _ _) as [[[e2|r2] s2]|]; try done.
  - by destruct He as [-> ->].
  - destruct He as [-> Hm].
    rewrite (read_uint_hosts (if bt then 8 else 4) be true s2)
      by (unfold int_size; destruct bt; lia).
    destruct (read_uint h2 (if bt then 8 else 4) be true s2) as [[next ok] st3].
    destruct ok; cbn [negb]; [done|].
    repeat split; try done. by eapply unref_items_hosts.
Qed.

Lemma read_directories_hosts bt be fuel : forall diroff ld dirs1 dirs2 st,
  model_raw h1 be dirs1 = model_raw h2 be dirs2 ->
  match read_directories h1 alloc fuel diroff ld bt be dirs1 st,
        read_directories h2 alloc fuel diroff ld bt be dirs2 st with
  | Some (e1, d1, l1, s1), Some (e2, d2, l2, s2) =>
      e1 = e2 /\ l1 = l2 /\ s1 = s2 /\ model_raw h1 be d1 = model_raw h2 be d2
  | None, None => True
  | _, _ => False
  end.
Proof.
  induction fuel as [|fuel IH]; intros diroff ld dirs1 dirs2 st Hm; [done|].
  cbn [read_directories]. destruct (diroff =? 0); [done|].
  pose proof (read_directory_hosts diroff ld bt be st) as Hd.
  destruct (read_directory h1 alloc diroff ld bt be st) as [[[[[e1|r1] n1] l1] s1]|];
    destruct (read_directory h2 alloc diroff ld bt be st) as [[[[[e2|r2] n2] l2] s2]|];
    try done.
  - by destruct Hd as (-> & _ & -> & ->).
  - destruct Hd as (-> & -> & -> & Hr). apply IH.
    unfold model_raw in *. by rewrite !fmap_app, Hm, !list_fmap_singleton, Hr.
Qed.

Lemma destroy_hosts be dirs1 dirs2 st :
  model_raw h1 be dirs1 = model_raw h2 be dirs2 ->
  _openslide_tifflike_destroy dirs1 st = _openslide_tifflike_destroy dirs2 st.
Proof.
  unfold _openslide_tifflike_destroy, model_raw. intros Hm. f_equal.
  revert dirs2 st Hm. induction dirs1 as [|d1 dirs1 IH]; intros [|d2 dirs2] st Hm;
    try done.
  cbn in Hm. injection Hm as Hd Hm. cbn [foldl].
  rewrite (unref_items_hosts be d1 d2 st Hd). by apply IH.
Qed.

Lemma magic_hosts (buf : list byte) c :
  Z.of_nat (length buf) = 2 ->
  (host_val h1 buf =? byte_val c + 256 * byte_val c)
  = (host_val h2 buf =? byte_val c + 256 * byte_val c).
Proof.
  intros Hl. destruct buf as [|a [|b [|]]]; cbn [length] in Hl; try lia.
  pose proof (host_val_pair h1 a b c) as H1.
  pose proof (host_val_pair h2 a b c) as H2.
  destruct (Z.eqb_spec (host_val h1 [a; b]) (byte_val c + 256 * byte_val c)) as [E1|E1];
    destruct (Z.eqb_spec (host_val h2 [a; b]) (byte_val c + 256 * byte_val c)) as [E2|E2];
    try done; tauto.
Qed.

Lemma read_header_hosts st : read_header h1 st = read_header h2 st.
Proof.
  unfold read_header. rewrite (fseeko_ok 0 st) by lia. cbn [snd].
  set (st0 := mkState _ _ _ _).
  destruct (fread 2 st0) as [[buf|] st1] eqn:Efr; [|done].
  assert (Hlen : Z.of_nat (length buf) = 2).
  { unfold fread in Efr.
    destruct ((0 <? 2) && (0 <=? f_pos st0) && (f_pos st0 + 2 <=? f_size st0)) eqn:E;
      [|done].
    injection Efr as <- _.
    apply length_slice; subst st0; unfold f_size in *; cbn [f_bytes f_pos] in *; lia. }
  pose proof (magic_hosts buf Byte.x4d Hlen) as Hbe.
  pose proof (magic_hosts buf Byte.x49 Hlen) as Hle.
  change (byte_val "M" + 256 * byte_val "M") with 19789 in Hbe.
  change (byte_val "I" + 256 * byte_val "I") with 18761 in Hle.
  rewrite Hbe, Hle.
  destruct (negb _ && negb _); [done|].
  set (be := host_val h2 buf =? 19789).
  rewrite (read_uint_hosts 2 be true st1) by (unfold int_size; lia).
  destruct (read_uint h2 2 be true st1) as [[version ok1] st2].
  destruct (version =? 43).
  - rewrite (read_uint_hosts 2 be ok1 st2) by (unfold int_size; lia).
    destruct (read_uint h2 2 be ok1 st2) as [[osz ok2] st3].
    rewrite (read_uint_hosts 2 be ok2 st3) by (unfold int_size; lia).
    destruct (read_uint h2 2 be ok2 st3) as [[pad ok3] st4].
    rewrite (read_uint_hosts 8 be ok3 st4) by (unfold int_size; lia). done.
  - rewrite (read_uint_hosts 4 be ok1 st2) by (unfold int_size; lia). done.
Qed.

Lemma create_hosts st :
  match _openslide_tifflike_create h1 alloc st, _openslide_tifflike_create h2 alloc st with
  | Some (inl e1, s1), Some (inl e2, s2) => e1 = e2 /\ s1 = s2
  | Some (inr t1, s1), Some (inr t2, s2) =>
      s1 = s2 /\ exists be, model_raw h1 be (directories t1) = model_raw h2 be (directories t2)
  | None, None => True
  | _, _ => False
  end.
Proof.
  unfold _openslide_tifflike_create. rewrite read_header_hosts.
  destruct (read_header h2 st) as [[e|[[bt be] d0]] st1]; [done|].
  pose proof (read_directories_hosts bt be
                (S (length (f_bytes (g_new (g_new (g_new st1))))))
                d0 ∅ [] [] (g_new (g_new (g_new st1))) eq_refl) as Hd.
  destruct (read_directories h1 _ _ _ _ _ _ _ _) as [[[[e1 d1] l1] s1]|];
    destruct (read_directories h2 _ _ _ _ _ _ _ _) as [[[[e2 d2] l2] s2]|]; try done.
  destruct Hd as (-> & -> & -> & Hm).
  pose proof (destroy_hosts be d1 d2 s2 Hm) as Hdes.
  assert (Hlen : length d1 = length d2).
  { apply (f_equal length) in Hm. unfold model_raw in Hm.
    by rewrite !length_fmap in Hm. }
  destruct e2 as [e|]; [by rewrite Hdes|].
  rewrite Hlen. destruct (Z.of_nat (length d2) =? 0); [by rewrite Hdes|].
  cbn [directories]. eauto.
Qed.

Lemma load_uint_hosts be i1 i2 w k :
  item_raw h1 be i1 = item_raw h2 be i2 ->
  item_wf i1 -> 0 < count i1 -> type_width (type i1) = Some w ->
  0 <= k < elem_count (type i1) (count i1) ->
  load_uint h1 w (value i1) k = load_uint h2 w (value i2) k.
Proof.
  intros Hraw Hwf Hpos Htw Hk.
  destruct (item_wf_length i1 w Hwf Hpos Htw) as [Hlen Hw].
  destruct Hwf as (sz & c & Hv & Hc & Hlen' & Hrange).
  assert (sz = w) as ->.
  { rewrite Z.mod_small in Hv by lia. revert Htw Hv.
    unfold type_width, value_size_and_count.
    generalize (type i1). intros t. switch_cases; congruence. }
  pose proof (value_size_and_count_Some _ _ _ _ Hv) as (Hsz & _ & _).
  assert (Hn : to_int64 c = elem_count (type i1) (count i1)) by nia.
  unfold item_raw in Hraw. injection Hraw as Ht Hcnt Hfix.
  rewrite <- Ht, <- Hcnt, Hv in Hfix.
  set (raw := fix_byte_order h1 (value i1) w (to_int64 c) be) in *.
  assert (Hv1 : value i1 = fix_byte_order h1 raw w (to_int64 c) be)
    by (subst raw; by rewrite fix_byte_order_twice).
  assert (Hv2 : value i2 = fix_byte_order h2 raw w (to_int64 c) be)
    by (rewrite Hfix; by rewrite fix_byte_order_twice).
  assert (Hraw_len : w * to_int64 c <= Z.of_nat (length raw))
    by (subst raw; rewrite length_fix_byte_order; lia).
  rewrite Hv1, Hv2, !load_uint_fix_byte_order by (done || lia). done.
Qed.

Lemma get_item_hosts be t1 t2 dir tag :
  model_raw h1 be (directories t1) = model_raw h2 be (directories t2) ->
  item_raw h1 be <$> get_item t1 dir tag = item_raw h2 be <$> get_item t2 dir tag.
Proof.
  intros Hm. unfold get_item.
  assert (Hlen : length (directories t1) = length (directories t2)).
  { apply (f_equal length) in Hm. unfold model_raw in Hm.
    by rewrite !length_fmap in Hm. }
  rewrite Hlen. destruct (_ || _); [done|].
  apply (f_equal (fun l => l !! Z.to_nat dir)) in Hm. unfold model_raw in Hm.
  rewrite !list_lookup_fmap in Hm.
  destruct (directories t1 !! Z.to_nat dir) as [d1|],
    (directories t2 !! Z.to_nat dir) as [d2|]; try done.
  cbn in Hm. injection Hm as Hm.
  apply (f_equal (fun m => m !! tag)) in Hm. by rewrite !lookup_fmap in Hm.
Qed.

Lemma accessors_hosts be t1 t2 dir tag :
  model_raw h1 be (directories t1) = model_raw h2 be (directories t2) ->
  tifflike_wf t1 ->
  _openslide_tifflike_get_value_count t1 dir tag
  = _openslide_tifflike_get_value_count t2 dir tag
  /\ _openslide_tifflike_get_buffer t1 dir tag = _openslide_tifflike_get_buffer t2 dir tag
  /\ forall i ok,
       _openslide_tifflike_get_uint h1 t1 dir tag i ok
       = _openslide_tifflike_get_uint h2 t2 dir tag i ok
       /\ _openslide_tifflike_get_sint h1 t1 dir tag i ok
          = _openslide_tifflike_get_sint h2 t2 dir tag i ok
       /\ _openslide_tifflike_get_float h1 t1 dir tag i ok
          = _openslide_tifflike_get_float h2 t2 dir tag i ok.
Proof.
  intros Hm Hwf. pose proof (get_item_hosts be t1 t2 dir tag Hm) as Hit.
  unfold _openslide_tifflike_get_value_count, _openslide_tifflike_get_buffer,
    _openslide_tifflike_get_uint, _openslide_tifflike_get_sint,
    _openslide_tifflike_get_float, load_sint.
  setoid_rewrite get_and_check_item_spec.
  destruct (get_item t1 dir tag) as [i1|] eqn:E1, (get_item t2 dir tag) as [i2|];
    try done.
  assert (Hraw : item_raw h1 be i1 = item_raw h2 be i2)
    by (change (Some (item_raw h1 be i1) = Some (item_raw h2 be i2)) in Hit; congruence).
  clear Hit.
  pose proof (get_item_wf _ _ _ _ Hwf E1) as Hwf1.
  assert (Hload : forall w k, 0 < count i1 -> type_width (type i1) = Some w ->
            0 <= k < elem_count (type i1) (count i1) ->
            load_uint h1 w (value i1) k = load_uint h2 w (value i2) k)
    by (intros; by eapply load_uint_hosts).
  assert (Hbuf : buffer_type (type i1) = true -> value i1 = value i2).
  { intros Hb. pose proof Hraw as Hraw'. unfold item_raw in Hraw'.
    injection Hraw' as Ht Hcnt Hfix. rewrite <- Ht, <- Hcnt in Hfix.
    revert Hb Hfix. unfold buffer_type, value_size_and_count.
    generalize (type i1). intros t. switch_cases; intros; done. }
  unfold item_raw in Hraw. injection Hraw as Ht Hcnt _.
  clear E1 Hwf1 Hm Hwf. revert Hload Hbuf. unfold buffer_type.
  destruct i1 as [t cnt v1], i2 as [t' cnt' v2]. cbn [type count value] in *.
  subst t' cnt'. intros Hload Hbuf.
  split; [done|]. split.
  { revert Hbuf. switch_cases; intros Hbuf; try done; by rewrite Hbuf. }
  intros i ok. destruct (decide (0 <= i < cnt)) as [Hi|]; [|done].
  cbn [type count value].
  assert (Hl : forall w k, type_width t = Some w -> 0 <= k < elem_count t cnt ->
            load_uint h1 w v1 k = load_uint h2 w v2 k)
    by (intros; apply Hload; [lia|done..]).
  clear Hload Hbuf. revert Hl.
  switch_cases; intros Hl; (split; [|split]); try reflexivity;
    rewrite ?(Hl 1 i), ?(Hl 2 i), ?(Hl 4 i), ?(Hl 8 i), ?(Hl 4 (i * 2)),
      ?(Hl 4 (i * 2 + 1)) by (reflexivity || (cbn; lia));
    reflexivity.
Qed.

(** The model does not depend on the byte order of the host.  On any two
    hosts, [_openslide_tifflike_create] makes the same calls on the stream
    and the heap and ends in the same state; it fails on both or succeeds on
    both, with the same error when it fails; and when it succeeds, the two
    models have as many directories, and every accessor returns the same
    answer on both for every directory, tag, index and flag. *)
Theorem create_host_independent st :
  match _openslide_tifflike_create h1 alloc st, _openslide_tifflike_create h2 alloc st with
  | Some (inl e1, s1), Some (inl e2, s2) => e1 = e2 /\ s1 = s2
  | Some (inr t1, s1), Some (inr t2, s2) =>
      s1 = s2
      /\ _openslide_tifflike_get_directory_count t1
         = _openslide_tifflike_get_directory_count t2
      /\ forall dir tag,
           _openslide_tifflike_get_value_count t1 dir tag
           = _openslide_tifflike_get_value_count t2 dir tag
           /\ _openslide_tifflike_get_buffer t1 dir tag
              = _openslide_tifflike_get_buffer t2 dir tag
           /\ forall i ok,
                _openslide_tifflike_get_uint h1 t1 dir tag i ok
                = _openslide_tifflike_get_uint h2 t2 dir tag i ok
                /\ _openslide_tifflike_get_sint h1 t1 dir tag i ok
                   = _openslide_tifflike_get_sint h2 t2 dir tag i ok
                /\ _openslide_tifflike_get_float h1 t1 dir tag i ok
                   = _openslide_tifflike_get_float h2 t2 dir tag i ok
  | _, _ => False
  end.
Proof.
  pose proof (create_hosts st) as H.
  destruct (create_spec h1 alloc st) as (r1 & s1 & Hc1 & _).
  destruct (create_spec h2 alloc st) as (r2 & s2 & Hc2 & _).
  rewrite Hc1, Hc2 in *.
  destruct r1 as [e1|t1], r2 as [e2|t2]; try done.
  destruct H as (-> & be & Hm). split; [done|]. split.
  - unfold _openslide_tifflike_get_directory_count.
    apply (f_equal length) in Hm. unfold model_raw in Hm.
    rewrite !length_fmap in Hm. by rewrite Hm.
  - intros dir tag. apply (accessors_hosts be); [done|].
    by eapply create_tifflike_wf.
Qed.

End HostIndependence.

(** * Worked instances *)

Ltac by_computation :=
  repeat split; vm_compute;
  first [reflexivity | discriminate | (intros ?; discriminate)].

(** C2 at [cycle_file]: the directory at 26 points back to the one at 8. *)
Lemma walk_cycle_witness :
  exists st',
    _openslide_tifflike_create false 1000 (mkState cycle_file 0 [] 0)
    = Some (inl (bad_data "Loop detected"), st').
Proof.
  pose proof (walk_terminates_and_detects_loops false 1000 (mkState cycle_file 0 [] 0))
    as (_ & _ & Hcycle).
  eapply (Hcycle false true 8 26).
  - vm_compute. reflexivity.
  - done.
  - vm_compute. reflexivity.
  - done.
  - vm_compute. reflexivity.
Defined.

(** C1 at [broken_chain_file]: the first directory is read, the second one
    fails on an entry of unknown type; the call returns that error, and of
    all the blocks allocated only the item record in flight is left. *)
Lemma create_broken_chain_witness :
  exists st',
    _openslide_tifflike_create false 1000 (mkState broken_chain_file 0 [] 0)
    = Some (inl (bad_data "Unknown type encountered: 99"), st')
    /\ heap_live st' = 1.
Proof.
  destruct (create_all_or_nothing false 1000 (mkState broken_chain_file 0 [] 0))
    as (r & st' & Hc & Hheap & _ & Hfail & _).
  assert (Hr : r = inl (bad_data "Unknown type encountered: 99")).
  { eapply (Hfail false false 8 [8] 26).
    - vm_compute. reflexivity.
    - eapply reaches_next; [done| |apply reaches_here]. vm_compute. reflexivity.
    - done.
    - vm_compute. reflexivity. }
  subst r. exists st'. split; [exact Hc|exact Hheap].
Defined.

(** C5 at [bad_magic_file]. *)
Lemma header_rejection_witness :
  hdr_endian bad_magic_file = None
  /\ exists e st',
       _openslide_tifflike_create false 1000 (mkState bad_magic_file 0 [] 0)
       = Some (inl e, st')
       /\ code e = OPENSLIDE_ERROR_FORMAT_NOT_SUPPORTED.
Proof.
  assert (Hm : hdr_endian bad_magic_file = None) by (vm_compute; reflexivity).
  split; [exact Hm|].
  destruct (header_rejection false 1000 (mkState bad_magic_file 0 [] 0))
    as (Hshape & Hreject & _ & _).
  apply Hreject, Hshape. left. exact Hm.
Defined.

(** C6 at [negative_offset_file]: the first directory offset is -1. *)
Lemma walk_bad_offset_witness :
  header_shape negative_offset_file = Some (true, false, -1)
  /\ exists st',
       _openslide_tifflike_create false 1000 (mkState negative_offset_file 0 [] 0)
       = Some (inl (bad_data "Bad offset"), st').
Proof.
  assert (Hh : header_shape negative_offset_file = Some (true, false, -1))
    by (vm_compute; reflexivity).
  split; [exact Hh|].
  destruct (walk_bad_offset false 1000 (mkState negative_offset_file 0 [] 0))
    as (_ & Hwalk).
  destruct (Hwalk true false (-1) [] (-1) ∅ [] _ Hh (reaches_here _ _ _ _ _ _ _ _))
    as (Hneg & _).
  apply Hneg. lia.
Defined.

(** C6 as the claim states it fails at offset 0: a first directory offset
    of 0 gives "TIFF contains no directories", not "Bad offset", and a
    next-directory offset of 0 ends the chain with a model. *)
Lemma walk_bad_offset_counterexample :
  (header_shape empty_chain_file = Some (false, false, 0)
   /\ exists st',
        _openslide_tifflike_create false 1000 (mkState empty_chain_file 0 [] 0)
        = Some (inl (bad_data "TIFF contains no directories"), st'))
  /\ (header_shape one_dir_file = Some (false, false, 8)
      /\ dir_next false false one_dir_file 8 = 0
      /\ exists tl st',
           _openslide_tifflike_create false 1000 (mkState one_dir_file 0 [] 0)
           = Some (inr tl, st')).
Proof.
  split; [split|split; [|split]].
  - vm_compute. reflexivity.
  - vm_compute. eexists. reflexivity.
  - vm_compute. reflexivity.
  - vm_compute. reflexivity.
  - vm_compute. eexists _, _. reflexivity.
Qed.

(** C3 at [short_entry]: one Short fits the inline field. *)
Lemma entry_value_storage_witness :
  let st := mkState short_entry 0 [] 0 in
  readable (entry_size false) st
  /\ type_width (entry_type false st) = Some 2
  /\ exists st',
       read_entry false 1000 false false true st
       = (inr (256, mk_item TIFF_SHORT 1 (bytes_of [5; 0])), st')
       /\ f_pos st' = 12
       /\ f_log st' = [fread_call 2; fread_call 2; fread_call 4; fread_call 4].
Proof.
  cbv zeta.
  assert (Hr : readable (entry_size false) (mkState short_entry 0 [] 0))
    by by_computation.
  assert (Ht : type_width (entry_type false (mkState short_entry 0 [] 0)) = Some 2)
    by (vm_compute; reflexivity).
  split; [exact Hr|]. split; [exact Ht|].
  destruct (entry_value_storage false 1000 false false (mkState short_entry 0 [] 0) 2 Hr Ht)
    as (Hinline & _).
  - by_computation.
  - by_computation.
  - destruct Hinline as (st' & Heq & Hpos & Hlog).
    + by_computation.
    + exists st'. split; [exact Heq|]. split; [exact Hpos|exact Hlog].
Defined.

(** C3 at the Ascii entry of [one_dir_file] (at 22): six bytes do not fit
    the inline field, which holds the offset 38; they are read there and
    the cursor returns to 34. *)
Lemma entry_value_storage_offset_instance :
  let st := mkState one_dir_file 22 [] 0 in
  exists st',
    read_entry false 1000 false false true st
    = (inr (270, mk_item TIFF_ASCII 6 (bytes_of [104; 101; 108; 108; 111; 0])), st')
    /\ f_pos st' = 34
    /\ f_log st' = [fread_call 2; fread_call 2; fread_call 4; fread_call 4;
                    fseeko_call 38; fread_call 6; fseeko_call 34].
Proof.
  cbv zeta. vm_compute. eexists. split; [reflexivity|]. split; reflexivity.
Qed.

(** The doubling of a Rational count is done in 64 bits: a count of
    2^63 + 1 becomes 2, the entry decodes from its inline field, and the
    item is stored with a negative count. *)
Lemma doubled_count_wraps :
  let st := mkState wrapping_entry 0 [] 0 in
  entry_count true false st = 2 ^ 63 + 1
  /\ fst (read_entry false 1000 true false true st)
     = inr (282, mk_item TIFF_RATIONAL (- (2 ^ 63 - 1))
                   (bytes_of [1; 0; 0; 0; 2; 0; 0; 0])).
Proof.
  cbv zeta. split; vm_compute; reflexivity.
Qed.

(** C3 as the claim states it fails at a count of 0: the value would fit
    the inline field, but the entry is refused. *)
Lemma entry_value_storage_counterexample :
  let st := mkState empty_entry 0 [] 0 in
  readable (entry_size false) st
  /\ type_width (entry_type false st) = Some 1
  /\ 1 * elem_count (entry_type false st) (entry_count false false st)
     <= field_len false
  /\ fst (read_entry false 1000 false false true st)
     = inl (bad_data "Cannot read value").
Proof.
  cbv zeta. by_computation.
Qed.

(** C9 at [dup_tag_file]: tag 256 is written twice; the second value, 7,
    wins. *)
Lemma duplicate_tags_witness :
  dir_complete false 1000 false false dup_tag_file 8
  /\ exists ht st',
       read_directory false 1000 8 ∅ false false (mkState dup_tag_file 0 [] 0)
       = Some (inr ht, 0, {[8]} ∪ ∅, st')
       /\ ht !! 256 = Some (mk_item TIFF_SHORT 1 (bytes_of [7; 0])).
Proof.
  assert (Hc : dir_complete false 1000 false false dup_tag_file 8).
  { unfold dir_complete. by_computation. }
  split; [exact Hc|].
  destruct (duplicate_tags_last_write_wins false 1000 8 ∅ false false
              (mkState dup_tag_file 0 [] 0) ltac:(lia) (not_elem_of_empty 8) Hc)
    as (ht & st' & Hd & Hlast).
  exists ht, st'. split; [exact Hd|].
  apply (Hlast 0%nat 1%nat 256 (mk_item TIFF_SHORT 1 (bytes_of [5; 0]))).
  - lia.
  - vm_compute. reflexivity.
  - vm_compute. reflexivity.
  - intros [|[|k']] e Hlt He; [lia|lia|]. vm_compute in He. discriminate.
Defined.

(** C7 at [big_tile_model]: a Long of 6 MiB; and a tag that is missing. *)
Lemma get_uint_witness :
  _openslide_tifflike_get_uint false big_tile_model 0 TIFFTAG_TILEBYTECOUNTS 0 (Some true)
  = (6291456, Some true)
  /\ _openslide_tifflike_get_uint false big_tile_model 0 256 0 (Some true)
     = (0, Some false).
Proof.
  destruct (get_uint_widens false big_tile_model 0 TIFFTAG_TILEBYTECOUNTS 0 (Some true))
    as (Hin & _).
  destruct (get_uint_widens false big_tile_model 0 256 0 (Some true))
    as (_ & Hmissing & _).
  split.
  - destruct (Hin (mk_item TIFF_LONG 1 (bytes_of [0; 0; 0x60; 0])))
      as (_ & _ & Hlong & _).
    + vm_compute. reflexivity.
    + cbn. lia.
    + rewrite Hlong by (left; reflexivity). vm_compute. reflexivity.
  - apply Hmissing. vm_compute. reflexivity.
Defined.


(** C10 at [rational_model], which has one directory: index 1 and index -1.
    A read of slot 1 of its array would be a fault; the accessors meet
    none. *)
Lemma directory_out_of_range_witness :
  _openslide_tifflike_get_uint false rational_model 1 282 0 (Some true)
  = (0, Some false)
  /\ _openslide_tifflike_get_float false rational_model (-1) 282 0 (Some true)
     = (NAN, Some false)
  /\ _openslide_tifflike_get_buffer rational_model 1 282 = None
  /\ _openslide_tifflike_get_value_count rational_model 1 282 = 0
  /\ pdata_read rational_model 1 = inl out_of_bounds
  /\ get_item_mem rational_model 1 282 = inr None
  /\ _openslide_tifflike_get_uint_mem false rational_model 1 282 0 (Some true)
     = inr (0, Some false)
  /\ _openslide_tifflike_get_float_mem false rational_model (-1) 282 0 (Some true)
     = inr (NAN, Some false).
Proof.
  destruct (directory_out_of_range false rational_model 1 282 0 (Some true))
    as (_ & Hu & _ & _ & Hb & Hc & _ & Hslot & Hmem & Hum & _);
    [right; by_computation|].
  destruct (directory_out_of_range false rational_model (-1) 282 0 (Some true))
    as (_ & _ & _ & Hf & _ & _ & _ & _ & _ & _ & _ & Hfm & _); [left; lia|].
  split; [exact Hu|]. split; [exact Hf|]. split; [exact Hb|]. split; [exact Hc|].
  split; [exact Hslot|]. split; [exact Hmem|]. split; [exact Hum|exact Hfm].
Defined.



(** The pre-scan adds the byte counts in a signed 64-bit total: a byte count
    of 2^63 makes it negative, the ceiling is not seen as passed, and the
    tile is handed to [_openslide_hash_file_part] with a negative length. *)
Lemma hash_total_wraps :
  sum_counts false wrapping_tile_model 0 TIFFTAG_TILEBYTECOUNTS 1 0 = 2 ^ 63
  /\ hash_tiff_level false (list hash_call) log_disable log_file_part []
       wrapping_tile_model 0
     = (None, [HashFilePart 8 (- 2 ^ 63)]).
Proof.
  split; vm_compute; reflexivity.
Qed.

(** The invariant of stored items at [one_dir_file]: the Ascii item of six
    bytes. *)
Lemma create_items_wf_witness :
  exists tl st' item,
    _openslide_tifflike_create false 1000 (mkState one_dir_file 0 [] 0)
    = Some (inr tl, st')
    /\ get_item tl 0 270 = Some item
    /\ item_wf item
    /\ Z.of_nat (length (value item)) = 1 * 6.
Proof.
  destruct (_openslide_tifflike_create false 1000 (mkState one_dir_file 0 [] 0))
    as [[[e|tl] st']|] eqn:Hc; [vm_compute in Hc; discriminate| |vm_compute in Hc; discriminate].
  destruct (get_item tl 0 270) as [item|] eqn:Hi.
  2:{ vm_compute in Hc. injection Hc as <- _. vm_compute in Hi. discriminate. }
  exists tl, st', item. split; [reflexivity|]. split; [exact Hi|].
  destruct (create_items_wf false 1000 _ _ _ _ _ _ Hc Hi) as (Hwf & _).
  split; [exact Hwf|].
  vm_compute in Hc. injection Hc as <- _. vm_compute in Hi. injection Hi as <-.
  reflexivity.
Defined.

(** ** Instances of the further properties *)

(** An item of [rational_model] is served by [get_float] and by no other
    accessor. *)
Lemma accessors_partition_witness :
  snd (_openslide_tifflike_get_float false rational_model 0 282 0 (Some true)) = Some true
  /\ Z.b2z (bool_decide (snd (_openslide_tifflike_get_uint false rational_model 0 282 0
                                (Some true)) = Some true))
     + Z.b2z (bool_decide (snd (_openslide_tifflike_get_sint false rational_model 0 282 0
                                  (Some true)) = Some true))
     + Z.b2z (bool_decide (snd (_openslide_tifflike_get_float false rational_model 0 282 0
                                  (Some true)) = Some true))
     + Z.b2z (bool_decide (is_Some (_openslide_tifflike_get_buffer rational_model 0 282)))
     = 1.
Proof.
  split; [vm_compute; reflexivity|].
  apply (accessors_partition false rational_model 0 282 0
           (mk_item TIFF_RATIONAL 2
              (bytes_of [1; 0; 0; 0; 2; 0; 0; 0; 1; 0; 0; 0; 0; 0; 0; 0]))).
  - vm_compute. reflexivity.
  - cbn. lia.
Defined.

(** Two big-endian shorts on a little-endian host: each one is reversed. *)
Lemma fix_byte_order_witness :
  fix_byte_order false (bytes_of [1; 2; 3; 4]) 2 2 true = bytes_of [2; 1; 4; 3]
  /\ elem_bytes 2 (fix_byte_order false (bytes_of [1; 2; 3; 4]) 2 2 true) 1
     = rev (elem_bytes 2 (bytes_of [1; 2; 3; 4]) 1).
Proof.
  split; [vm_compute; reflexivity|].
  destruct (fix_byte_order_native_or_reversed false (bytes_of [1; 2; 3; 4]) 2 2 true)
    as (_ & Hrev & _).
  - right. left. reflexivity.
  - lia.
  - cbn. lia.
  - apply Hrev; [discriminate|lia].
Defined.

(** The version field of [cycle_file], a big-endian 42, read on a
    little-endian host. *)
Lemma read_uint_witness :
  exists st',
    read_uint false 2 true true (mkState cycle_file 2 [] 0) = (42, true, st')
    /\ f_pos st' = 4.
Proof.
  destruct (read_uint_decodes false 2 true true (mkState cycle_file 2 [] 0)) as [Hok _].
  { right. left. reflexivity. }
  destruct Hok as [Hrun _].
  { split; vm_compute; discriminate. }
  eexists. split; [exact Hrun|reflexivity].
Defined.

(** [one_dir_file]: one directory, in a file of 44 bytes; the string at tag
    270 has six bytes. *)
Lemma create_model_counts_witness :
  exists tl st',
    _openslide_tifflike_create false 1000 (mkState one_dir_file 0 [] 0)
    = Some (inr tl, st')
    /\ 1 <= _openslide_tifflike_get_directory_count tl < 44
    /\ (_openslide_tifflike_get_value_count tl 0 999 = 0 <-> get_item tl 0 999 = None).
Proof.
  destruct (_openslide_tifflike_create false 1000 (mkState one_dir_file 0 [] 0))
    as [[[e|tl] st']|] eqn:Hc;
    [vm_compute in Hc; discriminate| |vm_compute in Hc; discriminate].
  exists tl, st'. split; [reflexivity|].
  destruct (create_model_counts false 1000 _ _ _ Hc) as (Hn & Hz & _).
  split; [exact Hn|apply Hz].
Defined.

(** [one_dir_file]: creating the model and destroying it leaves no block. *)
Lemma create_destroy_balanced_witness :
  exists tl st',
    _openslide_tifflike_create false 1000 (mkState one_dir_file 0 [] 0)
    = Some (inr tl, st')
    /\ heap_live (_openslide_tifflike_destroy (directories tl) st') = 0.
Proof.
  destruct (_openslide_tifflike_create false 1000 (mkState one_dir_file 0 [] 0))
    as [[[e|tl] st']|] eqn:Hc;
    [vm_compute in Hc; discriminate| |vm_compute in Hc; discriminate].
  exists tl, st'. split; [reflexivity|].
  apply (create_destroy_balanced false 1000 _ _ _ Hc).
Defined.

(** [one_dir_file]: the Short under tag 256 comes from an entry of the
    directory at 8, and [get_uint] returns the 5 that the file spells. *)
Lemma model_elements_from_file_witness :
  exists tl st' item,
    _openslide_tifflike_create false 1000 (mkState one_dir_file 0 [] 0)
    = Some (inr tl, st')
    /\ get_item tl 0 256 = Some item
    /\ _openslide_tifflike_get_uint false tl 0 256 0 (Some true) = (5, Some true)
    /\ exists bt be d0 offs off j,
         header_shape one_dir_file = Some (bt, be, d0)
         /\ dir_chain false 1000 bt be one_dir_file d0 offs
         /\ offs !! 0%nat = Some off
         /\ entry_type be (mkState one_dir_file
                             (off + count_len bt + entry_size bt * j) [] 0)
            = type item.
Proof.
  destruct (_openslide_tifflike_create false 1000 (mkState one_dir_file 0 [] 0))
    as [[[e|tl] st']|] eqn:Hc;
    [vm_compute in Hc; discriminate| |vm_compute in Hc; discriminate].
  destruct (get_item tl 0 256) as [item|] eqn:Hi.
  2:{ vm_compute in Hc. injection Hc as <- _. vm_compute in Hi. discriminate. }
  exists tl, st', item. split; [reflexivity|]. split; [exact Hi|].
  split.
  { vm_compute in Hc. injection Hc as <- _. vm_compute. reflexivity. }
  destruct (model_elements_from_file false 1000 _ _ _ 0 256 item Hc Hi)
    as (bt & be & d0 & offs & off & j & Hh & Hch & Hoff & _ & _ & Hty & _).
  exists bt, be, d0, offs, off, j. split; [exact Hh|]. split; [exact Hch|].
  split; [exact Hoff|]. symmetry. exact Hty.
Defined.

(** [small_tile_model]: the two tiles are hashed in order. *)
Lemma hash_tiles_in_order_witness :
  hash_tiff_level false (list hash_call) log_disable log_file_part [] small_tile_model 0
  = (None, [HashFilePart 8 10; HashFilePart 100 20]).
Proof.
  rewrite (hash_tiles_in_order false (list hash_call) log_disable log_file_part []
             small_tile_model 0 TIFFTAG_TILEOFFSETS TIFFTAG_TILEBYTECOUNTS).
  - vm_compute. reflexivity.
  - left. by_computation.
  - vm_compute. reflexivity.
  - intros item H. vm_compute in H. injection H as <-. reflexivity.
  - intros item H. vm_compute in H. injection H as <-. reflexivity.
  - vm_compute. discriminate.
Defined.

(** The reads of the accessors at [one_dir_file]: the Short 5 and the
    string are read without a fault.  An item that counts two Shorts over a
    buffer of two bytes is not one of a created model: the read of its
    second element is a fault. *)
Lemma accessors_memory_safe_witness :
  (exists tl st',
     _openslide_tifflike_create false 1000 (mkState one_dir_file 0 [] 0)
     = Some (inr tl, st')
     /\ _openslide_tifflike_get_uint_mem false tl 0 256 0 (Some true)
        = inr (5, Some true)
     /\ _openslide_tifflike_get_buffer_mem tl 0 270
        = inr (Some (bytes_of [104; 101; 108; 108; 111; 0])))
  /\ _openslide_tifflike_get_uint_mem false
       (mk_tifflike [{[ 256 := mk_item TIFF_SHORT 2 (bytes_of [5; 0]) ]}])
       0 256 1 (Some true)
     = inl out_of_bounds.
Proof.
  split; [|vm_compute; reflexivity].
  destruct (_openslide_tifflike_create false 1000 (mkState one_dir_file 0 [] 0))
    as [[[e|tl] st']|] eqn:Hc; [vm_compute in Hc; discriminate| |vm_compute in Hc; discriminate].
  exists tl, st'. split; [reflexivity|].
  destruct (accessors_memory_safe false 1000 _ _ _ 0 256 0 (Some true) Hc)
    as (_ & Hu & _).
  destruct (accessors_memory_safe false 1000 _ _ _ 0 270 0 (Some true) Hc)
    as (_ & _ & _ & _ & Hb & _).
  rewrite Hu, Hb.
  vm_compute in Hc. injection Hc as <- _. split; vm_compute; reflexivity.
Defined.

(** The directory at 8 of [one_dir_file] is complete: it is read, with a
    next offset of 0. *)
Lemma read_directory_outcome_witness :
  exists st',
    read_directory false 1000 8 ∅ false false (mkState one_dir_file 0 [] 0)
    = Some (inr (dir_table false 1000 false false one_dir_file 8), 0, {[8]} ∪ ∅, st').
Proof.
  destruct (read_directory_outcome false 1000 8 ∅ false false
              (mkState one_dir_file 0 [] 0))
    as (r & next & st' & Hrun & _ & _ & _ & Hok);
    [lia|vm_compute; discriminate|apply not_elem_of_empty|].
  destruct Hok as (-> & -> & _); [by_computation|].
  exists st'. exact Hrun.
Defined.

Lemma properties_model_run ht :
  store_and_hash_properties false (list (option string)) log_string show_half
    "openslide.comment" properties_model 0 ht []
  = Some (stored_properties false show_half "openslide.comment" properties_model 0 ht,
          hashed_properties (list (option string)) log_string properties_model 0 []).
Proof.
  rewrite properties_normal_form. apply decide_True.
  unfold tiff_string_properties.
  repeat constructor; intros buf Hb; vm_compute in Hb;
    first [discriminate | injection Hb as <-; compute_done].
Qed.

(** [properties_model]: the description is stored under its name and as the
    comment; the make, which the directory does not have, stays absent. *)
Lemma properties_strings_witness :
  exists ht' h',
    store_and_hash_properties false (list (option string)) log_string show_half
      "openslide.comment" properties_model 0 ∅ [] = Some (ht', h')
    /\ ht' !! "tiff.ImageDescription" = Some "hi"
    /\ ht' !! "openslide.comment" = ht' !! "tiff.ImageDescription"
    /\ ht' !! "tiff.Make" = None.
Proof.
  eexists _, _. split; [apply properties_model_run|].
  destruct (properties_strings_stored false _ _ _ _ _ _ _ _ _ _ (properties_model_run ∅))
    as [Hs Hc].
  split; [vm_compute; reflexivity|]. split.
  - rewrite Hc; [reflexivity|compute_done|compute_done|discriminate].
  - pose proof (Hs "tiff.Make" TIFFTAG_MAKE ltac:(right; left)) as Hm.
    assert (Hb : _openslide_tifflike_get_buffer properties_model 0 TIFFTAG_MAKE = None)
      by (vm_compute; reflexivity).
    rewrite Hb in Hm. rewrite Hm by discriminate. reflexivity.
Defined.

(** [properties_model]: the X resolution 1/2 is stored as written by the
    formatter, the Y resolution is absent, and the unit 3 is centimeter. *)
Lemma properties_floats_and_unit_witness :
  exists ht' h',
    store_and_hash_properties false (list (option string)) log_string show_half
      "openslide.comment" properties_model 0 ∅ [] = Some (ht', h')
    /\ ht' !! "tiff.XResolution" = Some "0.5"
    /\ ht' !! "tiff.YResolution" = None
    /\ ht' !! "tiff.ResolutionUnit" = Some "centimeter".
Proof.
  eexists _, _. split; [apply properties_model_run|].
  destruct (properties_floats_and_unit false _ _ _ _ _ _ _ _ _ _ (properties_model_run ∅))
    as (Hf & unit & Hu & Hcase).
  split; [|split].
  - rewrite (Hf "tiff.XResolution" TIFFTAG_XRESOLUTION); [|left|discriminate].
    vm_compute. reflexivity.
  - rewrite (Hf "tiff.YResolution" TIFFTAG_YRESOLUTION); [|right; left|discriminate].
    vm_compute. reflexivity.
  - rewrite Hu. f_equal.
    assert (Hget : _openslide_tifflike_get_uint false properties_model 0
                     TIFFTAG_RESOLUTIONUNIT 0 (Some true) = (3, Some true))
      by (vm_compute; reflexivity).
    rewrite Hget in Hcase. by apply Hcase.
Defined.

(** [properties_model]: a property of another subsystem is left alone. *)
Lemma properties_other_keys_witness :
  exists ht' h',
    store_and_hash_properties false (list (option string)) log_string show_half
      "openslide.comment" properties_model 0 {[ "openslide.vendor" := "generic-tiff" ]} []
    = Some (ht', h')
    /\ ht' !! "openslide.vendor" = Some "generic-tiff".
Proof.
  eexists _, _. split; [apply properties_model_run|].
  rewrite (properties_other_keys_kept false _ _ _ _ _ _ _ _ _ _ "openslide.vendor"
             (properties_model_run _));
    [vm_compute; reflexivity|discriminate|discriminate|compute_done|compute_done].
Defined.

(** [properties_model]: the accumulator is fed eighteen strings, the
    description among them and no number. *)
Lemma properties_hash_witness :
  exists ht' h',
    store_and_hash_properties false (list (option string)) log_string show_half
      "openslide.comment" properties_model 0 ∅ [] = Some (ht', h')
    /\ length h' = 18%nat
    /\ take 4 h' = [Some "tiff.ImageDescription"; Some "hi"; Some "tiff.Make"; None].
Proof.
  eexists _, _. split; [apply properties_model_run|].
  destruct (properties_hash_strings_only false _ _ _ _ _ _ _ _ _ _ (properties_model_run ∅))
    as [-> _].
  split; vm_compute; reflexivity.
Defined.

(** [small_tile_model]: the two tags of the directory are printed in
    increasing order. *)
Lemma print_directory_sorted_witness :
  exists keys,
    keys = [TIFFTAG_TILEOFFSETS; TIFFTAG_TILEBYTECOUNTS]
    /\ StronglySorted Z.lt keys
    /\ print_directory false "li" "lu" "l" small_tile_model 0 []
       = match print_tags false "li" "lu" "l" small_tile_model 0 keys [] with
         | inl f => inl f
         | inr out' => inr (printf nl [] out')
         end.
Proof.
  destruct (print_directory_sorted false "li" "lu" "l" small_tile_model 0
              {[ TIFFTAG_TILEOFFSETS :=
                   mk_item TIFF_LONG 2 (bytes_of [8; 0; 0; 0; 100; 0; 0; 0]);
                 TIFFTAG_TILEBYTECOUNTS :=
                   mk_item TIFF_LONG 2 (bytes_of [10; 0; 0; 0; 20; 0; 0; 0]) ]} [])
    as (keys & Hs & Hin & Hany & Hrun).
  - lia.
  - reflexivity.
  - intros k [x Hx]. destruct (decide (k = 324)) as [->|Hne]; [lia|].
    rewrite lookup_insert_ne in Hx by done.
    apply lookup_singleton_Some in Hx as [<- _]. lia.
  - exists keys. split; [|split; [exact Hs|exact Hrun]].
    rewrite <- (Hany [325; 324]).
    + vm_compute. reflexivity.
    + apply NoDup_Permutation.
      * compute_done.
      * apply NoDup_fst_map_to_list.
      * intros k. rewrite list_elem_of_fmap. split.
        -- intros Hk. assert (Hcase : k = 325 \/ k = 324).
           { apply elem_of_cons in Hk as [->|Hk]; [by left|].
             apply elem_of_cons in Hk as [->|Hk]; [by right|].
             by apply elem_of_nil in Hk. }
           destruct Hcase as [-> | ->]; eexists (_, _); (split; [reflexivity|]);
             apply elem_of_map_to_list; vm_compute; reflexivity.
        -- intros ([k' x] & -> & Hx). apply elem_of_map_to_list in Hx. cbn [fst].
           destruct (decide (k' = 324)) as [->|Hne]; [right; left|].
           rewrite lookup_insert_ne in Hx by done.
           apply lookup_singleton_Some in Hx as [<- _]. left.
Defined.

(** Printing the model of [one_dir_file] runs to the end. *)
Lemma print_created_model_witness :
  exists tl st' out,
    _openslide_tifflike_create false 1000 (mkState one_dir_file 0 [] 0)
    = Some (inr tl, st')
    /\ _openslide_tifflike_print false "li" "lu" "l" tl [] = inr out
    /\ g_return_if_reached_call ∉ out.
Proof.
  destruct (_openslide_tifflike_create false 1000 (mkState one_dir_file 0 [] 0))
    as [[[e|tl] st']|] eqn:Hc;
    [vm_compute in Hc; discriminate| |vm_compute in Hc; discriminate].
  destruct (print_created_model false 1000 "li" "lu" "l" _ tl st' [] Hc)
    as (out & Hrun & Hclean).
  exists tl, st', out. split; [reflexivity|]. split; [exact Hrun|].
  apply Hclean, not_elem_of_nil.
Defined.

Lemma fread_one_byte_prefix n (fp : list byte) :
  id fp = (fread_one_byte n fp).1 ++ id (fread_one_byte n fp).2
  /\ Z.of_nat (length (fread_one_byte n fp).1) <= Z.max 0 n.
Proof.
  unfold fread_one_byte, id. destruct (Z.ltb_spec 0 n); cbn [fst snd].
  - rewrite take_drop. split; [done|]. rewrite length_take. lia.
  - split; [done|]. cbn [length]. lia.
Qed.

(** Three bytes asked of a stream that hands out one byte per call: the
    bytes returned are the next bytes of the stream, at most three. *)
Lemma _openslide_fread_prefix_witness :
  exists data fp',
    _openslide_fread (list byte) fread_one_byte (bytes_of [1; 2; 3; 4]) 3
    = Some (data, fp')
    /\ bytes_of [1; 2; 3; 4] = data ++ fp'
    /\ Z.of_nat (length data) <= 3.
Proof.
  destruct (_openslide_fread_prefix (list byte) fread_one_byte id fread_one_byte_prefix
              (bytes_of [1; 2; 3; 4]) 3)
    as (data & fp' & Hrun & Hrem & Hlen & _); [lia|].
  exists data, fp'. split; [exact Hrun|]. split; [exact Hrem|exact Hlen].
Defined.

(** The same stream: the three calls are made up into one read of three
    bytes, and a read of six bytes returns the four bytes there are. *)
Lemma _openslide_fread_complete_witness :
  _openslide_fread (list byte) fread_one_byte (bytes_of [1; 2; 3; 4]) 3
  = Some (bytes_of [1; 2; 3], bytes_of [4])
  /\ exists fp',
       _openslide_fread (list byte) fread_one_byte (bytes_of [1; 2; 3; 4]) 6
       = Some (bytes_of [1; 2; 3; 4], fp').
Proof.
  split; [vm_compute; reflexivity|].
  destruct (_openslide_fread_complete (list byte) fread_one_byte id fread_one_byte_prefix
              (bytes_of [1; 2; 3; 4]) 6)
    as (fp' & Hrun & _).
  - intros n fp0 Hn Hne. unfold fread_one_byte, id in *.
    destruct (Z.ltb_spec 0 n); [|lia]. cbn [fst]. by destruct fp0.
  - lia.
  - exists fp'. exact Hrun.
Defined.

